(** * Cross-venue arbitrage scanner: a shallow embedding of the scan pipeline

    The development follows the Python sources module by module:
    [src/markets/models.py], [src/arbitrage/detector.py],
    [src/arbitrage/executor.py], [src/markets/kalshi.py],
    [src/markets/polymarket.py] and [src/matching/matcher.py].

    Numbers.  Python [float]s are read as exact rationals ([Q], compared with
    [==]); [float("inf")] is a separate constructor where the code uses it.
    [round(x, n)] is rounding to the nearest multiple of [10^-n], ties to
    even.  A [datetime] is its number of seconds since the epoch (UTC); every
    [datetime.now(timezone.utc)] of one call reads the same instant [now].

    Containers.  Python dicts that are only looked up are [gmap]s; dicts that
    are iterated are association lists in insertion order; sets are
    [gset]s. *)

From Stdlib Require Import QArith Qround Qabs Qminmax ZArith Lia Lqa.
From Stdlib Require Import String Ascii List Bool Permutation Sorted.
From stdpp Require Import gmap strings.
Import ListNotations.

Open Scope Q_scope.
Set Warnings "-abstract-large-number".

(* ===================================================================== *)
(** * Python built-ins *)
(* ===================================================================== *)

Module Py.

(** [x < y] and [x <= y] on floats, as booleans. *)
Definition Qleb (x y : Q) : bool := Qle_bool x y.
Definition Qltb (x y : Q) : bool := negb (Qle_bool y x).

(** Python's [max(a, b)]: the first argument unless the second is greater. *)
Definition py_max (a b : Q) : Q := if Qltb a b then b else a.
(** Python's [min(a, b)]: the first argument unless the second is smaller. *)
Definition py_min (a b : Q) : Q := if Qltb b a then b else a.

(** Nearest integer, ties to the even neighbour. *)
Definition round_half_even (x : Q) : Z :=
  let f := Qfloor x in
  match Qcompare (x - inject_Z f) (1 # 2) with
  | Lt => f
  | Gt => (f + 1)%Z
  | Eq => if Z.even f then f else (f + 1)%Z
  end.

Definition pow10 (n : nat) : Q := inject_Z (10 ^ Z.of_nat n).

(** [round(x, n)]. *)
Definition round_dp (n : nat) (x : Q) : Q :=
  inject_Z (round_half_even (x * pow10 n)) / pow10 n.

(** [list.sort(key=..., reverse=True)]: stable, descending by key. *)
Fixpoint insert_desc {A} (key : A -> Q) (x : A) (l : list A) : list A :=
  match l with
  | [] => [x]
  | y :: l' => if Qltb (key x) (key y) then y :: insert_desc key x l'
               else x :: y :: l'
  end.
Definition sort_desc {A} (key : A -> Q) (l : list A) : list A :=
  fold_right (insert_desc key) [] l.

(** [not l] for a list. *)
Definition is_nil {A} (l : list A) : bool :=
  match l with [] => true | _ => false end.

Definition is_upper (c : ascii) : bool :=
  (65 <=? nat_of_ascii c)%nat && (nat_of_ascii c <=? 90)%nat.
Definition lower_char (c : ascii) : ascii :=
  if is_upper c then ascii_of_nat (nat_of_ascii c + 32) else c.
(** [str.lower()] on ASCII text. *)
Fixpoint lower (s : string) : string :=
  match s with
  | EmptyString => EmptyString
  | String c s' => String (lower_char c) (lower s')
  end.

End Py.
Import Py.

(* ===================================================================== *)
(** * src/markets/models.py *)
(* ===================================================================== *)

Inductive Platform := POLYMARKET | KALSHI.

Record Outcome := mkOutcome {
  name : string;
  yes_price : Q;
  no_price : Q;
  token_id : string;
  yes_ask : Q;
  no_ask : Q;
  yes_bid : Q;
  no_bid : Q;
  yes_depth : Q;
  no_depth : Q
}.

(** [Outcome(name=.., yes_price=.., no_price=.., token_id=..)]: the other
    fields take their dataclass default [0.0]. *)
Definition new_outcome (nm : string) (yp np : Q) (tok : string) : Outcome :=
  mkOutcome nm yp np tok 0 0 0 0 0 0.

Record Market := mkMarket {
  platform : Platform;
  id : string;
  title : string;
  event_title : string;
  outcomes : list Outcome;
  expiration : option Z;
  volume : Q;
  url : string;
  ticker : string
}.

Record MatchedMarket := mkMatched {
  kalshi_market : Market;
  polymarket_market : Market;
  similarity_score : Q;
  kalshi_outcome : option Outcome;
  polymarket_outcome : option Outcome
}.

Inductive Direction := KALSHI_YES_POLY_NO | POLY_YES_KALSHI_NO.

Definition Direction_eqb (a b : Direction) : bool :=
  match a, b with
  | KALSHI_YES_POLY_NO, KALSHI_YES_POLY_NO => true
  | POLY_YES_KALSHI_NO, POLY_YES_KALSHI_NO => true
  | _, _ => false
  end.

Record ArbitrageOpportunity := mkOpp {
  matched_market : MatchedMarket;
  direction : Direction;
  cost : Q;
  profit : Q;
  roi : Q;
  max_size : Q;
  timestamp : Q;
  kalshi_price : Q;
  polymarket_price : Q
}.

(* ===================================================================== *)
(** * config.py *)
(* ===================================================================== *)

Module Config.

Record Settings := mkSettings {
min_profit_cents : Q;
match_similarity_threshold : Q;
auto_execute : bool;
max_position_size_usd : Q;
max_daily_loss_usd : Q;
polymarket_fee_rate : Q;
kalshi_fee_rate : Q;
max_polymarket_markets : nat;
max_kalshi_markets : nat
}.

(** The defaults of [class Settings]. *)
Definition settings : Settings := {|
min_profit_cents := 2;
match_similarity_threshold := 80;
auto_execute := false;
max_position_size_usd := 100;
max_daily_loss_usd := 50;
polymarket_fee_rate := 2 # 100;
kalshi_fee_rate := 7 # 100;
max_polymarket_markets := 5000;
max_kalshi_markets := 15000
|}.

End Config.

(* ===================================================================== *)
(** * src/arbitrage/detector.py *)
(* ===================================================================== *)

Module Detector.

Definition fee_if_yes_wins (yes_p yes_fee_rate : Q) : Q :=
  py_max 0 (1 - yes_p) * yes_fee_rate.
Definition fee_if_no_wins (no_p no_fee_rate : Q) : Q :=
  py_max 0 (1 - no_p) * no_fee_rate.
Definition worst_fee (yes_p no_p yes_fee_rate no_fee_rate : Q) : Q :=
  py_max (fee_if_yes_wins yes_p yes_fee_rate) (fee_if_no_wins no_p no_fee_rate).

Definition _effective_cost (yes_p no_p yes_fee_rate no_fee_rate : Q) : Q :=
  yes_p + no_p + worst_fee yes_p no_p yes_fee_rate no_fee_rate.

(** The price paid for a leg: the ask when positive, else the mid. *)
Definition yes_leg_price (o : Outcome) : Q :=
  if Qltb 0 (yes_ask o) then yes_ask o else yes_price o.
Definition no_leg_price (o : Outcome) : Q :=
  if Qltb 0 (no_ask o) then no_ask o else no_price o.

(** A depth, or [float("inf")]. *)
Inductive Size := Fin (q : Q) | Inf.

Definition depth_or_inf (d : Q) : Size := if Qltb 0 d then Fin d else Inf.

Definition min_size (a b : Size) : Size :=
  match a, b with
  | Fin x, Fin y => Fin (py_min x y)
  | Fin x, Inf => Fin x
  | Inf, Fin y => Fin y
  | Inf, Inf => Inf
  end.

Definition raw_max_size (yes_outcome no_outcome : Outcome) : Q :=
  match min_size (depth_or_inf (yes_depth yes_outcome))
                 (depth_or_inf (no_depth no_outcome)) with
  | Inf => 0
  | Fin q => q
  end.

Definition _check_direction (now : Q) (mm : MatchedMarket) (d : Direction)
    (yes_outcome no_outcome : Outcome) (yes_fee_rate no_fee_rate min_profit : Q)
    : option ArbitrageOpportunity :=
  let yes_p := yes_leg_price yes_outcome in
  let no_p := no_leg_price no_outcome in
  if Qleb yes_p 0 || Qleb no_p 0 then None
  else
    let c := _effective_cost yes_p no_p yes_fee_rate no_fee_rate in
    let p := 1 - c in
    if Qltb p min_profit then None
    else
      let r := if Qltb 0 c then (p / c) * 100 else 0 in
      Some {| matched_market := mm;
              direction := d;
              cost := round_dp 4 c;
              profit := round_dp 4 p;
              roi := round_dp 2 r;
              max_size := round_dp 2 (raw_max_size yes_outcome no_outcome);
              timestamp := now;
              kalshi_price :=
                if Direction_eqb d KALSHI_YES_POLY_NO then yes_p else no_p;
              polymarket_price :=
                if Direction_eqb d KALSHI_YES_POLY_NO then no_p else yes_p |}.

(** The yes-side and no-side outcome and fee rate of a direction. *)
Definition yes_side (d : Direction) (ko po : Outcome) : Outcome :=
  match d with KALSHI_YES_POLY_NO => ko | POLY_YES_KALSHI_NO => po end.
Definition no_side (d : Direction) (ko po : Outcome) : Outcome :=
  match d with KALSHI_YES_POLY_NO => po | POLY_YES_KALSHI_NO => ko end.
Definition yes_fee (s : Config.Settings) (d : Direction) : Q :=
  match d with
  | KALSHI_YES_POLY_NO => Config.kalshi_fee_rate s
  | POLY_YES_KALSHI_NO => Config.polymarket_fee_rate s
  end.
Definition no_fee (s : Config.Settings) (d : Direction) : Q :=
  match d with
  | KALSHI_YES_POLY_NO => Config.polymarket_fee_rate s
  | POLY_YES_KALSHI_NO => Config.kalshi_fee_rate s
  end.

Definition check (s : Config.Settings) (now : Q) (min_profit : Q)
    (mm : MatchedMarket) (d : Direction) (ko po : Outcome)
    : option ArbitrageOpportunity :=
  _check_direction now mm d (yes_side d ko po) (no_side d ko po)
                   (yes_fee s d) (no_fee s d) min_profit.

Definition opt_to_list {A} (o : option A) : list A :=
  match o with Some x => [x] | None => [] end.

(** One iteration of the loop over [matched_markets]: what it appends. *)
Definition pair_opportunities (s : Config.Settings) (now : Q) (min_profit : Q)
    (mm : MatchedMarket) : list ArbitrageOpportunity :=
  match kalshi_outcome mm, polymarket_outcome mm with
  | Some ko, Some po =>
      opt_to_list (check s now min_profit mm KALSHI_YES_POLY_NO ko po)
      ++ opt_to_list (check s now min_profit mm POLY_YES_KALSHI_NO ko po)
  | _, _ => []
  end.

(** [min_profit_cents / 100.0], the argument defaulting to the setting. *)
Definition min_profit_of (s : Config.Settings) (min_profit_cents_arg : option Q) : Q :=
  match min_profit_cents_arg with
  | Some c => c
  | None => Config.min_profit_cents s
  end / 100.

Definition detect_opportunities (s : Config.Settings) (now : Q)
    (matched_markets : list MatchedMarket) (min_profit_cents_arg : option Q)
    : list ArbitrageOpportunity :=
  let min_profit := min_profit_of s min_profit_cents_arg in
  sort_desc roi (flat_map (pair_opportunities s now min_profit) matched_markets).

End Detector.

(* ===================================================================== *)
(** * src/arbitrage/executor.py *)
(* ===================================================================== *)

Module Executor.

(** The texts [_check_guardrails] returns, with the numbers their f-strings
    format kept as arguments. *)
Inductive GuardError :=
| AutoExecutionDisabled
| DailyLossLimitReached (daily_pnl : Q)
| ProfitBelowMinimum (profit_cents minimum_cents : Q)
| CooldownActive (elapsed cooldown : Q)
| NoExecutableSize.

(** The [error] field of a record: [""], a guardrail text, or [str(exc)]. *)
Inductive ErrorText :=
| NoError
| GuardText (g : GuardError)
| ExceptionText (msg : string).

Record ExecutionRecord := mkRecord {
  opportunity : ArbitrageOpportunity;
  executed_at : Q;
  success : bool;
  error : ErrorText;
  pnl : Q
}.

(** The four order methods, with the arguments they are called with. *)
Inductive LegOrder :=
| buy_kalshi_yes (opp : ArbitrageOpportunity) (size : Q)
| buy_kalshi_no (opp : ArbitrageOpportunity) (size : Q)
| buy_polymarket_yes (opp : ArbitrageOpportunity) (size : Q)
| buy_polymarket_no (opp : ArbitrageOpportunity) (size : Q).

(** The executor object.  [orders_placed] is not a field of the class: it
    records, oldest first, every order method that was invoked. *)
Record TradeExecutor := mkExecutor {
  enabled : bool;
  max_position_usd : Q;
  max_daily_loss_usd : Q;
  min_profit_cents : Q;
  cooldown_seconds : Q;
  _daily_pnl : Q;
  _daily_reset_date : option Z;
  _last_execution : option Q;
  _execution_log : list ExecutionRecord;
  orders_placed : list LegOrder
}.

(** [TradeExecutor()]. *)
Definition init (s : Config.Settings) : TradeExecutor := {|
  enabled := Config.auto_execute s;
  max_position_usd := Config.max_position_size_usd s;
  max_daily_loss_usd := Config.max_daily_loss_usd s;
  min_profit_cents := Config.min_profit_cents s;
  cooldown_seconds := 5;
  _daily_pnl := 0;
  _daily_reset_date := None;
  _last_execution := None;
  _execution_log := [];
  orders_placed := []
|}.

Definition set_daily (e : TradeExecutor) (p : Q) (d : option Z) : TradeExecutor :=
  mkExecutor (enabled e) (max_position_usd e) (max_daily_loss_usd e)
             (min_profit_cents e) (cooldown_seconds e)
             p d (_last_execution e) (_execution_log e) (orders_placed e).
Definition append_log (e : TradeExecutor) (r : ExecutionRecord) : TradeExecutor :=
  mkExecutor (enabled e) (max_position_usd e) (max_daily_loss_usd e)
             (min_profit_cents e) (cooldown_seconds e)
             (_daily_pnl e) (_daily_reset_date e) (_last_execution e)
             (_execution_log e ++ [r]) (orders_placed e).
Definition place (e : TradeExecutor) (o : LegOrder) : TradeExecutor :=
  mkExecutor (enabled e) (max_position_usd e) (max_daily_loss_usd e)
             (min_profit_cents e) (cooldown_seconds e)
             (_daily_pnl e) (_daily_reset_date e) (_last_execution e)
             (_execution_log e) (orders_placed e ++ [o]).
Definition book_success (e : TradeExecutor) (estimated_pnl now : Q) : TradeExecutor :=
  mkExecutor (enabled e) (max_position_usd e) (max_daily_loss_usd e)
             (min_profit_cents e) (cooldown_seconds e)
             (_daily_pnl e + estimated_pnl) (_daily_reset_date e) (Some now)
             (_execution_log e) (orders_placed e).

(** [now.strftime("%Y-%m-%d")]: the UTC day, as its number since the
    epoch; the empty string the field starts with is [None]. *)
Definition utc_date (now : Q) : Z := Qfloor (now / 86400).

Definition same_date (d : option Z) (today : Z) : bool :=
  match d with Some x => Z.eqb x today | None => false end.

Definition _reset_daily_if_needed (now : Q) (e : TradeExecutor) : TradeExecutor :=
  let today := utc_date now in
  if same_date (_daily_reset_date e) today then e
  else set_daily e 0 (Some today).

Definition position_size_of (e : TradeExecutor) (opp : ArbitrageOpportunity) : Q :=
  if Qltb 0 (max_size opp) then py_min (max_size opp) (max_position_usd e)
  else max_position_usd e.

Definition cooldown_check (now : Q) (e : TradeExecutor) : option GuardError :=
  match _last_execution e with
  | Some last =>
      let elapsed := now - last in
      if Qltb elapsed (cooldown_seconds e)
      then Some (CooldownActive elapsed (cooldown_seconds e))
      else None
  | None => None
  end.

Definition _check_guardrails (now : Q) (e : TradeExecutor)
    (opp : ArbitrageOpportunity) : TradeExecutor * option GuardError :=
  if negb (enabled e) then (e, Some AutoExecutionDisabled)
  else
    let e1 := _reset_daily_if_needed now e in
    if Qltb (_daily_pnl e1) (- max_daily_loss_usd e1)
    then (e1, Some (DailyLossLimitReached (_daily_pnl e1)))
    else if Qltb (profit opp * 100) (min_profit_cents e1)
    then (e1, Some (ProfitBelowMinimum (profit opp * 100) (min_profit_cents e1)))
    else match cooldown_check now e1 with
         | Some g => (e1, Some g)
         | None =>
             if Qleb (position_size_of e1 opp) 0
             then (e1, Some NoExecutableSize)
             else (e1, None)
         end.

Section Venues.

(** What an order method does once it is called: [None] when it returns,
    [Some msg] when it raises an exception whose text is [msg].  The
    methods of the source are stubs that log and return, which is
    [fun _ => None]. *)
Variable venue : LegOrder -> option string.

Definition legs_of (opp : ArbitrageOpportunity) (size : Q) : list LegOrder :=
  match direction opp with
  | KALSHI_YES_POLY_NO => [buy_kalshi_yes opp size; buy_polymarket_no opp size]
  | POLY_YES_KALSHI_NO => [buy_polymarket_yes opp size; buy_kalshi_no opp size]
  end.

(** [asyncio.gather(..., return_exceptions=True)]: both legs are invoked;
    [errors] keeps the exceptions in the order of the legs. *)
Definition gather (e : TradeExecutor) (legs : list LegOrder)
    : TradeExecutor * list string :=
  (fold_left place legs e,
   flat_map (fun l => match venue l with Some m => [m] | None => [] end) legs).

Definition execute (now : Q) (e : TradeExecutor) (opp : ArbitrageOpportunity)
    : TradeExecutor * ExecutionRecord :=
  match _check_guardrails now e opp with
  | (e1, Some g) =>
      let record := mkRecord opp now false (GuardText g) 0 in
      (append_log e1 record, record)
  | (e1, None) =>
      let position_size := position_size_of e1 opp in
      let '(e2, errors) := gather e1 (legs_of opp position_size) in
      match errors with
      | exc :: _ =>
          let record := mkRecord opp now false (ExceptionText exc) 0 in
          (append_log e2 record, record)
      | [] =>
          let estimated_pnl := profit opp * position_size in
          let e3 := book_success e2 estimated_pnl now in
          let record := mkRecord opp now true NoError estimated_pnl in
          (append_log e3 record, record)
      end
  end.

End Venues.

End Executor.

(* ===================================================================== *)
(** * What the venues send *)
(* ===================================================================== *)

Module Wire.

(** A JSON value handed to [float(...)]: missing or falsy ([None], [0],
    [""]), a number or numeric string, or a value [float] rejects. *)
Inductive RawNum := Absent | Num (q : Q) | NotANumber.

(** Exceptions that matter to the callers. *)
Inductive Exn :=
| RequestError                (* the transport failed *)
| HTTPStatusError (code : Z)  (* [raise_for_status] *)
| ValueError.                 (* [float] on a value it rejects *)

Inductive Result (A : Type) := Ok (a : A) | Raise (e : Exn).
Arguments Ok {A} a.
Arguments Raise {A} e.

Definition bind {A B} (r : Result A) (k : A -> Result B) : Result B :=
  match r with Ok a => k a | Raise e => Raise e end.

(** [float(v or 0)]. *)
Definition float_or_0 (v : RawNum) : Result Q :=
  match v with
  | Absent => Ok 0
  | Num q => Ok q
  | NotANumber => Raise ValueError
  end.

(** [float(d.get(key, dflt))] for a key that is missing, numeric or not. *)
Definition float_get (v : RawNum) (dflt : Q) : Result Q :=
  match v with
  | Absent => Ok dflt
  | Num q => Ok q
  | NotANumber => Raise ValueError
  end.

(** [float(v)]. *)
Definition float_of (v : RawNum) : Result Q :=
  match v with
  | Num q => Ok q
  | _ => Raise ValueError
  end.

(** Truth value of an optional string: [None] and [""] are false. *)
Definition truthy (o : option string) : bool :=
  match o with
  | Some s => negb (String.eqb s EmptyString)
  | None => false
  end.
Definition text (o : option string) : string :=
  match o with Some s => s | None => EmptyString end.

(** An HTTP response: its status and its decoded body ([None] when
    [resp.json()] raises). *)
Record Response (B : Type) := mkResponse {
  status_code : Z;
  json : option B
}.
Arguments mkResponse {B} _ _.
Arguments status_code {B} _.
Arguments json {B} _.

(** httpx: [is_success] is a 2xx status; [raise_for_status] raises
    [HTTPStatusError] on every other status. *)
Definition is_success {B} (r : Response B) : bool :=
  (200 <=? status_code r)%Z && (status_code r <=? 299)%Z.
Definition raise_for_status {B} (r : Response B) : Result (Response B) :=
  if is_success r then Ok r else Raise (HTTPStatusError (status_code r)).

End Wire.
Import Wire.

(* ===================================================================== *)
(** * src/markets/kalshi.py *)
(* ===================================================================== *)

Module Kalshi.

Definition SERIES_TICKERS : list string := [
  "KXBTC"; "KXBTCD"; "KXETH"; "KXETHD"; "KXXRP"; "KXXRPD";
  "KXDOGE"; "KXDOGED"; "KXSOLD"; "KXSOLE";
  "KXINX";
  "KXNBA"; "KXNBASPREAD"; "KXNBATOTAL"; "KXNBAPTS";
  "KXNBAREB"; "KXNBAAST"; "KXNBAWINS";
  "KXMVENBASINGLEGAME";
  "KXNCAAMBGAME"; "KXNCAAMBTOTAL"; "KXNCAAMBSPREAD";
  "KXNCAAMB1HSPREAD"; "KXNCAAMB1HTOTAL"; "KXNCAAMB1HWINNER";
  "KXNCAAWBGAME";
  "KXNEXTTEAMNFL"; "KXNCAAF"; "KXNFLDRAFTPICK";
  "KXNHL"; "KXNHLTOTAL"; "KXMLB"; "KXPGATOUR"; "KXPGATOP5";
  "KXPGATOP10"; "KXPGATOP20"; "KXPGAMAKECUT";
  "KXWCGAME"; "KXWCROUND"; "KXMARMADROUND"; "KXMAKEMARMAD";
  "KXDPWORLDTOUR"; "KXDPWORLDTOURR1LEAD";
  "KXFEDDECISION"; "KXFED"; "KXCPI"; "KXGDP"; "KXGDPNOM";
  "KXPAYROLLS"; "KXECONSTATCPIYOY"; "KXECONSTATCORECPIYOY";
  "KXECONSTATU3";
  "KXHIGHNY"; "KXHIGHCHI"; "KXHIGHMIA";
  "KXHOUSERACE"; "KXTXPRIMARY";
  "KXALBUMSALES"; "KXALBUMRELEASE"; "KX10SONG"
]%string.

(** ** [_get_with_retry] *)

(** The run of one call: the waits slept (seconds, oldest first), the
    number of GETs issued, and how the call ended. *)
Record Run (B : Type) := mkRun {
  waits : list Q;
  gets : nat;
  outcome : Result (Response B)
}.
Arguments mkRun {B} _ _ _.
Arguments waits {B} _.
Arguments gets {B} _.
Arguments outcome {B} _.

Section Retry.
Context {B : Type}.

(** What the server answers to the [n]-th GET of the call (from 0):
    a response, or an exception raised by [client.get]. *)
Variable server : nat -> Result (Response B).

(** The [for attempt in range(5)] loop from [attempt] on, with [left]
    iterations to go; [last] is the response of the previous iteration,
    which the two statements after the loop use. *)
Fixpoint retry_loop (left attempt : nat) (slept : list Q)
    (last : option (Response B)) : Run B :=
  match left with
  | O =>
      match last with
      | Some resp => mkRun slept attempt (raise_for_status resp)
      | None => mkRun slept attempt (Raise RequestError) (* no iteration ran *)
      end
  | S left' =>
      match server attempt with
      | Raise e => mkRun slept (S attempt) (Raise e)
      | Ok resp =>
          if (status_code resp =? 429)%Z then
            let wait := (3 # 2) * inject_Z (Z.of_nat (attempt + 1)) in
            retry_loop left' (S attempt) (slept ++ [wait]) (Some resp)
          else mkRun slept (S attempt) (raise_for_status resp)
      end
  end.

Definition _get_with_retry : Run B := retry_loop 5 0 [] None.

End Retry.

(** ** [_parse_market] *)

(** The keys [_parse_market] reads from a market object. *)
Record RawMarket := mkRawMarket {
  r_ticker : option string;
  r_title : option string;
  r_subtitle : option string;
  r_yes_price : RawNum;
  r_no_price : RawNum;
  r_last_price : RawNum;
  r_expiration_time : option string;
  r_close_time : option string;
  r_volume : RawNum;
  r_event_ticker : option string;
  r_series_ticker : option string
}.

(** [s.split("-")[0]]. *)
Fixpoint before_dash (s : string) : string :=
  match s with
  | EmptyString => EmptyString
  | String c s' => if Ascii.eqb c "-" then EmptyString
                   else String c (before_dash s')
  end.

Definition first_truthy (a b : option string) : option string :=
  if truthy a then a else b.

Definition market_url (ticker_s : string) (mkt : RawMarket) : string :=
  let event_ticker_raw := text (r_event_ticker mkt) in
  let series0 := text (r_series_ticker mkt) in
  let series1 :=
    if negb (truthy (Some series0)) && truthy (Some event_ticker_raw)
    then before_dash event_ticker_raw else series0 in
  let series2 :=
    if negb (truthy (Some series1)) then before_dash ticker_s else series1 in
  let event_slug :=
    if truthy (Some event_ticker_raw) then lower event_ticker_raw
    else lower ticker_s in
  ("https://kalshi.com/markets/" ++ lower series2 ++ "/" ++ event_slug)%string.

Section Parse.

(** [datetime.fromisoformat(text.replace("Z", "+00:00"))]: [None] when it
    raises. *)
Variable fromisoformat : string -> option Z.

(** The mid prices after the [last_price] fallback and the cents rule. *)
Definition parse_prices (mkt : RawMarket) : Result (Q * Q) :=
  bind (float_or_0 (r_yes_price mkt)) (fun yes0 =>
  bind (float_or_0 (r_no_price mkt)) (fun no0 =>
  bind (if Qeq_bool yes0 0 && Qeq_bool no0 0
        then bind (float_or_0 (r_last_price mkt)) (fun last_price =>
               if Qltb 0 last_price then
                 let y := if Qltb 1 last_price then last_price / 100
                          else last_price in
                 Ok (y, round_dp 4 (1 - y))
               else Ok (yes0, no0))
        else Ok (yes0, no0)) (fun '(yes1, no1) =>
  let yes2 := if Qltb 1 yes1 then yes1 / 100 else yes1 in
  let no2 := if Qltb 1 no1 then no1 / 100 else no1 in
  Ok (yes2, no2)))).

(** [Ok None] is the [return None] of the source. *)
Definition _parse_market (mkt : RawMarket) (event_title_arg : string)
    : Result (option Market) :=
  if negb (truthy (r_ticker mkt)) || negb (truthy (r_title mkt)) then Ok None
  else
    let ticker_s := text (r_ticker mkt) in
    let title_s := text (r_title mkt) in
    bind (parse_prices mkt) (fun '(yes_p, no_p) =>
    let o := new_outcome title_s yes_p no_p ticker_s in
    let exp_str := first_truthy (r_expiration_time mkt) (r_close_time mkt) in
    let exp := if truthy exp_str then fromisoformat (text exp_str) else None in
    bind (float_or_0 (r_volume mkt)) (fun vol =>
    let event_ticker_raw := text (r_event_ticker mkt) in
    let ev := if truthy (Some event_title_arg) then event_title_arg
              else if truthy (r_subtitle mkt) then text (r_subtitle mkt)
              else event_ticker_raw in
    Ok (Some {| platform := KALSHI;
                id := ticker_s;
                title := title_s;
                event_title := ev;
                outcomes := [o];
                expiration := exp;
                volume := vol;
                url := market_url ticker_s mkt;
                ticker := ticker_s |}))).


(** ** [_fetch_series] and [_fetch_events] *)

Record MarketsPage := mkMarketsPage {
  pg_markets : list RawMarket;        (* [data.get("markets", [])] *)
  pg_cursor : option string           (* [data.get("cursor")] *)
}.

Record RawEvent := mkRawEvent {
  ev_title : option string;
  ev_markets : list RawMarket         (* [event.get("markets", [])] *)
}.

Record EventsPage := mkEventsPage {
  pg_events : list RawEvent;
  pg_events_cursor : option string
}.

(** The body of the [try]: the answer of [_get_with_retry] and its
    [json()]; [None] when either raises. *)
Definition data_of {B} (a : Result (Response B)) : option B :=
  match a with Ok resp => json resp | Raise _ => None end.

(** The [for mkt in ...] loop that appends every parsed market. *)
Fixpoint parse_all (mkts : list RawMarket) (event_title_arg : string)
    (markets : list Market) : Result (list Market) :=
  match mkts with
  | [] => Ok markets
  | mkt :: rest =>
      bind (_parse_market mkt event_title_arg) (fun market =>
      parse_all rest event_title_arg
                (match market with Some m => markets ++ [m] | None => markets end))
  end.

(** The [while] loop of [_fetch_series].  [answers] are the outcomes of
    the successive [_get_with_retry] calls; past the end of the list every
    request fails. *)
Fixpoint fetch_series_loop (answers : list (Result (Response MarketsPage)))
    (series_ticker : string) (max_per_series : nat) (markets : list Market)
    : Result (list Market) :=
  if (length markets <? max_per_series)%nat then
    match answers with
    | [] => Ok markets
    | a :: rest =>
        match data_of a with
        | None => Ok markets
        | Some data =>
            bind (parse_all (pg_markets data) series_ticker markets)
              (fun markets' =>
               if negb (truthy (pg_cursor data)) || is_nil (pg_markets data)
               then Ok markets'
               else fetch_series_loop rest series_ticker max_per_series markets')
        end
    end
  else Ok markets.

Definition _fetch_series (answers : list (Result (Response MarketsPage)))
    (series_ticker : string) : Result (list Market) :=
  fetch_series_loop answers series_ticker 500 [].

(** [for event in data.get("events", [])] with its [break]. *)
Fixpoint append_events (evs events : list RawEvent) (max_events : nat)
    : list RawEvent :=
  match evs with
  | [] => events
  | ev :: rest =>
      let events' := events ++ [ev] in
      if (max_events <=? length events')%nat then events'
      else append_events rest events' max_events
  end.

Fixpoint fetch_events_loop (answers : list (Result (Response EventsPage)))
    (max_events pages_fetched : nat) (events : list RawEvent) : list RawEvent :=
  if (length events <? max_events)%nat && (pages_fetched <? 30)%nat then
    match answers with
    | [] => events
    | a :: rest =>
        match data_of a with
        | None => events
        | Some data =>
            let events' := append_events (pg_events data) events max_events in
            if negb (truthy (pg_events_cursor data)) || is_nil (pg_events data)
            then events'
            else fetch_events_loop rest max_events (S pages_fetched) events'
        end
    end
  else events.

Definition _fetch_events (answers : list (Result (Response EventsPage)))
    (max_events : nat) : list RawEvent :=
  fetch_events_loop answers max_events 0 [].

(** ** [fetch_active_markets] *)

(** What the venue answers during one call: per series ticker, and for the
    events sweep. *)
Record Venue := mkVenue {
  series_answers : string -> list (Result (Response MarketsPage));
  events_answers : list (Result (Response EventsPage))
}.

(** The series sweep.  The batches of eight only pace the requests; a
    series whose fetch raised is skipped. *)
Definition all_series_markets (v : Venue) : list Market :=
  flat_map (fun st => match _fetch_series (series_answers v st) st with
                      | Ok ms => ms
                      | Raise _ => []
                      end) SERIES_TICKERS.

Definition Merge : Type := gset string * list Market.

Definition add_unseen (st : Merge) (m : Market) : Merge :=
  if decide (id m ∈ st.1) then st else ({[ id m ]} ∪ st.1, st.2 ++ [m]).

(** The inner [for mkt in event.get("markets", [])]. *)
Fixpoint merge_event_markets (mkts : list RawMarket) (event_title_arg : string)
    (max_markets : nat) (st : Merge) : Result Merge :=
  match mkts with
  | [] => Ok st
  | mkt :: rest =>
      bind (_parse_market mkt event_title_arg) (fun market =>
      let st' := match market with Some m => add_unseen st m | None => st end in
      if (max_markets <=? length st'.2)%nat then Ok st'
      else merge_event_markets rest event_title_arg max_markets st')
  end.

Fixpoint merge_events (events : list RawEvent) (max_markets : nat) (st : Merge)
    : Result Merge :=
  match events with
  | [] => Ok st
  | ev :: rest =>
      bind (merge_event_markets (ev_markets ev) (text (ev_title ev))
                                max_markets st) (fun st' =>
      if (max_markets <=? length st'.2)%nat then Ok st'
      else merge_events rest max_markets st')
  end.

Definition fetch_active_markets (s : Config.Settings) (v : Venue)
    (max_markets_arg : option nat) : Result (list Market) :=
  let max_markets := match max_markets_arg with
                     | Some n => n
                     | None => Config.max_kalshi_markets s
                     end in
  let events := _fetch_events (events_answers v) 500 in
  let st0 := fold_left add_unseen (all_series_markets v) (∅, []) in
  bind (merge_events events max_markets st0) (fun st => Ok st.2).

End Parse.

End Kalshi.

(* ===================================================================== *)
(** * src/markets/polymarket.py *)
(* ===================================================================== *)

Module Polymarket.

(** The keys read from a Gamma market object.  The three arrays are given
    decoded: the empty list when the key is missing or its string is not
    valid JSON. *)
Record RawMarket := mkRawMarket {
  r_id : option string;
  r_question : option string;
  r_title : option string;
  r_outcomes : list string;
  r_outcomePrices : list RawNum;
  r_clobTokenIds : list string;
  r_volume : RawNum;
  r_conditionId : option string;
  r_end_dates : list (option string)   (* end_date_iso, endDate, endDateIso, close_time *)
}.

Record RawEvent := mkRawEvent {
  ev_title : option string;
  ev_slug : option string;
  ev_markets : list RawMarket
}.

(** The body of [for i, name in enumerate(outcome_names)]. *)
Definition parse_outcome (mkt : RawMarket) (i : nat) (nm : string) : Result Outcome :=
  bind (match nth_error (r_outcomePrices mkt) i with
        | Some v => float_of v
        | None => Ok 0
        end) (fun price =>
  let tok := match nth_error (r_clobTokenIds mkt) i with
             | Some t => t
             | None => EmptyString
             end in
  Ok (new_outcome nm price
                  (if Qeq_bool price 0 then 0 else round_dp 4 (1 - price))
                  tok)).

Fixpoint parse_outcomes_from (mkt : RawMarket) (i : nat) (names : list string)
    (acc : list Outcome) : Result (list Outcome) :=
  match names with
  | [] => Ok acc
  | nm :: rest =>
      bind (parse_outcome mkt i nm) (fun o =>
      parse_outcomes_from mkt (S i) rest (acc ++ [o]))
  end.

Definition _parse_outcomes (mkt : RawMarket) : Result (list Outcome) :=
  parse_outcomes_from mkt 0 (r_outcomes mkt) [].

Section Client.

Variable fromisoformat : string -> option Z.

Fixpoint first_date (fields : list (option string)) : option Z :=
  match fields with
  | [] => None
  | f :: rest =>
      if truthy f then
        match fromisoformat (text f) with
        | Some t => Some t
        | None => first_date rest
        end
      else first_date rest
  end.

Definition _parse_expiration (mkt : RawMarket) : option Z :=
  first_date (r_end_dates mkt).

Definition market_of (ev : RawEvent) (mkt : RawMarket) : Result Market :=
  bind (_parse_outcomes mkt) (fun outs =>
  bind (float_or_0 (r_volume mkt)) (fun vol =>
  Ok {| platform := POLYMARKET;
        id := text (r_id mkt);
        title := match r_question mkt with
                 | Some q => q
                 | None => text (r_title mkt)
                 end;
        event_title := text (ev_title ev);
        outcomes := outs;
        expiration := _parse_expiration mkt;
        volume := vol;
        url := ("https://polymarket.com/event/" ++ text (ev_slug ev))%string;
        ticker := text (r_conditionId mkt) |})).

(** The inner [for mkt in event.get("markets", [])]. *)
Fixpoint append_markets (ev : RawEvent) (mkts : list RawMarket)
    (max_markets : nat) (markets : list Market) : Result (list Market) :=
  match mkts with
  | [] => Ok markets
  | mkt :: rest =>
      bind (market_of ev mkt) (fun m =>
      let markets' := markets ++ [m] in
      if (max_markets <=? length markets')%nat then Ok markets'
      else append_markets ev rest max_markets markets')
  end.

Fixpoint append_events (events : list RawEvent) (max_markets : nat)
    (markets : list Market) : Result (list Market) :=
  match events with
  | [] => Ok markets
  | ev :: rest =>
      bind (append_markets ev (ev_markets ev) max_markets markets)
        (fun markets' =>
         if (max_markets <=? length markets')%nat then Ok markets'
         else append_events rest max_markets markets')
  end.

(** The body of the [try]: [client.get], [raise_for_status], [json()]. *)
Definition events_of (a : Result (Response (list RawEvent)))
    : option (list RawEvent) :=
  match a with
  | Ok resp => if is_success resp then json resp else None
  | Raise _ => None
  end.

Definition limit : nat := 100.

(** The [while] loop.  [answers] are the venue's answers to the successive
    page requests; past the end of the list every request fails. *)
Fixpoint fetch_loop (answers : list (Result (Response (list RawEvent))))
    (max_markets : nat) (markets : list Market) : Result (list Market) :=
  if (length markets <? max_markets)%nat then
    match answers with
    | [] => Ok markets
    | a :: rest =>
        match events_of a with
        | None => Ok markets
        | Some [] => Ok markets
        | Some events =>
            bind (append_events events max_markets markets) (fun markets' =>
            if (length events <? limit)%nat then Ok markets'
            else fetch_loop rest max_markets markets')
        end
    end
  else Ok markets.

Definition fetch_active_markets (s : Config.Settings)
    (answers : list (Result (Response (list RawEvent))))
    (max_markets_arg : option nat) : Result (list Market) :=
  let max_markets := match max_markets_arg with
                     | Some n => n
                     | None => Config.max_polymarket_markets s
                     end in
  fetch_loop answers max_markets [].

End Client.

(** ** Order books *)

Record Level := mkLevel { lv_price : RawNum; lv_size : RawNum }.

(** What [fetch_orderbook] returns; both lists are empty when the request
    failed or answered 404. *)
Record Book := mkBook { bids : list Level; asks : list Level }.

Definition empty_book : Book := mkBook [] [].

(** [min(levels, key=...)] and [max(levels, key=...)]: every key is
    computed, and the first level with the best key is returned. *)
Fixpoint best_from (better : Q -> Q -> bool) (dflt : Q) (best : Level)
    (best_key : Q) (rest : list Level) : Result Level :=
  match rest with
  | [] => Ok best
  | l :: rest' =>
      bind (float_get (lv_price l) dflt) (fun k =>
      if better k best_key then best_from better dflt l k rest'
      else best_from better dflt best best_key rest')
  end.

Definition best_level (better : Q -> Q -> bool) (dflt : Q) (first : Level)
    (rest : list Level) : Result Level :=
  bind (float_get (lv_price first) dflt) (fun k =>
  best_from better dflt first k rest).

Definition set_ask_side (o : Outcome) (ask : Q) : Outcome :=
  mkOutcome (name o) (yes_price o) (no_price o) (token_id o)
            ask (no_ask o) (yes_bid o) (no_bid o) (yes_depth o) (no_depth o).
Definition set_yes_depth (o : Outcome) (d : Q) : Outcome :=
  mkOutcome (name o) (yes_price o) (no_price o) (token_id o)
            (yes_ask o) (no_ask o) (yes_bid o) (no_bid o) d (no_depth o).
Definition set_yes_bid (o : Outcome) (b : Q) : Outcome :=
  mkOutcome (name o) (yes_price o) (no_price o) (token_id o)
            (yes_ask o) (no_ask o) b (no_bid o) (yes_depth o) (no_depth o).
(** The three assignments that close the loop body. *)
Definition derive_no_side (o : Outcome) : Outcome :=
  mkOutcome (name o) (yes_price o) (no_price o) (token_id o)
            (yes_ask o)
            (if Qeq_bool (yes_bid o) 0 then 0 else round_dp 4 (1 - yes_bid o))
            (yes_bid o)
            (if Qeq_bool (yes_ask o) 0 then 0 else round_dp 4 (1 - yes_ask o))
            (yes_depth o)
            (yes_depth o).

(** An update of the outcome object that may raise part-way: the object as
    it is left, and whether the update completed. *)
Definition Update : Type := Outcome * option Exn.

Definition and_then (u : Update) (k : Outcome -> Update) : Update :=
  match u with
  | (o, None) => k o
  | (o, Some e) => (o, Some e)
  end.

Definition assign (o : Outcome) (v : Result Q) (set : Outcome -> Q -> Outcome)
    : Update :=
  match v with
  | Ok q => (set o q, None)
  | Raise e => (o, Some e)
  end.

Definition apply_asks (book : Book) (o : Outcome) : Update :=
  match asks book with
  | [] => (o, None)
  | a :: rest =>
      match best_level Qltb 999 a rest with
      | Raise e => (o, Some e)
      | Ok best_ask =>
          and_then (assign o (float_get (lv_price best_ask) 0) set_ask_side)
            (fun o1 => assign o1 (float_get (lv_size best_ask) 0) set_yes_depth)
      end
  end.

Definition apply_bids (book : Book) (o : Outcome) : Update :=
  match bids book with
  | [] => (o, None)
  | b :: rest =>
      match best_level (fun k best => Qltb best k) 0 b rest with
      | Raise e => (o, Some e)
      | Ok best_bid => assign o (float_get (lv_price best_bid) 0) set_yes_bid
      end
  end.

(** The loop body for an outcome that has a token id. *)
Definition enrich_outcome (book : Book) (o : Outcome) : Update :=
  and_then (apply_asks book o) (fun o1 =>
  and_then (apply_bids book o1) (fun o2 =>
  (derive_no_side o2, None))).

(** The loop over [market.outcomes].  [books] are the results of the
    successive [fetch_orderbook] calls; past the end of the list the
    fetch fails, which is the empty book. *)
Fixpoint enrich_outcomes (books : list Book) (outs : list Outcome)
    : list Outcome * option Exn :=
  match outs with
  | [] => ([], None)
  | o :: rest =>
      if negb (truthy (Some (token_id o))) then
        let '(rest', r) := enrich_outcomes books rest in (o :: rest', r)
      else
        let book := match books with b :: _ => b | [] => empty_book end in
        match enrich_outcome book o with
        | (o', Some e) => (o' :: rest, Some e)
        | (o', None) =>
            let '(rest', r) := enrich_outcomes (tl books) rest in (o' :: rest', r)
        end
  end.

Definition with_outcomes (m : Market) (outs : list Outcome) : Market :=
  mkMarket (platform m) (id m) (title m) (event_title m) outs
           (expiration m) (volume m) (url m) (ticker m).

(** The market object after the call, and the exception when it raised
    instead of returning. *)
Definition enrich_outcomes_with_orderbook (books : list Book) (m : Market)
    : Market * option Exn :=
  let '(outs, r) := enrich_outcomes books (outcomes m) in
  (with_outcomes m outs, r).

End Polymarket.

(* ===================================================================== *)
(** * src/matching/matcher.py *)
(* ===================================================================== *)

Module Matcher.

(** ** [_normalize], on ASCII text *)

(** The model follows [str.lower], [\w], [\s] and [str.strip] on ASCII
    characters only; Python also lowers and keeps letters beyond ASCII,
    which are blanked here.  What is stated of normalized titles is
    therefore stated of titles that are ASCII text. *)

(** [\s] and [str.strip]: the ASCII characters for which [str.isspace]
    holds. *)
Definition is_space (c : ascii) : bool :=
  let n := nat_of_ascii c in
  ((9 <=? n) && (n <=? 13) || (28 <=? n) && (n <=? 32))%nat.

(** [\w]: letters, digits and the underscore. *)
Definition is_word (c : ascii) : bool :=
  let n := nat_of_ascii c in
  ((48 <=? n) && (n <=? 57) || (65 <=? n) && (n <=? 90)
   || (97 <=? n) && (n <=? 122) || (n =? 95))%nat.

Fixpoint lstrip (s : string) : string :=
  match s with
  | String c s' => if is_space c then lstrip s' else s
  | EmptyString => EmptyString
  end.

Fixpoint rstrip (s : string) : string :=
  match s with
  | EmptyString => EmptyString
  | String c s' =>
      match rstrip s' with
      | EmptyString => if is_space c then EmptyString else String c EmptyString
      | r => String c r
      end
  end.

Definition strip (s : string) : string := rstrip (lstrip s).

(** [re.sub(r"[^\w\s]", " ", text)]. *)
Fixpoint blank_punctuation (s : string) : string :=
  match s with
  | EmptyString => EmptyString
  | String c s' =>
      String (if is_word c || is_space c then c else " "%char)
             (blank_punctuation s')
  end.

(** [re.sub(r"\s+", " ", text)]; [in_run] says that the previous character
    was white space. *)
Fixpoint collapse (in_run : bool) (s : string) : string :=
  match s with
  | EmptyString => EmptyString
  | String c s' =>
      if is_space c then
        if in_run then collapse true s' else String " "%char (collapse true s')
      else String c (collapse false s')
  end.

Definition _normalize (t : string) : string :=
  strip (collapse false (blank_punctuation (strip (lower t)))).

(** ** Dicts that are iterated: association lists in insertion order *)

Section AList.
Context {K V : Type} `{EqDecision K}.

Fixpoint alist_get (k : K) (l : list (K * V)) : option V :=
  match l with
  | [] => None
  | (k', v) :: r => if decide (k = k') then Some v else alist_get k r
  end.

(** [d[k] = v]: a present key keeps its place, a new key goes last. *)
Fixpoint alist_set (k : K) (v : V) (l : list (K * V)) : list (K * V) :=
  match l with
  | [] => [(k, v)]
  | (k', v') :: r =>
      if decide (k = k') then (k, v) :: r else (k', v') :: alist_set k v r
  end.
End AList.

Definition Scored : Type := Q * MatchedMarket.

(** [if key not in d or score > d[key][0]: d[key] = (score, m)]. *)
Definition keep_best {K} `{EqDecision K} (k : K) (score : Q) (m : MatchedMarket)
    (d : list (K * Scored)) : list (K * Scored) :=
  match alist_get k d with
  | Some (s0, _) => if Qltb s0 score then alist_set k (score, m) d else d
  | None => alist_set k (score, m) d
  end.

Definition improves {K} `{EqDecision K} (k : K) (score : Q)
    (d : list (K * Scored)) : bool :=
  match alist_get k d with
  | Some (s0, _) => Qltb s0 score
  | None => true
  end.

(** ** The matcher object *)

Record MarketMatcher := mkMatcher {
  threshold : Q;
  _cache : gmap string MatchedMarket;
  _excluded : gset string;
  _manual_overrides : gmap string string
}.

Definition with_cache (mt : MarketMatcher) (c : gmap string MatchedMarket)
    : MarketMatcher :=
  mkMatcher (threshold mt) c (_excluded mt) (_manual_overrides mt).

Definition clear_cache (mt : MarketMatcher) : MarketMatcher := with_cache mt ∅.

Definition _build_match (km pm : Market) (score : Q) : MatchedMarket :=
  {| kalshi_market := km;
     polymarket_market := pm;
     similarity_score := score;
     kalshi_outcome := head (outcomes km);
     polymarket_outcome := head (outcomes pm) |}.

(** [{pm.id: pm for pm in polymarket_markets}]: a later market replaces an
    earlier one with the same id. *)
Definition poly_by_id (polymarket_markets : list Market) : gmap string Market :=
  fold_left (fun d pm => <[ id pm := pm ]> d) polymarket_markets ∅.

(** State of the override loop. *)
Record Overrides := mkOverrides {
  override_matches : list MatchedMarket;
  ov_cache : gmap string MatchedMarket;
  overridden_kalshi : gset string;
  overridden_poly : gset string
}.

Definition override_step (overrides : gmap string string)
    (by_id : gmap string Market) (st : Overrides) (km : Market) : Overrides :=
  match overrides !! id km with
  | Some target_id =>
      match by_id !! target_id with
      | Some pm =>
          let m := _build_match km pm 100 in
          {| override_matches := override_matches st ++ [m];
             ov_cache := <[ id km := m ]> (ov_cache st);
             overridden_kalshi := {[ id km ]} ∪ overridden_kalshi st;
             overridden_poly := {[ id pm ]} ∪ overridden_poly st |}
      | None => st
      end
  | None => st
  end.

(** State of the fuzzy loop.  [extracted] is not a variable of the source:
    it lists, oldest first, the ids of the Kalshi markets for which
    [process.extractOne] was called. *)
Record Fuzzy := mkFuzzy {
  best_matches : list ((string * string) * Scored);
  fz_cache : gmap string MatchedMarket;
  extracted : list string
}.

Section Scorer.

(** rapidfuzz's [fuzz.token_sort_ratio]. *)
Variable token_sort_ratio : string -> string -> Q.

(** rapidfuzz's [process.extractOne(query, choices, scorer=...,
    score_cutoff=...)]: the first choice whose score is the highest,
    with its score and index, when that score reaches the cutoff. *)
Fixpoint extract_from (query : string) (choices : list string) (idx : nat)
    (score_cutoff : Q) (result : option (string * Q * nat))
    : option (string * Q * nat) :=
  match choices with
  | [] => result
  | choice :: rest =>
      let score := token_sort_ratio query choice in
      let better := match result with
                    | Some (_, s0, _) => Qltb s0 score
                    | None => true
                    end in
      extract_from query rest (S idx) score_cutoff
        (if Qleb score_cutoff score && better
         then Some (choice, score, idx) else result)
  end.

Definition extractOne (query : string) (choices : list string)
    (score_cutoff : Q) : option (string * Q * nat) :=
  extract_from query choices 0 score_cutoff None.

Definition fuzzy_step (mt : MarketMatcher) (ovk : gset string)
    (poly_list : list Market) (poly_titles : list string)
    (st : Fuzzy) (km : Market) : Fuzzy :=
  if decide (id km ∈ ovk) then st
  else if decide (id km ∈ _excluded mt) then st
  else
    match fz_cache st !! id km with
    | Some cached =>
        let pair_key := (id km, id (polymarket_market cached)) in
        mkFuzzy (keep_best pair_key (similarity_score cached) cached
                           (best_matches st))
                (fz_cache st) (extracted st)
    | None =>
        let st1 := mkFuzzy (best_matches st) (fz_cache st)
                           (extracted st ++ [id km]) in
        match extractOne (_normalize (title km)) poly_titles (threshold mt) with
        | None => st1
        | Some (_, score, idx) =>
            match nth_error poly_list idx with
            | None => st1 (* not reached: [idx] indexes [poly_titles] *)
            | Some pm =>
                let pair_key := (id km, id pm) in
                if improves pair_key score (best_matches st1) then
                  let m := _build_match km pm score in
                  mkFuzzy (alist_set pair_key (score, m) (best_matches st1))
                          (<[ id km := m ]> (fz_cache st1))
                          (extracted st1)
                else st1
            end
        end
    end.

(** Each Kalshi market keeps its best Polymarket match. *)
Definition kalshi_best (best : list ((string * string) * Scored))
    : list (string * Scored) :=
  fold_left (fun d '((kid, _), (score, m)) => keep_best kid score m d) best [].

(** Each Polymarket market keeps its best Kalshi match. *)
Definition poly_best (kb : list (string * Scored)) : list (string * Scored) :=
  fold_left (fun d '(_, (score, m)) =>
               keep_best (id (polymarket_market m)) score m d) kb [].

Record MatchRun := mkMatchRun {
  matcher_after : MarketMatcher;
  matched : list MatchedMarket;
  extraction_log : list string
}.

(** [MarketMatcher.match]. *)
Definition match_ (mt : MarketMatcher)
    (kalshi_markets polymarket_markets : list Market) : MatchRun :=
  if is_nil kalshi_markets || is_nil polymarket_markets
  then mkMatchRun mt [] []
  else
    let ov := fold_left
                (override_step (_manual_overrides mt)
                               (poly_by_id polymarket_markets))
                kalshi_markets
                (mkOverrides [] (_cache mt) ∅ ∅) in
    let poly_list :=
      List.filter (fun pm => bool_decide (id pm ∉ overridden_poly ov))
                  polymarket_markets in
    let poly_titles := map (fun pm => _normalize (title pm)) poly_list in
    if is_nil poly_titles
    then mkMatchRun (with_cache mt (ov_cache ov)) (override_matches ov) []
    else
      let fz := fold_left
                  (fuzzy_step mt (overridden_kalshi ov) poly_list poly_titles)
                  kalshi_markets
                  (mkFuzzy [] (ov_cache ov) []) in
      let pb := poly_best (kalshi_best (best_matches fz)) in
      mkMatchRun (with_cache mt (fz_cache fz))
                 (sort_desc similarity_score
                    (override_matches ov ++ map (fun e => snd (snd e)) pb))
                 (extracted fz).

End Scorer.

End Matcher.

(* ===================================================================== *)
(** * src/markets/kalshi.py: order books *)
(* ===================================================================== *)

Module KalshiBook.

(** An entry of a side of the book: a [[price, size]] list, or anything
    else, which the code reads as a bare price. *)
Inductive Entry := Level (price size : RawNum) | Bare (price : RawNum).

(** [book_data.get("orderbook", {})] with its two sides, each the empty
    list when missing or null. *)
Record Orderbook := mkOrderbook { yes : list Entry; no : list Entry }.

Definition no_book : Orderbook := mkOrderbook [] [].

(** [fetch_orderbook]: the GET goes through [_get_with_retry]; any
    exception, or a body that is not JSON, gives the empty dict. *)
Definition fetch_orderbook (server : nat -> Result (Response Orderbook)) : Orderbook :=
  match Kalshi.outcome (Kalshi._get_with_retry server) with
  | Ok resp => match json resp with Some b => b | None => no_book end
  | Raise _ => no_book
  end.

Definition price_raw (e : Entry) : RawNum :=
  match e with Level p _ => p | Bare p => p end.

(** [float(price_raw)], divided by 100 when above 1. *)
Definition price_val (e : Entry) : Result Q :=
  bind (float_of (price_raw e)) (fun p => Ok (if Qltb 1 p then p / 100 else p)).

(** [float(entry[1] if isinstance(entry, list) else 0)]. *)
Definition size_val (e : Entry) : Result Q :=
  match e with Level _ s => float_of s | Bare _ => Ok 0 end.

Definition set_yes_bid (o : Outcome) (b : Q) : Outcome :=
  mkOutcome (name o) (yes_price o) (no_price o) (token_id o)
            (yes_ask o) (no_ask o) b (no_bid o) (yes_depth o) (no_depth o).
Definition set_yes_depth (o : Outcome) (d : Q) : Outcome :=
  mkOutcome (name o) (yes_price o) (no_price o) (token_id o)
            (yes_ask o) (no_ask o) (yes_bid o) (no_bid o) d (no_depth o).
Definition set_no_bid (o : Outcome) (b : Q) : Outcome :=
  mkOutcome (name o) (yes_price o) (no_price o) (token_id o)
            (yes_ask o) (no_ask o) (yes_bid o) b (yes_depth o) (no_depth o).
Definition set_no_depth (o : Outcome) (d : Q) : Outcome :=
  mkOutcome (name o) (yes_price o) (no_price o) (token_id o)
            (yes_ask o) (no_ask o) (yes_bid o) (no_bid o) (yes_depth o) d.

(** The two assignments that close the loop body. *)
Definition derive_asks (o : Outcome) : Outcome :=
  let o1 :=
    if Qltb 0 (no_bid o)
    then mkOutcome (name o) (yes_price o) (no_price o) (token_id o)
                   (round_dp 4 (1 - no_bid o)) (no_ask o) (yes_bid o) (no_bid o)
                   (yes_depth o) (no_depth o)
    else o in
  if Qltb 0 (yes_bid o1)
  then mkOutcome (name o1) (yes_price o1) (no_price o1) (token_id o1)
                 (yes_ask o1) (round_dp 4 (1 - yes_bid o1)) (yes_bid o1) (no_bid o1)
                 (yes_depth o1) (no_depth o1)
  else o1.

Definition apply_side (side : list Entry)
    (set_bid set_depth : Outcome -> Q -> Outcome) (o : Outcome) : Polymarket.Update :=
  match side with
  | [] => (o, None)
  | best :: _ =>
      Polymarket.and_then (Polymarket.assign o (price_val best) set_bid)
        (fun o1 => Polymarket.assign o1 (size_val best) set_depth)
  end.

(** The loop body. *)
Definition enrich_outcome (book : Orderbook) (o : Outcome) : Polymarket.Update :=
  Polymarket.and_then (apply_side (yes book) set_yes_bid set_yes_depth o) (fun o1 =>
  Polymarket.and_then (apply_side (no book) set_no_bid set_no_depth o1) (fun o2 =>
  (derive_asks o2, None))).

Fixpoint enrich_outcomes (book : Orderbook) (outs : list Outcome)
    : list Outcome * option Exn :=
  match outs with
  | [] => ([], None)
  | o :: rest =>
      match enrich_outcome book o with
      | (o', Some e) => (o' :: rest, Some e)
      | (o', None) =>
          let '(rest', r) := enrich_outcomes book rest in (o' :: rest', r)
      end
  end.

(** The market object after the call, and the exception when it raised
    instead of returning. *)
Definition enrich_outcomes_with_orderbook
    (server : nat -> Result (Response Orderbook)) (m : Market)
    : Market * option Exn :=
  let '(outs, r) := enrich_outcomes (fetch_orderbook server) (outcomes m) in
  (Polymarket.with_outcomes m outs, r).

End KalshiBook.

(* ===================================================================== *)
(** * src/markets/models.py: [to_dict] *)
(* ===================================================================== *)

Module Api.

(** [Direction.value]. *)
Definition Direction_value (d : Direction) : string :=
  match d with
  | KALSHI_YES_POLY_NO => "YES on Kalshi + NO on Polymarket"
  | POLY_YES_KALSHI_NO => "YES on Polymarket + NO on Kalshi"
  end.

(** The dict [ArbitrageOpportunity.to_dict] builds; the two ISO texts are
    kept as the instants they print. *)
Record OpportunityDict := mkDict {
  d_kalshi_title : string;
  d_polymarket_title : string;
  d_kalshi_ticker : string;
  d_similarity : Q;
  d_direction : string;
  d_kalshi_price : Q;
  d_polymarket_price : Q;
  d_cost : Q;
  d_profit : Q;
  d_roi : Q;
  d_max_size : Q;
  d_timestamp : Q;
  d_expiry : option Z;
  d_kalshi_url : string;
  d_polymarket_url : string
}.

(** [a or b] on two optional datetimes. *)
Definition first_some {A} (a b : option A) : option A :=
  match a with Some _ => a | None => b end.

Definition to_dict (o : ArbitrageOpportunity) : OpportunityDict :=
  let km := kalshi_market (matched_market o) in
  let pm := polymarket_market (matched_market o) in
  {| d_kalshi_title := title km;
     d_polymarket_title := title pm;
     d_kalshi_ticker := ticker km;
     d_similarity := round_dp 1 (similarity_score (matched_market o));
     d_direction := Direction_value (direction o);
     d_kalshi_price := round_dp 4 (kalshi_price o);
     d_polymarket_price := round_dp 4 (polymarket_price o);
     d_cost := round_dp 4 (cost o);
     d_profit := round_dp 4 (profit o);
     d_roi := round_dp 2 (roi o);
     d_max_size := round_dp 2 (max_size o);
     d_timestamp := timestamp o;
     d_expiry := first_some (expiration km) (expiration pm);
     d_kalshi_url := url km;
     d_polymarket_url := url pm |}.

End Api.

(* ===================================================================== *)
(** * src/scanner.py *)
(* ===================================================================== *)

Module Scanner.

(** [l[-n:]] for a positive [n]. *)
Definition last_n {A} (n : nat) (l : list A) : list A :=
  skipn (length l - n) l.

(** ** The loop of [_run_loop] *)

(** One call of [_scan_once]: it returns, or raises an exception other
    than a cancellation, whose text is kept. *)
Inductive Tick := Scanned | Failed (exc : string).

(** What the loop has done: the error ring, the back-off it has slept
    (oldest first) and the number of waits for the next tick. *)
Record LoopTrace := mkTrace {
  errors : list string;
  slept : list Q;
  waits : nat
}.

Definition max_backoff : Q := 60.

(** The loop from a given back-off.  Each tick comes with the state of the
    stop event when the loop next looks at it; past the end of the list the
    stop event is set. *)
Fixpoint run_loop (ticks : list (Tick * bool)) (backoff : Q) (tr : LoopTrace)
    : LoopTrace :=
  match ticks with
  | [] => tr
  | (Failed exc, stopped) :: rest =>
      let error_msg := ("Scan error: " ++ exc)%string in
      let tr' := mkTrace (last_n 20 (errors tr ++ [error_msg]))
                         (slept tr ++ [backoff]) (waits tr) in
      if stopped then tr'
      else run_loop rest (py_min (backoff * 2) max_backoff) tr'
  | (Scanned, stopped) :: rest =>
      let tr' := mkTrace (errors tr) (slept tr) (S (waits tr)) in
      if stopped then tr' else run_loop rest 1 tr'
  end.

Definition _run_loop (ticks : list (Tick * bool)) (errors0 : list string) : LoopTrace :=
  run_loop ticks 1 (mkTrace errors0 [] 0).

(** ** Subscribers *)

(** [list.remove(x)]: the first occurrence goes. *)
Fixpoint remove_first (x : nat) (l : list nat) : list nat :=
  match l with
  | [] => []
  | y :: r => if Nat.eqb x y then r else y :: remove_first x r
  end.

(** [_broadcast] on the list of registered callbacks, each known by a
    number; [raises cb] says whether calling [cb] with the snapshot
    raises.  The result is the list of callbacks called, in order, and the
    list that stays registered. *)
Definition _broadcast (raises : nat -> bool) (subs : list nat)
    : list nat * list nat :=
  match subs with
  | [] => ([], subs)
  | _ =>
      let dead := List.filter raises subs in
      (subs, fold_left (fun l cb => remove_first cb l) dead subs)
  end.

(** [unregister_ws_callback]. *)
Definition unregister_ws_callback (subs : list nat) (callback : nat) : list nat :=
  List.filter (fun cb => negb (Nat.eqb cb callback)) subs.

(** ** Live settings *)

(** The objects [update_settings] writes to: the global settings, the
    matcher, the executor and two fields of the stats. *)
Record Live := mkLive {
  settings : Config.Settings;
  scan_interval_seconds : Z;
  matcher : Matcher.MarketMatcher;
  executor : Executor.TradeExecutor;
  stats_scan_interval : Z;
  stats_auto_execute : bool
}.

Definition set_min_profit (s : Config.Settings) (c : Q) : Config.Settings :=
  Config.mkSettings c (Config.match_similarity_threshold s) (Config.auto_execute s)
    (Config.max_position_size_usd s) (Config.max_daily_loss_usd s)
    (Config.polymarket_fee_rate s) (Config.kalshi_fee_rate s)
    (Config.max_polymarket_markets s) (Config.max_kalshi_markets s).
Definition set_threshold (s : Config.Settings) (t : Q) : Config.Settings :=
  Config.mkSettings (Config.min_profit_cents s) t (Config.auto_execute s)
    (Config.max_position_size_usd s) (Config.max_daily_loss_usd s)
    (Config.polymarket_fee_rate s) (Config.kalshi_fee_rate s)
    (Config.max_polymarket_markets s) (Config.max_kalshi_markets s).
Definition set_auto_execute (s : Config.Settings) (b : bool) : Config.Settings :=
  Config.mkSettings (Config.min_profit_cents s) (Config.match_similarity_threshold s) b
    (Config.max_position_size_usd s) (Config.max_daily_loss_usd s)
    (Config.polymarket_fee_rate s) (Config.kalshi_fee_rate s)
    (Config.max_polymarket_markets s) (Config.max_kalshi_markets s).
Definition set_max_position (s : Config.Settings) (u : Q) : Config.Settings :=
  Config.mkSettings (Config.min_profit_cents s) (Config.match_similarity_threshold s)
    (Config.auto_execute s) u (Config.max_daily_loss_usd s)
    (Config.polymarket_fee_rate s) (Config.kalshi_fee_rate s)
    (Config.max_polymarket_markets s) (Config.max_kalshi_markets s).

Definition executor_with (e : Executor.TradeExecutor)
    (en : bool) (max_pos min_profit : Q) : Executor.TradeExecutor :=
  Executor.mkExecutor en max_pos (Executor.max_daily_loss_usd e) min_profit
    (Executor.cooldown_seconds e) (Executor._daily_pnl e)
    (Executor._daily_reset_date e) (Executor._last_execution e)
    (Executor._execution_log e) (Executor.orders_placed e).

Definition apply_opt {A S} (arg : option A) (f : S -> A -> S) (st : S) : S :=
  match arg with Some a => f st a | None => st end.

Definition update_settings (scan_interval : option Z) (min_profit_cents : option Q)
    (match_threshold : option Q) (auto_execute : option bool)
    (max_position_usd : option Q) (lv : Live) : Live :=
  let lv1 := apply_opt scan_interval (fun lv v =>
    mkLive (settings lv) v (matcher lv) (executor lv) v (stats_auto_execute lv)) lv in
  let lv2 := apply_opt min_profit_cents (fun lv v =>
    mkLive (set_min_profit (settings lv) v) (scan_interval_seconds lv) (matcher lv)
           (executor_with (executor lv) (Executor.enabled (executor lv))
                          (Executor.max_position_usd (executor lv)) v)
           (stats_scan_interval lv) (stats_auto_execute lv)) lv1 in
  let lv3 := apply_opt match_threshold (fun lv v =>
    mkLive (set_threshold (settings lv) v) (scan_interval_seconds lv)
           (Matcher.clear_cache
              (Matcher.mkMatcher v (Matcher._cache (matcher lv))
                                 (Matcher._excluded (matcher lv))
                                 (Matcher._manual_overrides (matcher lv))))
           (executor lv) (stats_scan_interval lv) (stats_auto_execute lv)) lv2 in
  let lv4 := apply_opt auto_execute (fun lv v =>
    mkLive (set_auto_execute (settings lv) v) (scan_interval_seconds lv) (matcher lv)
           (executor_with (executor lv) v
                          (Executor.max_position_usd (executor lv))
                          (Executor.min_profit_cents (executor lv)))
           (stats_scan_interval lv) v) lv3 in
  apply_opt max_position_usd (fun lv v =>
    mkLive (set_max_position (settings lv) v) (scan_interval_seconds lv) (matcher lv)
           (executor_with (executor lv) (Executor.enabled (executor lv)) v
                          (Executor.min_profit_cents (executor lv)))
           (stats_scan_interval lv) (stats_auto_execute lv)) lv4.

End Scanner.

(* ===================================================================== *)
(** * Concrete scenarios *)
(* ===================================================================== *)

Module Scenario.

Definition market (p : Platform) (i t : string) (outs : list Outcome) : Market :=
  mkMarket p i t EmptyString outs None 0 EmptyString i.

(** An outcome known by its asks and depths only. *)
Definition quoted (ya na yd nd : Q) : Outcome :=
  mkOutcome "Yes" 0 0 "tok" ya na 0 0 yd nd.

Definition pair_of (ko po : Outcome) : MatchedMarket :=
  mkMatched (market KALSHI "K1" "Will X happen?" [ko])
            (market POLYMARKET "P1" "Will X happen?" [po])
            100 (Some ko) (Some po).

(** Kalshi YES asked at 0.45 with 100 contracts at the best level;
    Polymarket NO asked at 0.50 with no depth known. *)
Definition profitable : MatchedMarket :=
  pair_of (quoted (45 # 100) 0 100 0) (quoted 0 (50 # 100) 0 0).




(** ** Executor *)

(** The defaults with auto-execution switched on. *)
Definition trading : Config.Settings :=
  Config.mkSettings 2 80 true 100 50 (2 # 100) (7 # 100) 5000 15000.

Definition opp_with_profit (p : Q) : ArbitrageOpportunity :=
  mkOpp profitable KALSHI_YES_POLY_NO (1 - p) p 0 0 0 (45 # 100) (50 # 100).

(** The order methods of the source: they log and return. *)
Definition stub_venue : Executor.LegOrder -> option string := fun _ => None.

Definition noon_day0 : Q := 43200.
Definition noon_day1 : Q := 86400 + 43200.

(** The executor after a first trade (profit 0.05, position 100) at noon
    of day 0. *)
Definition after_first_trade : Executor.TradeExecutor :=
  fst (Executor.execute stub_venue noon_day0 (Executor.init trading)
                        (opp_with_profit (5 # 100))).

(** An opportunity of 0.1 cents, below the 2-cent minimum. *)
Definition thin : ArbitrageOpportunity := opp_with_profit (1 # 1000).

(** ** Venue K *)

(** 1.5 seconds times the attempt number, for [k] attempts from [attempt]
    on (attempts are counted from 0 in the loop, from 1 in the wait). *)
Definition waits_from (attempt k : nat) : list Q :=
  map (fun a => (3 # 2) * inject_Z (Z.of_nat (a + 1))) (seq attempt k).
Definition expected_waits (k : nat) : list Q := waits_from 0 k.

(** The [i]-th GET is answered with status 429. *)
Definition throttled {B} (server : nat -> Result (Response B)) (i : nat) : Prop :=
  exists r, server i = Ok r /\ status_code r = 429%Z.

(** Three 429 answers, then a 200. *)
Definition throttled_thrice : nat -> Result (Response string) :=
  fun n => if (n <? 3)%nat then Ok (mkResponse 429 None)
           else Ok (mkResponse 200 (Some "{}"%string)).

(** A raw price that is missing or lies between 0 and 100. *)
Definition in_cents (v : RawNum) : Prop :=
  match v with
  | Absent => True
  | Num q => 0 <= q <= 100
  | NotANumber => False
  end.

(** A raw price that is a number between 0 and 1. *)
Definition is_fraction (v : RawNum) : Prop :=
  match v with
  | Num q => 0 <= q <= 1
  | _ => False
  end.

Definition no_dates : string -> option Z := fun _ => None.

(** A Kalshi market object with a ticker and a title and no price. *)
Definition priceless_k : Kalshi.RawMarket :=
  Kalshi.mkRawMarket (Some "KX-1"%string) (Some "Will X happen?"%string) None
                     Absent Absent Absent None None Absent None None.

(** A Kalshi market object quoted in cents. *)
Definition cents_k : Kalshi.RawMarket :=
  Kalshi.mkRawMarket (Some "KX-2"%string) (Some "Will Y happen?"%string) None
                     (Num 45) (Num 56) Absent None None Absent None None.




(** ** Venue P *)

(** A Gamma market object with two outcome names and no outcome price. *)
Definition priceless_p : Polymarket.RawMarket :=
  Polymarket.mkRawMarket (Some "P1"%string) (Some "Will X happen?"%string) None
                         ["Yes"; "No"]%string [] [] Absent None [].

(** A Gamma market object whose outcome prices arrive as cents. *)
Definition cents_p : Polymarket.RawMarket :=
  Polymarket.mkRawMarket (Some "P2"%string) (Some "Will Y happen?"%string) None
                         ["Yes"; "No"]%string [Num 55; Num 45] [] Absent None [].

(** The same, quoted as fractions. *)
Definition fractions_p : Polymarket.RawMarket :=
  Polymarket.mkRawMarket (Some "P3"%string) (Some "Will Z happen?"%string) None
                         ["Yes"; "No"]%string [Num (55 # 100); Num (45 # 100)]
                         [] Absent None [].

Definition event_p (mkts : list Polymarket.RawMarket) : Polymarket.RawEvent :=
  Polymarket.mkRawEvent (Some "Event"%string) (Some "event"%string) mkts.


(** A book with two asks, the better one second, and one bid. *)
Definition book_p : Polymarket.Book :=
  Polymarket.mkBook
    [Polymarket.mkLevel (Num (50 # 100)) (Num 75)]
    [Polymarket.mkLevel (Num (55 # 100)) (Num 120);
     Polymarket.mkLevel (Num (52 # 100)) (Num 40)].

Definition market_p : Market :=
  market POLYMARKET "P1" "Will X happen?"
         [new_outcome "Yes" (52 # 100) (48 # 100) "tok-yes"].

(** ** Matcher *)

Definition k1 : Market := market KALSHI "K1" "Will X happen?" [].
Definition k2 : Market := market KALSHI "K2" "Will X happen by June?" [].
Definition p9 : Market := market POLYMARKET "P9" "Will X happen?" [].
Definition p5 : Market := market POLYMARKET "P5" "Will Z happen?" [].
(** A later Polymarket market with the title of [p9]. *)
Definition p7 : Market := market POLYMARKET "P7" "Will X happen?" [].

(** A stand-in for [fuzz.token_sort_ratio] that is right on equal strings
    (100) and says 0 otherwise. *)
Definition exact_ratio (a b : string) : Q :=
  if String.eqb a b then 100 else 0.

(** Kalshi and Polymarket ids of the pairs of a list. *)
Definition pair_ids (l : list MatchedMarket) : list (string * string) :=
  map (fun m => (id (kalshi_market m), id (polymarket_market m))) l.
Definition kalshi_ids (l : list MatchedMarket) : list string :=
  map (fun m => id (kalshi_market m)) l.
Definition polymarket_ids (l : list MatchedMarket) : list string :=
  map (fun m => id (polymarket_market m)) l.

(** A matcher whose overrides file maps K2 to P9. *)
Definition overriding : Matcher.MarketMatcher :=
  Matcher.mkMatcher 80 ∅ ∅ {[ "K2"%string := "P9"%string ]}.

(** First scan: K2 is not listed yet, K1 matches P9 by title. *)
Definition first_scan : Matcher.MatchRun :=
  Matcher.match_ exact_ratio overriding [k1] [p9; p5].

(** Second scan, with the cache the first one left: K2 is now listed. *)
Definition second_scan : Matcher.MatchRun :=
  Matcher.match_ exact_ratio (Matcher.matcher_after first_scan) [k1; k2] [p9; p5].

(** A matcher whose overrides file maps both K1 and K2 to P9. *)
Definition doubly_overriding : Matcher.MarketMatcher :=
  Matcher.mkMatcher 80 ∅ ∅ {[ "K1"%string := "P9"%string; "K2"%string := "P9"%string ]}.

(** A matcher without overrides. *)
Definition plain : Matcher.MarketMatcher := Matcher.mkMatcher 80 ∅ ∅ ∅.

(** A scan that caches K1 with P9, then one in which P9 is gone and P7,
    with the same title, is listed. *)
Definition scan_with_p9 : Matcher.MatchRun :=
  Matcher.match_ exact_ratio plain [k1] [p9].
Definition scan_without_p9 : Matcher.MatchRun :=
  Matcher.match_ exact_ratio (Matcher.matcher_after scan_with_p9) [k1] [p7].

(** After the scan that cached K1 with P9, one in which P9 is still
    listed, behind P7 that bears the very title of K1. *)
Definition scan_with_rival : Matcher.MatchRun :=
  Matcher.match_ exact_ratio (Matcher.matcher_after scan_with_p9) [k1] [p7; p9].

End Scenario.

(* ===================================================================== *)
(** * Invariants used in the proofs *)
(* ===================================================================== *)

Module Inv.


(** A Kalshi market object that [_parse_market] does not return [None]
    for: it has a ticker and a title. *)
Definition named (mkt : Kalshi.RawMarket) : Prop :=
  truthy (Kalshi.r_ticker mkt) = true /\ truthy (Kalshi.r_title mkt) = true.

(** Every cache entry is filed under the id of its own Kalshi market. *)
Definition cache_keyed (c : gmap string MatchedMarket) : Prop :=
  forall (k : string) m, c !! k = Some m -> id (kalshi_market m) = k.

(** A candidate is filed under the ids of its two markets, and its Kalshi
    market is not one the overrides took. *)
Definition candidate_ok (ovk : gset string)
    (e : (string * string) * Matcher.Scored) : Prop :=
  id (kalshi_market e.2.2) = e.1.1
  /\ id (polymarket_market e.2.2) = e.1.2
  /\ e.1.1 ∉ ovk.

(** An entry of [kalshi_best]. *)
Definition kalshi_entry_ok (ovk : gset string) (e : string * Matcher.Scored) : Prop :=
  id (kalshi_market e.2.2) = e.1 /\ e.1 ∉ ovk.

(** An entry of [poly_best]. *)
Definition poly_entry_ok (ovk : gset string) (e : string * Matcher.Scored) : Prop :=
  id (polymarket_market e.2.2) = e.1 /\ id (kalshi_market e.2.2) ∉ ovk.

(** No two overrides name the same Polymarket id. *)
Definition overrides_injective (overrides : gmap string string) : Prop :=
  forall (k1 k2 t : string),
    overrides !! k1 = Some t -> overrides !! k2 = Some t -> k1 = k2.

(** A cache entry of a Kalshi market that is not overridden does not point
    to an overridden Polymarket market. *)
Definition cache_clear_of (ovk ovp : gset string)
    (c : gmap string MatchedMarket) : Prop :=
  forall (k : string) m,
    c !! k = Some m -> k ∈ ovk \/ id (polymarket_market m) ∉ ovp.

End Inv.

(* ===================================================================== *)
(** * Further inputs and predicates *)
(* ===================================================================== *)

Module Cases.

(** Descending order of a key along a list. *)
Definition descending {A} (key : A -> Q) (l : list A) : Prop :=
  StronglySorted (fun a b => key b <= key a) l.

(** ** Executor *)

(** The size an order method was called with. *)
Definition leg_size (l : Executor.LegOrder) : Q :=
  match l with
  | Executor.buy_kalshi_yes _ sz => sz
  | Executor.buy_kalshi_no _ sz => sz
  | Executor.buy_polymarket_yes _ sz => sz
  | Executor.buy_polymarket_no _ sz => sz
  end.

(** A venue whose Polymarket orders are rejected. *)
Definition rejecting_polymarket (l : Executor.LegOrder) : option string :=
  match l with
  | Executor.buy_polymarket_yes _ _ => Some "rejected"%string
  | Executor.buy_polymarket_no _ _ => Some "rejected"%string
  | _ => None
  end.

(** A fresh executor with auto-execution on, and a 5-cent opportunity. *)
Definition fresh_executor : Executor.TradeExecutor := Executor.init Scenario.trading.
Definition five_cents : ArbitrageOpportunity := Scenario.opp_with_profit (5 # 100).

(** ** Venue K *)

(** What every parsed Kalshi market looks like. *)
Definition kalshi_market_ok (m : Market) : Prop :=
  platform m = KALSHI /\ length (outcomes m) = 1%nat /\ ticker m = id m
  /\ id m <> EmptyString /\ title m <> EmptyString.

(** The merge state: the ids in the list are distinct and all marked as
    seen. *)
Definition merged_ok (st : Kalshi.Merge) : Prop :=
  List.NoDup (map id st.2) /\ forall m, In m st.2 -> id m ∈ st.1.

(** Every GET is answered 429. *)
Definition always_throttled : nat -> Result (Response KalshiBook.Orderbook) :=
  fun _ => Ok (mkResponse 429 None).

(** A book with 40 contracts bid at 45 cents for YES and 25 contracts bid
    at 53 cents for NO. *)
Definition book_k : KalshiBook.Orderbook :=
  KalshiBook.mkOrderbook [KalshiBook.Level (Num 45) (Num 40)]
                         [KalshiBook.Level (Num 53) (Num 25)].

Definition market_k : Market :=
  Scenario.market KALSHI "KX-1" "Will X happen?"
                  [new_outcome "Will X happen?" (45 # 100) (55 # 100) "KX-1"].

(** Two events that hold the same market object twice. *)
Definition venue_twice : Kalshi.Venue :=
  Kalshi.mkVenue
    (fun _ => [])
    [Ok (mkResponse 200
           (Some (Kalshi.mkEventsPage
                    [Kalshi.mkRawEvent (Some "A"%string) [Scenario.cents_k];
                     Kalshi.mkRawEvent (Some "B"%string) [Scenario.cents_k;
                                                          Scenario.priceless_k]]
                    None)))].

(** ** Enrichment *)

(** What enrichment must not touch in an outcome. *)
Definition identity (o : Outcome) : string * Q * Q * string :=
  (name o, yes_price o, no_price o, token_id o).

(** Every level of the book has a numeric price. *)
Definition priced (book : Polymarket.Book) : Prop :=
  forall l, In l (Polymarket.asks book ++ Polymarket.bids book) ->
            exists q, Polymarket.lv_price l = Num q.

(** ** Where a matched pair comes from *)

Section Origins.
Variable token_sort_ratio : string -> string -> Q.
Variable mt : Matcher.MarketMatcher.
Variables kalshi_markets polymarket_markets : list Market.

(** A manual override: the pair of a listed Kalshi market with the listed
    Polymarket market its override names, at score 100. *)
Definition by_override (m : MatchedMarket) : Prop :=
  exists km pm,
    In km kalshi_markets /\ In pm polymarket_markets
    /\ Matcher._manual_overrides mt !! id km = Some (id pm)
    /\ m = Matcher._build_match km pm 100.

(** The cache entry of a listed Kalshi market that is not excluded. *)
Definition by_cache (m : MatchedMarket) : Prop :=
  exists km,
    In km kalshi_markets /\ (id km ∉ Matcher._excluded mt)
    /\ Matcher._cache mt !! id km = Some m.

(** A fresh fuzzy match: two listed markets, the Kalshi one not excluded,
    scored by the ratio of their normalized titles, which reaches the
    threshold. *)
Definition by_fuzzy (m : MatchedMarket) : Prop :=
  exists km pm,
    In km kalshi_markets /\ In pm polymarket_markets
    /\ (id km ∉ Matcher._excluded mt)
    /\ Matcher.threshold mt
       <= token_sort_ratio (Matcher._normalize (title km))
                           (Matcher._normalize (title pm))
    /\ m = Matcher._build_match km pm
             (token_sort_ratio (Matcher._normalize (title km))
                               (Matcher._normalize (title pm))).

Definition origin (m : MatchedMarket) : Prop :=
  by_override m \/ by_cache m \/ by_fuzzy m.

End Origins.

(** A matcher whose overrides file excludes K2 and also maps it to P9. *)
Definition excluding : Matcher.MarketMatcher :=
  Matcher.mkMatcher 80 ∅ {[ "K2"%string ]} {[ "K2"%string := "P9"%string ]}.

(** The scanner's successive calls of [match] on one matcher object: the
    pairs each scan returns. *)
Fixpoint rescan (token_sort_ratio : string -> string -> Q)
    (mt : Matcher.MarketMatcher) (scans : list (list Market * list Market))
    : list (list MatchedMarket) :=
  match scans with
  | [] => []
  | (kalshi_markets, polymarket_markets) :: rest =>
      let run := Matcher.match_ token_sort_ratio mt kalshi_markets
                                polymarket_markets in
      Matcher.matched run :: rescan token_sort_ratio (Matcher.matcher_after run) rest
  end.

(** ** The scan loop *)

(** The error messages of the ticks the loop gets to, oldest first. *)
Fixpoint messages (ticks : list (Scanner.Tick * bool)) : list string :=
  match ticks with
  | [] => []
  | (t, stopped) :: rest =>
      match t with
      | Scanner.Failed exc => [("Scan error: " ++ exc)%string]
      | Scanner.Scanned => []
      end ++ (if stopped then [] else messages rest)
  end.

(** Scans that fail one after the other, the loop not being stopped. *)
Definition failures (excs : list string) : list (Scanner.Tick * bool) :=
  map (fun exc => (Scanner.Failed exc, false)) excs.

(** 1, 2, 4, ... seconds, capped at 60. *)
Definition capped_doubling (n : nat) : list Q :=
  map (fun i => py_min (inject_Z (2 ^ Z.of_nat i)) 60) (seq 0 n).

(** ** Text *)

(** Every character of a text satisfies [P]. *)
Fixpoint every (P : ascii -> Prop) (s : string) : Prop :=
  match s with
  | EmptyString => True
  | String c s' => P c /\ every P s'
  end.

(** ASCII text, on which [_normalize] is modelled. *)
Definition ascii_text (s : string) : Prop :=
  every (fun c => (nat_of_ascii c < 128)%nat) s.

(** Lower-case letters, digits, underscores and blanks only. *)
Definition plain_char (c : ascii) : Prop :=
  lower_char c = c /\ (Matcher.is_word c || Matcher.is_space c) = true.

(** The only white space is the blank, and never two in a row; [in_run]
    says that a blank came just before. *)
Fixpoint single_spaced (in_run : bool) (s : string) : Prop :=
  match s with
  | EmptyString => True
  | String c s' =>
      if Matcher.is_space c
      then c = " "%char /\ in_run = false /\ single_spaced true s'
      else single_spaced false s'
  end.

(** No white space at the start. *)
Definition starts_tidy (s : string) : Prop :=
  match s with
  | EmptyString => True
  | String c _ => Matcher.is_space c = false
  end.

(** No white space at the end. *)
Definition ends_tidy (s : string) : Prop := Matcher.rstrip s = s.

End Cases.

(* ===================================================================== *)
(** * Properties of the built-ins *)
(* ===================================================================== *)

Module PyFacts.

Lemma Qltb_lt (x y : Q) : Qltb x y = true <-> x < y.
Proof.
  unfold Qltb. rewrite negb_true_iff. split; intros H.
  - apply Qnot_le_lt. intros Hle. apply Qle_bool_iff in Hle. congruence.
  - destruct (Qle_bool y x) eqn:E; [|reflexivity].
    apply Qle_bool_iff in E. lra.
Qed.

Lemma Qltb_ge (x y : Q) : Qltb x y = false <-> y <= x.
Proof.
  unfold Qltb. rewrite negb_false_iff. apply Qle_bool_iff.
Qed.

Lemma Qleb_le (x y : Q) : Qleb x y = true <-> x <= y.
Proof. apply Qle_bool_iff. Qed.

Lemma Qleb_gt (x y : Q) : Qleb x y = false <-> y < x.
Proof.
  unfold Qleb. split; intros H.
  - apply Qnot_le_lt. intros Hle. apply Qle_bool_iff in Hle. congruence.
  - destruct (Qle_bool x y) eqn:E; [|reflexivity].
    apply Qle_bool_iff in E. lra.
Qed.

(** Case analysis on a comparison, leaving the order fact in the context. *)
Ltac cases_Qltb x y :=
  let E := fresh "E" in
  destruct (Qltb x y) eqn:E;
  [apply Qltb_lt in E | apply Qltb_ge in E].
Ltac cases_Qleb x y :=
  let E := fresh "E" in
  destruct (Qleb x y) eqn:E;
  [apply Qleb_le in E | apply Qleb_gt in E].

Lemma py_max_ge_l (a b : Q) : a <= py_max a b.
Proof. unfold py_max. cases_Qltb a b; lra. Qed.

Lemma py_min_Qmin (a b : Q) : py_min a b == Qmin a b.
Proof.
  unfold py_min. cases_Qltb b a.
  - rewrite Q.min_r; lra.
  - rewrite Q.min_l; lra.
Qed.

(** ** Rounding *)

Lemma floor_below (x : Q) : inject_Z (Qfloor x) <= x.
Proof. apply Qfloor_le. Qed.

Lemma floor_above (x : Q) : x < inject_Z (Qfloor x) + 1.
Proof.
  pose proof (Qlt_floor x) as H. rewrite inject_Z_plus in H. exact H.
Qed.

Lemma round_half_even_cases (x : Q) :
  (round_half_even x = Qfloor x /\ x - inject_Z (Qfloor x) <= 1 # 2)
  \/ (round_half_even x = (Qfloor x + 1)%Z /\ 1 # 2 <= x - inject_Z (Qfloor x)).
Proof.
  unfold round_half_even.
  destruct (Qcompare (x - inject_Z (Qfloor x)) (1 # 2)) eqn:E.
  - apply Qeq_alt in E. destruct (Z.even (Qfloor x)).
    + left. split; [reflexivity | lra].
    + right. split; [reflexivity | lra].
  - apply Qlt_alt in E. left. split; [reflexivity | lra].
  - apply Qgt_alt in E. right. split; [reflexivity | lra].
Qed.

Lemma round_half_even_err (x : Q) :
  - (1 # 2) <= inject_Z (round_half_even x) - x <= 1 # 2.
Proof.
  pose proof (floor_below x). pose proof (floor_above x).
  destruct (round_half_even_cases x) as [[-> ?] | [-> ?]].
  - lra.
  - rewrite inject_Z_plus. change (inject_Z 1) with 1. lra.
Qed.

Lemma round_half_even_lower (a : Z) (x : Q) :
  inject_Z a <= x -> (a <= round_half_even x)%Z.
Proof.
  intros H.
  assert (a <= Qfloor x)%Z as Hf.
  { rewrite <- (Qfloor_Z a). apply Qfloor_resp_le. exact H. }
  destruct (round_half_even_cases x) as [[-> _] | [-> _]]; lia.
Qed.

Lemma round_half_even_upper (b : Z) (x : Q) :
  x <= inject_Z b -> (round_half_even x <= b)%Z.
Proof.
  intros H.
  assert (Qfloor x <= b)%Z as Hf.
  { rewrite <- (Qfloor_Z b). apply Qfloor_resp_le. exact H. }
  destruct (round_half_even_cases x) as [[-> _] | [-> Hhalf]]; [lia|].
  destruct (Z.eq_dec (Qfloor x) b) as [Heq | Hne]; [|lia].
  exfalso. rewrite Heq in Hhalf. lra.
Qed.

Lemma round_dp4_err (x : Q) :
  - (1 # 20000) <= round_dp 4 x - x <= 1 # 20000.
Proof.
  unfold round_dp.
  change (pow10 4) with (inject_Z 10000).
  pose proof (round_half_even_err (x * inject_Z 10000)) as H.
  set (r := inject_Z (round_half_even (x * inject_Z 10000))) in *.
  change (inject_Z 10000) with (10000 # 1) in *.
  assert (r / (10000 # 1) == r * (1 # 10000)) as -> by (unfold Qdiv; reflexivity).
  lra.
Qed.

Lemma round_dp4_unit (x : Q) : 0 <= x <= 1 -> 0 <= round_dp 4 x <= 1.
Proof.
  intros [H0 H1]. unfold round_dp.
  change (pow10 4) with (inject_Z 10000).
  assert (0 <= round_half_even (x * inject_Z 10000))%Z as Hl.
  { apply round_half_even_lower. change (inject_Z 10000) with (10000 # 1).
    change (inject_Z 0) with 0. nra. }
  assert (round_half_even (x * inject_Z 10000) <= 10000)%Z as Hu.
  { apply round_half_even_upper. change (inject_Z 10000) with (10000 # 1). lra. }
  set (r := round_half_even (x * inject_Z 10000)) in *.
  assert (inject_Z 0 <= inject_Z r) as Hl' by (rewrite <- Zle_Qle; exact Hl).
  assert (inject_Z r <= inject_Z 10000) as Hu' by (rewrite <- Zle_Qle; exact Hu).
  change (inject_Z 10000) with (10000 # 1) in *. change (inject_Z 0) with 0 in *.
  assert (inject_Z r / (10000 # 1) == inject_Z r * (1 # 10000)) as ->
    by (unfold Qdiv; reflexivity).
  lra.
Qed.

(** ** Sorting keeps the elements *)

Lemma in_insert_desc {A} (key : A -> Q) (x a : A) (l : list A) :
  In x (insert_desc key a l) <-> x = a \/ In x l.
Proof.
  induction l as [|y l IH]; simpl.
  - intuition.
  - destruct (Qltb (key a) (key y)); simpl; [rewrite IH|]; intuition.
Qed.

Lemma in_sort_desc {A} (key : A -> Q) (x : A) (l : list A) :
  In x (sort_desc key l) <-> In x l.
Proof.
  induction l as [|a l IH]; simpl; [tauto|].
  rewrite in_insert_desc, IH. intuition.
Qed.

Lemma insert_desc_perm {A} (key : A -> Q) (a : A) (l : list A) :
  Permutation.Permutation (insert_desc key a l) (a :: l).
Proof.
  induction l as [|y l IH]; simpl; [reflexivity|].
  destruct (Qltb (key a) (key y)); [|reflexivity].
  rewrite IH. apply Permutation.perm_swap.
Qed.

Lemma sort_desc_perm {A} (key : A -> Q) (l : list A) :
  Permutation.Permutation (sort_desc key l) l.
Proof.
  induction l as [|a l IH]; simpl; [reflexivity|].
  rewrite insert_desc_perm, IH. reflexivity.
Qed.

Lemma NoDup_app_disjoint {A} (l1 l2 : list A) :
  List.NoDup l1 -> List.NoDup l2 ->
  (forall x, In x l1 -> ~ In x l2) ->
  List.NoDup (l1 ++ l2).
Proof.
  induction l1 as [|a l1 IH]; intros H1 H2 Hd; simpl; [exact H2|].
  inversion H1 as [|? ? Ha H1']; subst.
  constructor.
  - intros Hin. apply in_app_iff in Hin. destruct Hin as [Hin | Hin].
    + contradiction.
    + apply (Hd a); [left; reflexivity | exact Hin].
  - apply IH; [exact H1' | exact H2 |].
    intros x Hx. apply Hd. right. exact Hx.
Qed.

End PyFacts.
Import PyFacts.

(* ===================================================================== *)
(** * Properties of the detector *)
(* ===================================================================== *)

Module DetectorFacts.
Import Detector.

(** Closed comparisons of rationals, by evaluation. *)
Ltac Qeval :=
  lazymatch goal with
  | |- ~ (_ <= _) => rewrite <- Qle_bool_iff; vm_compute; discriminate
  | |- ~ (_ == _) => rewrite <- Qeq_bool_iff; vm_compute; discriminate
  | |- _ <= _ => apply Qle_bool_iff; vm_compute; reflexivity
  | |- _ < _ => apply Qltb_lt; vm_compute; reflexivity
  | |- _ == _ => apply Qeq_bool_iff; vm_compute; reflexivity
  end.

(** The opportunity a direction builds from its cost. *)
Lemma check_direction_inv now mm d yo no yf nf minp o :
  _check_direction now mm d yo no yf nf minp = Some o ->
  0 < yes_leg_price yo /\ 0 < no_leg_price no /\
  minp <= 1 - _effective_cost (yes_leg_price yo) (no_leg_price no) yf nf /\
  matched_market o = mm /\ direction o = d /\
  cost o = round_dp 4 (_effective_cost (yes_leg_price yo) (no_leg_price no) yf nf) /\
  profit o = round_dp 4 (1 - _effective_cost (yes_leg_price yo) (no_leg_price no) yf nf) /\
  max_size o = round_dp 2 (raw_max_size yo no) /\
  kalshi_price o = (if Direction_eqb d KALSHI_YES_POLY_NO
                    then yes_leg_price yo else no_leg_price no) /\
  polymarket_price o = (if Direction_eqb d KALSHI_YES_POLY_NO
                        then no_leg_price no else yes_leg_price yo).
Proof.
  unfold _check_direction. cbv zeta.
  cases_Qleb (yes_leg_price yo) 0; [discriminate|].
  cases_Qleb (no_leg_price no) 0; [discriminate|].
  cbn [orb].
  cases_Qltb (1 - _effective_cost (yes_leg_price yo) (no_leg_price no) yf nf) minp;
    [discriminate|].
  intros [= <-]. cbn. repeat split; assumption.
Qed.


Lemma in_opt_to_list {A} (x : A) (o : option A) :
  In x (opt_to_list o) <-> o = Some x.
Proof.
  destruct o as [a|]; simpl; split; intros H.
  - destruct H as [-> | []]. reflexivity.
  - left. congruence.
  - destruct H.
  - discriminate.
Qed.

(** Every element of the returned list was built by one direction of one
    pair of the input, and conversely. *)
Lemma detect_In s now pairs arg o :
  In o (detect_opportunities s now pairs arg) <->
  exists mm d ko po,
    In mm pairs /\ kalshi_outcome mm = Some ko /\ polymarket_outcome mm = Some po /\
    check s now (min_profit_of s arg) mm d ko po = Some o.
Proof.
  unfold detect_opportunities. rewrite in_sort_desc, in_flat_map.
  split.
  - intros (mm & Hin & Ho). unfold pair_opportunities in Ho.
    destruct (kalshi_outcome mm) as [ko|] eqn:Ek; [|destruct Ho].
    destruct (polymarket_outcome mm) as [po|] eqn:Ep; [|destruct Ho].
    apply in_app_iff in Ho. destruct Ho as [Ho | Ho]; apply in_opt_to_list in Ho.
    + exists mm, KALSHI_YES_POLY_NO, ko, po. auto.
    + exists mm, POLY_YES_KALSHI_NO, ko, po. auto.
  - intros (mm & d & ko & po & Hin & Ek & Ep & Hc).
    exists mm. split; [exact Hin|].
    unfold pair_opportunities. rewrite Ek, Ep.
    apply in_app_iff. destruct d; [left | right]; apply in_opt_to_list; exact Hc.
Qed.

Lemma py_min_is_Qmin (a b : Q) : py_min a b = Qmin a b.
Proof.
  unfold py_min, Qmin, GenericMinMax.gmin.
  destruct (a ?= b)%Q eqn:E.
  - apply Qeq_alt in E. cases_Qltb b a; [lra | reflexivity].
  - apply Qlt_alt in E. cases_Qltb b a; [lra | reflexivity].
  - apply Qgt_alt in E. cases_Qltb b a; [reflexivity | lra].
Qed.

Lemma raw_max_size_cases (yo no : Outcome) :
  (0 < yes_depth yo -> 0 < no_depth no ->
   raw_max_size yo no = Qmin (yes_depth yo) (no_depth no)) /\
  (0 < yes_depth yo -> no_depth no <= 0 -> raw_max_size yo no = yes_depth yo) /\
  (yes_depth yo <= 0 -> 0 < no_depth no -> raw_max_size yo no = no_depth no) /\
  (yes_depth yo <= 0 -> no_depth no <= 0 -> raw_max_size yo no = 0).
Proof.
  unfold raw_max_size, depth_or_inf.
  cases_Qltb 0 (yes_depth yo); cases_Qltb 0 (no_depth no); cbn;
    repeat split; intros; try lra; try reflexivity.
  apply py_min_is_Qmin.
Qed.

(** C1, as amended.  Every emitted opportunity comes from one direction of
    an input pair with both primary outcomes and positive leg prices; its
    cost is the two leg prices plus the worst-case fee, rounded to four
    places, and its profit is one minus that sum, rounded likewise.  So
    cost plus profit is 1 up to the two roundings, and it is the two leg
    prices plus the profit that fall short of 1 by the worst-case fee, up
    to the rounding of the profit. *)
Theorem emitted_cost_and_profit s now pairs arg o :
  In o (detect_opportunities s now pairs arg) ->
  exists mm d ko po,
    In mm pairs /\ kalshi_outcome mm = Some ko /\ polymarket_outcome mm = Some po /\
    matched_market o = mm /\ direction o = d /\
    let y := yes_leg_price (yes_side d ko po) in
    let n := no_leg_price (no_side d ko po) in
    let fee := py_max (py_max 0 (1 - y) * yes_fee s d)
                      (py_max 0 (1 - n) * no_fee s d) in
    0 < y /\ 0 < n /\
    cost o = round_dp 4 (y + n + fee) /\
    profit o = round_dp 4 (1 - (y + n + fee)) /\
    Qabs (cost o + profit o - 1) <= 1 # 10000 /\
    Qabs (1 - (y + n + profit o) - fee) <= 1 # 20000.
Proof.
  intros Hin. apply detect_In in Hin.
  destruct Hin as (mm & d & ko & po & Hmm & Ek & Ep & Hc).
  exists mm, d, ko, po. unfold check in Hc.
  apply check_direction_inv in Hc.
  destruct Hc as (Hy & Hn & _ & Em & Ed & Ec & Epr & _).
  unfold _effective_cost, worst_fee, fee_if_yes_wins, fee_if_no_wins in Ec, Epr.
  cbv zeta. repeat split; try assumption.
  - rewrite Ec, Epr. apply Qabs_Qle_condition.
    match goal with
    | |- context [round_dp 4 (1 - ?c)] =>
        pose proof (round_dp4_err c); pose proof (round_dp4_err (1 - c))
    end.
    lra.
  - rewrite Epr. apply Qabs_Qle_condition.
    match goal with
    | |- context [round_dp 4 ?p] => pose proof (round_dp4_err p)
    end.
    lra.
Qed.

Lemma emitted_cost_and_profit_witness :
  exists o, In o (detect_opportunities Config.settings 0 [Scenario.profitable] (Some 1))
            /\ Qabs (cost o + profit o - 1) <= 1 # 10000.
Proof.
  destruct (detect_opportunities Config.settings 0 [Scenario.profitable] (Some 1))
    as [|o l] eqn:E; [vm_compute in E; discriminate|].
  exists o. split; [left; reflexivity|].
  destruct (emitted_cost_and_profit Config.settings 0 [Scenario.profitable] (Some 1) o)
    as (mm & d & ko & po & _ & _ & _ & _ & _ & H).
  - rewrite E. left. reflexivity.
  - apply H.
Defined.

(** C1 as stated fails: with a Kalshi YES ask of 0.45, a Polymarket NO ask
    of 0.50 and the default fee rates, the emitted opportunity has cost
    0.9885 and profit 0.0115; the worst-case fee is 0.0385, yet cost plus
    profit is 1, not 1 give or take that fee. *)
Lemma cost_plus_profit_is_not_off_by_the_fee :
  exists o, In o (detect_opportunities Config.settings 0 [Scenario.profitable] (Some 1))
    /\ cost o == 9885 # 10000 /\ profit o == 115 # 10000
    /\ worst_fee (45 # 100) (50 # 100) (7 # 100) (2 # 100) == 385 # 10000
    /\ ~ (Qabs (Qabs (cost o + profit o - 1)
                - worst_fee (45 # 100) (50 # 100) (7 # 100) (2 # 100)) <= 1 # 10000).
Proof.
  destruct (detect_opportunities Config.settings 0 [Scenario.profitable] (Some 1))
    as [|o l] eqn:E; [vm_compute in E; discriminate|].
  exists o. split; [left; reflexivity|].
  vm_compute in E. injection E as <- _.
  repeat split; Qeval.
Qed.

(** C4, as amended.  For every emitted opportunity, [max_size] is, rounded
    to two places: the smaller depth when the YES leg's and the NO leg's
    depth are both positive; the positive one when only one is; and 0 when
    neither is. *)
Theorem emitted_max_size s now pairs arg o :
  In o (detect_opportunities s now pairs arg) ->
  exists mm d ko po,
    In mm pairs /\ kalshi_outcome mm = Some ko /\ polymarket_outcome mm = Some po /\
    matched_market o = mm /\ direction o = d /\
    let yd := yes_depth (yes_side d ko po) in
    let nd := no_depth (no_side d ko po) in
    (0 < yd -> 0 < nd -> max_size o = round_dp 2 (Qmin yd nd)) /\
    (0 < yd -> nd <= 0 -> max_size o = round_dp 2 yd) /\
    (yd <= 0 -> 0 < nd -> max_size o = round_dp 2 nd) /\
    (yd <= 0 -> nd <= 0 -> max_size o == 0).
Proof.
  intros Hin. apply detect_In in Hin.
  destruct Hin as (mm & d & ko & po & Hmm & Ek & Ep & Hc).
  exists mm, d, ko, po. unfold check in Hc.
  apply check_direction_inv in Hc.
  destruct Hc as (_ & _ & _ & Em & Ed & _ & _ & Es & _).
  destruct (raw_max_size_cases (yes_side d ko po) (no_side d ko po))
    as (H1 & H2 & H3 & H4).
  cbv zeta. repeat split; try assumption; intros; rewrite Es.
  - rewrite H1 by assumption. reflexivity.
  - rewrite H2 by assumption. reflexivity.
  - rewrite H3 by assumption. reflexivity.
  - rewrite H4 by assumption. Qeval.
Qed.

Lemma emitted_max_size_witness :
  exists o, In o (detect_opportunities Config.settings 0 [Scenario.profitable] (Some 1))
            /\ max_size o = round_dp 2 100.
Proof.
  destruct (detect_opportunities Config.settings 0 [Scenario.profitable] (Some 1))
    as [|o l] eqn:E; [vm_compute in E; discriminate|].
  exists o. split; [left; reflexivity|].
  destruct (emitted_max_size Config.settings 0 [Scenario.profitable] (Some 1) o)
    as (mm & d & ko & po & Hmm & Ek & Ep & Em & Ed & _ & H & _).
  - rewrite E. left. reflexivity.
  - vm_compute in E. injection E as <- _.
    destruct Hmm as [<- | []]. cbn in Ek, Ep, Ed.
    injection Ek as <-. injection Ep as <-. subst d.
    apply H; Qeval.
Defined.

(** C4 as stated fails: the Kalshi YES leg has 100 contracts at its best
    level and the Polymarket NO leg's depth is unknown (0); the emitted
    opportunity has [max_size] 100, neither 0 nor the minimum of the two
    depths. *)
Lemma max_size_with_one_depth_unknown :
  exists o, In o (detect_opportunities Config.settings 0 [Scenario.profitable] (Some 1))
    /\ direction o = KALSHI_YES_POLY_NO
    /\ option_map yes_depth (kalshi_outcome (matched_market o)) = Some 100
    /\ option_map no_depth (polymarket_outcome (matched_market o)) = Some 0
    /\ max_size o == 100
    /\ ~ (max_size o == 0)
    /\ ~ (max_size o == Qmin 100 0).
Proof.
  destruct (detect_opportunities Config.settings 0 [Scenario.profitable] (Some 1))
    as [|o l] eqn:E; [vm_compute in E; discriminate|].
  exists o. split; [left; reflexivity|].
  vm_compute in E. injection E as <- _.
  repeat split; Qeval.
Qed.




End DetectorFacts.

(* ===================================================================== *)
(** * Properties of the executor *)
(* ===================================================================== *)

Module ExecutorFacts.
Import Executor.

(** The guardrail check changes the executor only through the daily
    reset, and only when execution is enabled. *)
Lemma check_guardrails_state now e opp :
  fst (_check_guardrails now e opp)
  = if enabled e then _reset_daily_if_needed now e else e.
Proof.
  unfold _check_guardrails.
  destruct (enabled e); cbn [negb]; [|reflexivity].
  repeat match goal with
         | |- context [if ?b then _ else _] => destruct b
         | |- context [match ?x with Some _ => _ | None => _ end] => destruct x
         end; reflexivity.
Qed.

Lemma reset_daily_fields now e :
  let e1 := _reset_daily_if_needed now e in
  orders_placed e1 = orders_placed e /\
  _execution_log e1 = _execution_log e /\
  _last_execution e1 = _last_execution e /\
  _daily_pnl e1 = (if same_date (_daily_reset_date e) (utc_date now)
                   then _daily_pnl e else 0).
Proof.
  unfold _reset_daily_if_needed. cbv zeta.
  destruct (same_date (_daily_reset_date e) (utc_date now)); cbn; auto.
Qed.

(** C8, as amended.  When a guardrail check fails, [execute] returns a
    record with [success = False] and the guardrail text as its error,
    invokes no order method, appends that record to the execution log and
    leaves the last-execution time alone.  The daily PnL is unchanged
    when execution is disabled or the reset date is today's; otherwise
    the check has reset it to 0 before failing. *)
Theorem blocked_execution venue now e opp g :
  snd (_check_guardrails now e opp) = Some g ->
  let e' := fst (execute venue now e opp) in
  let r := snd (execute venue now e opp) in
  success r = false /\ error r = GuardText g /\ opportunity r = opp /\
  orders_placed e' = orders_placed e /\
  _execution_log e' = _execution_log e ++ [r] /\
  _last_execution e' = _last_execution e /\
  _daily_pnl e' =
    (if enabled e && negb (same_date (_daily_reset_date e) (utc_date now))
     then 0 else _daily_pnl e).
Proof.
  intros Hg. cbv zeta. unfold execute.
  pose proof (check_guardrails_state now e opp) as Hst.
  destruct (reset_daily_fields now e) as (Ho & Hl & Ht & Hp).
  destruct (_check_guardrails now e opp) as [e1 res]. cbn in Hg, Hst.
  subst res e1.
  set (today := same_date (_daily_reset_date e) (utc_date now)) in *.
  cbn [fst snd success error opportunity append_log orders_placed
       _execution_log _last_execution _daily_pnl].
  destruct (enabled e); cbn [andb].
  - rewrite Ho, Hl, Ht, Hp. destruct today; cbn [negb]; auto 10.
  - auto 10.
Qed.

Lemma blocked_execution_witness :
  success (snd (execute Scenario.stub_venue Scenario.noon_day1
                        Scenario.after_first_trade Scenario.thin)) = false
  /\ _daily_pnl (fst (execute Scenario.stub_venue Scenario.noon_day1
                              Scenario.after_first_trade Scenario.thin)) = 0.
Proof.
  destruct (blocked_execution Scenario.stub_venue Scenario.noon_day1
              Scenario.after_first_trade Scenario.thin
              (ProfitBelowMinimum (profit Scenario.thin * 100) 2))
    as (Hs & _ & _ & _ & _ & _ & Hp).
  - reflexivity.
  - split; [exact Hs | exact Hp].
Defined.

(** C8 as stated fails on the daily PnL.  A trade at noon of day 0 leaves
    the daily PnL at 5; at noon of day 1 an opportunity below the minimum
    profit is blocked, no order is placed, and the daily PnL is 0. *)
Lemma blocked_execution_resets_daily_pnl :
  let e := Scenario.after_first_trade in
  let run := execute Scenario.stub_venue Scenario.noon_day1 e Scenario.thin in
  success (snd run) = false
  /\ error (snd run) = GuardText (ProfitBelowMinimum (profit Scenario.thin * 100) 2)
  /\ orders_placed (fst run) = orders_placed e
  /\ _daily_pnl e == 5
  /\ _daily_pnl (fst run) == 0
  /\ ~ (_daily_pnl (fst run) == _daily_pnl e).
Proof.
  cbv zeta. repeat split; try reflexivity.
  rewrite <- Qeq_bool_iff. vm_compute. discriminate.
Qed.

End ExecutorFacts.

(* ===================================================================== *)
(** * Properties of the venue K client *)
(* ===================================================================== *)

Module KalshiFacts.
Import Kalshi.

Section RetryFacts.
Context {B : Type}.
Variable server : nat -> Result (Response B).

Lemma raise_for_status_429 (r : Response B) :
  status_code r = 429%Z -> raise_for_status r = Raise (HTTPStatusError 429).
Proof.
  intros H. unfold raise_for_status, is_success. rewrite H. reflexivity.
Qed.

(** The loop when the next [k] answers are 429 and the one after is not. *)
Lemma retry_loop_answered (k : nat) :
  forall left attempt slept last resp,
    (k < left)%nat ->
    (forall i, (i < k)%nat -> Scenario.throttled server (attempt + i)) ->
    server (attempt + k) = Ok resp -> status_code resp <> 429%Z ->
    retry_loop server left attempt slept last
    = mkRun (slept ++ Scenario.waits_from attempt k) (S (attempt + k))
            (raise_for_status resp).
Proof.
  induction k as [|k IH]; intros left attempt slept last resp Hlt Hthr Hresp Hne.
  - destruct left as [|left]; [lia|]. cbn [retry_loop].
    rewrite Nat.add_0_r in *. rewrite Hresp.
    apply Z.eqb_neq in Hne. rewrite Hne.
    unfold Scenario.waits_from. cbn. rewrite app_nil_r. reflexivity.
  - destruct left as [|left]; [lia|]. cbn [retry_loop].
    destruct (Hthr 0%nat) as (r & Hr & H429); [lia|].
    rewrite Nat.add_0_r in Hr. rewrite Hr.
    apply Z.eqb_eq in H429. rewrite H429.
    rewrite (IH left (S attempt) _ (Some r) resp).
    + unfold Scenario.waits_from. cbn [seq map]. rewrite <- app_assoc. cbn [app].
      replace (S attempt + k)%nat with (attempt + S k)%nat by lia. reflexivity.
    + lia.
    + intros i Hi. replace (S attempt + i)%nat with (attempt + S i)%nat by lia.
      apply Hthr. lia.
    + replace (S attempt + k)%nat with (attempt + S k)%nat by lia. exact Hresp.
    + exact Hne.
Qed.

(** The loop when every remaining answer is 429. *)
Lemma retry_loop_exhausted (left : nat) :
  forall attempt slept last,
    (forall i, (i < left)%nat -> Scenario.throttled server (attempt + i)) ->
    (left = 0%nat -> exists r, last = Some r /\ status_code r = 429%Z) ->
    retry_loop server left attempt slept last
    = mkRun (slept ++ Scenario.waits_from attempt left) (attempt + left)
            (Raise (HTTPStatusError 429)).
Proof.
  induction left as [|left IH]; intros attempt slept last Hthr Hlast.
  - destruct (Hlast eq_refl) as (r & -> & H429). cbn [retry_loop].
    rewrite raise_for_status_429 by exact H429.
    unfold Scenario.waits_from. cbn. rewrite app_nil_r, Nat.add_0_r. reflexivity.
  - cbn [retry_loop].
    destruct (Hthr 0%nat) as (r & Hr & H429); [lia|].
    rewrite Nat.add_0_r in Hr. rewrite Hr.
    pose proof H429 as H429'. apply Z.eqb_eq in H429'. rewrite H429'.
    rewrite (IH (S attempt) _ (Some r)).
    + unfold Scenario.waits_from. cbn [seq map]. rewrite <- app_assoc. cbn [app].
      replace (S attempt + left)%nat with (attempt + S left)%nat by lia.
      reflexivity.
    + intros i Hi. replace (S attempt + i)%nat with (attempt + S i)%nat by lia.
      apply Hthr. lia.
    + intros _. exists r. split; [reflexivity | exact H429].
Qed.

End RetryFacts.

(** C9.  Let the first [k] answers to a call of [_get_with_retry] be 429.
    If [k] is 5 the call has slept 1.5 s times the attempt number after
    each of its five GETs and raises.  If [k] is less than 5 and the next
    answer is not 429, the call has slept after each of the [k] throttled
    attempts, issues no GET after that answer, and returns it when its
    status is 2xx and raises at once otherwise. *)
Theorem get_with_retry_policy {B} (server : nat -> Result (Response B)) (k : nat) :
  (k <= 5)%nat ->
  (forall i, (i < k)%nat -> Scenario.throttled server i) ->
  (k = 5%nat ->
   _get_with_retry server
   = mkRun (Scenario.expected_waits 5) 5 (Raise (HTTPStatusError 429)))
  /\
  (forall resp,
     (k < 5)%nat -> server k = Ok resp -> status_code resp <> 429%Z ->
     waits (_get_with_retry server) = Scenario.expected_waits k
     /\ gets (_get_with_retry server) = S k
     /\ (is_success resp = true -> outcome (_get_with_retry server) = Ok resp)
     /\ (is_success resp = false ->
         outcome (_get_with_retry server)
         = Raise (HTTPStatusError (status_code resp)))).
Proof.
  intros Hk Hthr. unfold _get_with_retry. split.
  - intros ->.
    rewrite (retry_loop_exhausted server 5 0 [] None); [reflexivity | | ].
    + intros i Hi. apply Hthr. exact Hi.
    + discriminate.
  - intros resp Hlt Hresp Hne.
    rewrite (retry_loop_answered server k 5 0 [] None resp);
      [ | exact Hlt | intros i Hi; apply Hthr; exact Hi | exact Hresp | exact Hne].
    cbn [waits gets outcome app plus]. unfold raise_for_status.
    repeat split.
    + intros ->. reflexivity.
    + intros ->. reflexivity.
Qed.

(** Three 429 answers and a 200: the waits are 1.5 s, 3 s and 4.5 s, four
    GETs are issued and the 200 is returned. *)
Lemma get_with_retry_policy_witness :
  Forall2 Qeq (waits (_get_with_retry Scenario.throttled_thrice))
              [3 # 2; 3; 9 # 2]
  /\ gets (_get_with_retry Scenario.throttled_thrice) = 4%nat
  /\ outcome (_get_with_retry Scenario.throttled_thrice)
     = Ok (mkResponse 200 (Some "{}"%string)).
Proof.
  destruct (get_with_retry_policy Scenario.throttled_thrice 3) as [_ H].
  - lia.
  - intros i Hi. exists (mkResponse 429 None).
    destruct i as [|[|[|i]]]; [split; reflexivity .. | lia].
  - destruct (H (mkResponse 200 (Some "{}"%string))) as (Hw & Hg & Hok & _).
    + lia.
    + reflexivity.
    + discriminate.
    + rewrite Hw, Hg, Hok by reflexivity.
      repeat split. repeat constructor.
Defined.

(** ** Parsing *)

Section ParseFacts.
Variable fromisoformat : string -> option Z.


Lemma parse_market_some (mkt : RawMarket) (et : string) (m : Market) :
  _parse_market fromisoformat mkt et = Ok (Some m) ->
  Inv.named mkt /\ id m = text (r_ticker mkt) /\
  exists y n, parse_prices mkt = Ok (y, n) /\
              outcomes m = [new_outcome (text (r_title mkt)) y n
                                        (text (r_ticker mkt))].
Proof.
  unfold _parse_market, Inv.named.
  destruct (truthy (r_ticker mkt)), (truthy (r_title mkt)); cbn [negb orb];
    try discriminate.
  destruct (parse_prices mkt) as [[y n]|e]; cbn [bind]; [|discriminate].
  destruct (float_or_0 (r_volume mkt)); cbn [bind]; [|discriminate].
  intros [= <-]. cbn. eauto 10.
Qed.



(** The cents rule: raw prices within 0..100 are stored within 0..1. *)
Lemma parse_prices_range (mkt : RawMarket) (y n : Q) :
  Scenario.in_cents (r_yes_price mkt) ->
  Scenario.in_cents (r_no_price mkt) ->
  Scenario.in_cents (r_last_price mkt) ->
  parse_prices mkt = Ok (y, n) ->
  0 <= y <= 1 /\ 0 <= n <= 1.
Proof.
  unfold parse_prices, Scenario.in_cents.
  destruct (r_yes_price mkt) as [|qy|], (r_no_price mkt) as [|qn|],
    (r_last_price mkt) as [|ql|];
    intros Hy Hn Hl; try contradiction; cbn [float_or_0 bind];
    repeat match goal with
           | |- context [Qeq_bool ?a ?b] =>
               let E := fresh "E" in
               destruct (Qeq_bool a b) eqn:E;
               [apply Qeq_bool_iff in E | apply Qeq_bool_neq in E];
               cbn [andb bind]
           | |- context [if Qltb ?a ?b then _ else _] =>
               cases_Qltb a b; cbn [bind]
           end;
    intros [= <- <-];
    unfold Qdiv in *; change (/ 100) with (1 # 100) in *;
    try match goal with
        | |- context [round_dp 4 ?x] =>
            let R := fresh "R" in
            assert (0 <= round_dp 4 x <= 1) as R
              by (apply round_dp4_unit; lra)
        end;
    try lra.
Qed.


(** ** Merging the two sweeps *)









End ParseFacts.

End KalshiFacts.

(* ===================================================================== *)
(** * Properties of the venue P client *)
(* ===================================================================== *)

Module PolymarketFacts.
Import Polymarket.

(** ** Order books *)

(** [min(asks, key=price)] returns one of the asks, and none is cheaper. *)
Lemma best_from_min (rest : list Level) :
  forall best bk b,
    float_get (lv_price best) 999 = Ok bk ->
    best_from Qltb 999 best bk rest = Ok b ->
    In b (best :: rest)
    /\ exists kb, float_get (lv_price b) 999 = Ok kb /\ kb <= bk
                  /\ forall l, In l rest ->
                               exists k, float_get (lv_price l) 999 = Ok k /\ kb <= k.
Proof.
  induction rest as [|l0 rest IH]; intros best bk b Hbk Hrun; cbn in Hrun.
  - injection Hrun as <-. split; [left; reflexivity|].
    exists bk. repeat split; [exact Hbk | lra | intros l []].
  - destruct (float_get (lv_price l0) 999) as [k0|e] eqn:Ek; cbn [bind] in Hrun;
      [|discriminate].
    cases_Qltb k0 bk.
    + destruct (IH l0 k0 b Ek Hrun) as (Hin & kb & Hkb & Hle & Hall).
      split; [destruct Hin as [<- | Hin]; cbn; auto|].
      exists kb. repeat split; [exact Hkb | lra |].
      intros l [<- | Hl]; [exists k0; auto | apply Hall; exact Hl].
    + destruct (IH best bk b Hbk Hrun) as (Hin & kb & Hkb & Hle & Hall).
      split; [destruct Hin as [<- | Hin]; cbn; auto|].
      exists kb. repeat split; [exact Hkb | exact Hle |].
      intros l [<- | Hl]; [exists k0; split; [exact Ek | lra] | apply Hall; exact Hl].
Qed.

Lemma best_ask_min (a : Level) (rest : list Level) (b : Level) :
  best_level Qltb 999 a rest = Ok b ->
  In b (a :: rest)
  /\ exists kb, float_get (lv_price b) 999 = Ok kb
                /\ forall l, In l (a :: rest) ->
                             exists k, float_get (lv_price l) 999 = Ok k /\ kb <= k.
Proof.
  unfold best_level.
  destruct (float_get (lv_price a) 999) as [ka|e] eqn:Ea; cbn [bind]; [|discriminate].
  intros Hrun. destruct (best_from_min rest a ka b Ea Hrun) as (Hin & kb & Hkb & Hle & Hall).
  split; [exact Hin|]. exists kb. split; [exact Hkb|].
  intros l [<- | Hl]; [exists ka; auto | apply Hall; exact Hl].
Qed.

(** [min(asks, key=price)] as a position in the list: the ask returned
    has the lowest key, every ask before it a strictly higher one. *)
Lemma best_from_split (rest : list Level) :
  forall pre best mid bk b,
    float_get (lv_price best) 999 = Ok bk ->
    (forall l, In l pre -> exists k, float_get (lv_price l) 999 = Ok k /\ bk < k) ->
    (forall l, In l mid -> exists k, float_get (lv_price l) 999 = Ok k /\ bk <= k) ->
    best_from Qltb 999 best bk rest = Ok b ->
    exists pre' post' kb,
      pre ++ best :: mid ++ rest = pre' ++ b :: post'
      /\ float_get (lv_price b) 999 = Ok kb
      /\ (forall l, In l pre' ->
                    exists k, float_get (lv_price l) 999 = Ok k /\ kb < k)
      /\ (forall l, In l post' ->
                    exists k, float_get (lv_price l) 999 = Ok k /\ kb <= k).
Proof.
  induction rest as [|l0 rest IH]; intros pre best mid bk b Hbk Hpre Hmid Hrun;
    cbn [best_from] in Hrun.
  - injection Hrun as <-. exists pre, mid, bk. rewrite app_nil_r. auto.
  - destruct (float_get (lv_price l0) 999) as [k0|e] eqn:Ek; cbn [bind] in Hrun;
      [|discriminate].
    cases_Qltb k0 bk.
    + destruct (IH (pre ++ best :: mid) l0 [] k0 b Ek) as (pre' & post' & kb & H);
        [| intros l [] | exact Hrun |].
      * intros l Hl. apply in_app_or in Hl.
        destruct Hl as [Hl | [<- | Hl]].
        -- destruct (Hpre l Hl) as (k & Hk & Hlt). exists k. split; [exact Hk | lra].
        -- exists bk. split; [exact Hbk | lra].
        -- destruct (Hmid l Hl) as (k & Hk & Hle). exists k. split; [exact Hk | lra].
      * exists pre', post', kb. destruct H as (Heq & H). split; [|exact H].
        rewrite <- Heq. cbn [app]. rewrite <- app_assoc. reflexivity.
    + destruct (IH pre best (mid ++ [l0]) bk b Hbk Hpre) as (pre' & post' & kb & H);
        [| exact Hrun |].
      * intros l Hl. apply in_app_or in Hl. destruct Hl as [Hl | [<- | []]].
        -- apply Hmid. exact Hl.
        -- exists k0. split; [exact Ek | lra].
      * exists pre', post', kb. destruct H as (Heq & H). split; [|exact H].
        rewrite <- Heq. rewrite <- app_assoc. reflexivity.
Qed.

Lemma best_level_split (a : Level) (rest : list Level) (b : Level) :
  best_level Qltb 999 a rest = Ok b ->
  exists pre post kb,
    a :: rest = pre ++ b :: post
    /\ float_get (lv_price b) 999 = Ok kb
    /\ (forall l, In l pre -> exists k, float_get (lv_price l) 999 = Ok k /\ kb < k)
    /\ (forall l, In l post -> exists k, float_get (lv_price l) 999 = Ok k /\ kb <= k).
Proof.
  unfold best_level.
  destruct (float_get (lv_price a) 999) as [ka|e] eqn:Ea; cbn [bind]; [|discriminate].
  intros Hrun.
  apply (best_from_split rest [] a [] ka b Ea); [intros l [] | intros l [] | exact Hrun].
Qed.

(** What the two assignments from the best ask store. *)
Lemma apply_asks_sets (book : Book) (o o1 : Outcome) (a : Level) (rest : list Level) :
  apply_asks book o = (o1, None) ->
  asks book = a :: rest ->
  exists best,
    best_level Qltb 999 a rest = Ok best
    /\ float_get (lv_price best) 0 = Ok (yes_ask o1)
    /\ float_get (lv_size best) 0 = Ok (yes_depth o1).
Proof.
  unfold apply_asks. intros Hrun Hbook. rewrite Hbook in Hrun.
  destruct (best_level Qltb 999 a rest) as [best|e] eqn:Eb; [|discriminate].
  unfold assign, and_then in Hrun.
  destruct (float_get (lv_price best) 0) as [pa|e] eqn:Ep; [|discriminate].
  destruct (float_get (lv_size best) 0) as [sz|e] eqn:Es; [|discriminate].
  injection Hrun as <-. exists best. cbn. auto.
Qed.

Lemma apply_bids_keeps (book : Book) (o1 o2 : Outcome) :
  apply_bids book o1 = (o2, None) ->
  yes_ask o2 = yes_ask o1 /\ yes_depth o2 = yes_depth o1.
Proof.
  unfold apply_bids. destruct (bids book) as [|b rest].
  - intros [= <-]. auto.
  - destruct (best_level _ 0 b rest) as [best|e]; [|discriminate].
    unfold assign.
    destruct (float_get (lv_price best) 0) as [pb|e]; [|discriminate].
    intros [= <-]. cbn. auto.
Qed.

(** The loop body, when it completes: the NO depth is the YES depth, and
    with asks in the book both are the size of the first ask of lowest
    price, whose price is the YES ask. *)
Lemma enrich_outcome_depths (book : Book) (o o' : Outcome) :
  enrich_outcome book o = (o', None) ->
  no_depth o' = yes_depth o'
  /\ (asks book <> [] ->
      exists pre best post kb,
        asks book = pre ++ best :: post
        /\ float_get (lv_price best) 999 = Ok kb
        /\ (forall l, In l pre ->
                      exists k, float_get (lv_price l) 999 = Ok k /\ kb < k)
        /\ (forall l, In l post ->
                      exists k, float_get (lv_price l) 999 = Ok k /\ kb <= k)
        /\ float_get (lv_price best) 0 = Ok (yes_ask o')
        /\ float_get (lv_size best) 0 = Ok (yes_depth o')
        /\ float_get (lv_size best) 0 = Ok (no_depth o')).
Proof.
  unfold enrich_outcome, and_then.
  destruct (apply_asks book o) as [o1 [e|]] eqn:Ea; [discriminate|].
  destruct (apply_bids book o1) as [o2 [e|]] eqn:Eb; [discriminate|].
  intros [= <-]. apply apply_bids_keeps in Eb. destruct Eb as [Hask Hdepth].
  cbn [no_depth yes_depth yes_ask derive_no_side].
  split; [reflexivity|].
  destruct (asks book) as [|a rest] eqn:Ebook; [intros H; contradiction|].
  intros _.
  destruct (apply_asks_sets book o o1 a rest Ea Ebook) as (best & Hbest & Hp & Hs).
  destruct (best_level_split a rest best Hbest) as (pre & post & kb & Heq & Hk & Hpre & Hpost).
  exists pre, best, post, kb. rewrite Hask, Hdepth. auto 10.
Qed.

(** The loop over the outcomes, when it completes: the outcome at
    position [j] is left alone without a token id, and otherwise went
    through the loop body with the book of its own fetch, the one
    numbered by the outcomes with a token id before it. *)
Lemma enrich_outcomes_nth (outs : list Outcome) :
  forall books outs',
    enrich_outcomes books outs = (outs', None) ->
    length outs' = length outs
    /\ forall j o,
         nth_error outs j = Some o ->
         exists o',
           nth_error outs' j = Some o'
           /\ if truthy (Some (token_id o))
              then enrich_outcome
                     (nth (length (List.filter
                                     (fun x => truthy (Some (token_id x)))
                                     (firstn j outs)))
                          books empty_book) o = (o', None)
              else o' = o.
Proof.
  induction outs as [|o0 rest IH]; intros books outs' Hrun;
    cbn [enrich_outcomes] in Hrun.
  - injection Hrun as <-. split; [reflexivity|]. intros [|j] o; discriminate.
  - destruct (truthy (Some (token_id o0))) eqn:Etok; cbn [negb] in Hrun.
    + destruct (enrich_outcome _ o0) as [o1 [e|]] eqn:Eo; [discriminate|].
      destruct (enrich_outcomes (tl books) rest) as [rest' r] eqn:Er.
      injection Hrun as <- ->.
      destruct (IH _ _ Er) as [Hlen Hall].
      split; [cbn; rewrite Hlen; reflexivity|].
      intros [|j] o Hj; cbn [nth_error] in Hj |- *.
      * injection Hj as <-. exists o1. split; [reflexivity|].
        rewrite Etok. cbn [firstn List.filter length].
        destruct books; exact Eo.
      * destruct (Hall j o Hj) as (o' & Hj' & Ho'). exists o'.
        split; [exact Hj'|].
        destruct (truthy (Some (token_id o))); [|exact Ho'].
        cbn [firstn List.filter]. rewrite Etok. cbn [length].
        destruct books as [|b0 books]; cbn [tl nth] in *; [|exact Ho'].
        destruct (length _) in Ho'; exact Ho'.
    + destruct (enrich_outcomes books rest) as [rest' r] eqn:Er.
      injection Hrun as <- ->.
      destruct (IH _ _ Er) as [Hlen Hall].
      split; [cbn; rewrite Hlen; reflexivity|].
      intros [|j] o Hj; cbn [nth_error] in Hj |- *.
      * injection Hj as <-. exists o0. rewrite Etok. auto.
      * destruct (Hall j o Hj) as (o' & Hj' & Ho'). exists o'.
        split; [exact Hj'|].
        destruct (truthy (Some (token_id o))); [|exact Ho'].
        cbn [firstn List.filter]. rewrite Etok. exact Ho'.
Qed.

(** C10.  When [enrich_outcomes_with_orderbook] returns, it returns as
    many outcomes, in place.  An outcome that has a token id was updated
    from the book of its own fetch, the one numbered by the outcomes with
    a token id before it (the empty book when that fetch failed), and has
    [no_depth] equal to [yes_depth].  When that book has asks, both are
    the size of its best ask: the ask of lowest price, the first of them,
    whose price is the stored YES ask. *)
Theorem no_depth_is_yes_depth (books : list Book) (m m' : Market) :
  enrich_outcomes_with_orderbook books m = (m', None) ->
  length (outcomes m') = length (outcomes m)
  /\ forall j o,
       nth_error (outcomes m) j = Some o ->
       truthy (Some (token_id o)) = true ->
       let fetched := length (List.filter (fun x => truthy (Some (token_id x)))
                                          (firstn j (outcomes m))) in
       let book := nth fetched books empty_book in
       exists o',
         nth_error (outcomes m') j = Some o'
         /\ no_depth o' = yes_depth o'
         /\ (asks book <> [] ->
             exists pre best post kb,
               asks book = pre ++ best :: post
               /\ float_get (lv_price best) 999 = Ok kb
               /\ (forall l, In l pre ->
                     exists k, float_get (lv_price l) 999 = Ok k /\ kb < k)
               /\ (forall l, In l post ->
                     exists k, float_get (lv_price l) 999 = Ok k /\ kb <= k)
               /\ float_get (lv_price best) 0 = Ok (yes_ask o')
               /\ float_get (lv_size best) 0 = Ok (yes_depth o')
               /\ float_get (lv_size best) 0 = Ok (no_depth o')).
Proof.
  unfold enrich_outcomes_with_orderbook.
  destruct (enrich_outcomes books (outcomes m)) as [outs r] eqn:E.
  intros [= <- ->]. cbn [outcomes with_outcomes].
  destruct (enrich_outcomes_nth _ _ _ E) as [Hlen Hall].
  split; [exact Hlen|].
  intros j o Hj Htok. cbv zeta.
  destruct (Hall j o Hj) as (o' & Hj' & Ho'). rewrite Htok in Ho'.
  exists o'. split; [exact Hj'|].
  apply (enrich_outcome_depths _ _ _ Ho').
Qed.

(** The book has asks at 0.55 (120 contracts) and 0.52 (40 contracts):
    after enrichment both depths of the outcome are 40. *)
Lemma enriched_depths :
  map (fun o => (yes_ask o, yes_depth o, no_depth o))
      (outcomes (fst (enrich_outcomes_with_orderbook [Scenario.book_p]
                                                     Scenario.market_p)))
  = [(52 # 100, 40, 40)].
Proof. reflexivity. Qed.

(** On that book the best ask is the second one: the outcome gets its
    size, 40 and not 120, as both depths, and its price as YES ask. *)
Lemma no_depth_is_yes_depth_witness :
  exists o',
    nth_error (outcomes (fst (enrich_outcomes_with_orderbook [Scenario.book_p]
                                                             Scenario.market_p))) 0
    = Some o'
    /\ no_depth o' = yes_depth o'
    /\ yes_depth o' = 40 /\ yes_ask o' = 52 # 100.
Proof.
  destruct (no_depth_is_yes_depth [Scenario.book_p] Scenario.market_p
              (fst (enrich_outcomes_with_orderbook [Scenario.book_p]
                                                   Scenario.market_p)))
    as [_ Hall]; [reflexivity|].
  destruct (Hall 0%nat (new_outcome "Yes" (52 # 100) (48 # 100) "tok-yes"))
    as (o' & Hnth & Hsame & Hasks); [reflexivity | reflexivity |].
  exists o'. split; [exact Hnth|]. split; [exact Hsame|].
  destruct Hasks as (pre & best & post & kb & Heq & Hk & Hpre & Hpost & Hp & Hs & _);
    [discriminate|].
  cbn in Heq.
  destruct pre as [|l1 [|l2 pre]].
  - cbn in Heq. injection Heq as <- <-. exfalso.
    destruct (Hpost (mkLevel (Num (52 # 100)) (Num 40)) (or_introl eq_refl))
      as (k & Hk' & Hle).
    cbn in Hk, Hk'. injection Hk as <-. injection Hk' as <-.
    apply Qle_bool_iff in Hle. vm_compute in Hle. discriminate.
  - cbn in Heq. injection Heq as _ <- _. cbn in Hp, Hs.
    injection Hp as <-. injection Hs as <-. split; reflexivity.
  - cbn in Heq. injection Heq as _ _ Heq. destruct pre; discriminate Heq.
Defined.


(** ** Parsing *)

Lemma parse_outcome_ok (mkt : RawMarket) (i : nat) (nm : string) (o : Outcome) :
  parse_outcome mkt i nm = Ok o ->
  match nth_error (r_outcomePrices mkt) i with
  | Some v => v = Num (yes_price o)
  | None => yes_price o = 0
  end
  /\ no_price o = (if Qeq_bool (yes_price o) 0 then 0
                   else round_dp 4 (1 - yes_price o)).
Proof.
  unfold parse_outcome.
  destruct (nth_error (r_outcomePrices mkt) i) as [[|q|]|]; cbn [float_of bind];
    try discriminate; intros [= <-]; cbn; auto.
Qed.

(** The loop of [_parse_outcomes]: one outcome per name, in order. *)
Lemma parse_outcomes_from_spec (mkt : RawMarket) (names : list string) :
  forall i acc outs,
    parse_outcomes_from mkt i names acc = Ok outs ->
    exists news,
      outs = acc ++ news /\ length news = length names
      /\ forall j o, nth_error news j = Some o ->
                     exists nm, nth_error names j = Some nm
                                /\ parse_outcome mkt (i + j) nm = Ok o.
Proof.
  induction names as [|nm rest IH]; intros i acc outs Hrun; cbn in Hrun.
  - injection Hrun as <-. exists []. rewrite app_nil_r.
    repeat split. intros [|j] o; discriminate.
  - destruct (parse_outcome mkt i nm) as [o0|e] eqn:E0; cbn [bind] in Hrun;
      [|discriminate].
    destruct (IH _ _ _ Hrun) as (news & -> & Hlen & Hall).
    exists (o0 :: news). rewrite <- app_assoc. cbn.
    repeat split; [lia|].
    intros [|j] o Hj; cbn in Hj |- *.
    + injection Hj as <-. exists nm. rewrite Nat.add_0_r. auto.
    + destruct (Hall j o Hj) as (nm' & Hnm & Hp). exists nm'.
      replace (i + S j)%nat with (S i + j)%nat by lia. auto.
Qed.

(** Prices are stored as they arrive: a raw price between 0 and 1 gives a
    stored pair between 0 and 1, and nothing is divided by 100. *)
Lemma parse_outcomes_range (mkt : RawMarket) (outs : list Outcome) :
  Forall Scenario.is_fraction (r_outcomePrices mkt) ->
  _parse_outcomes mkt = Ok outs ->
  forall o, In o outs -> 0 <= yes_price o <= 1 /\ 0 <= no_price o <= 1.
Proof.
  intros Hfrac Hrun o Hin. unfold _parse_outcomes in Hrun.
  destruct (parse_outcomes_from_spec _ _ _ _ _ Hrun) as (news & -> & _ & Hall).
  cbn in Hin. apply In_nth_error in Hin. destruct Hin as [j Hj].
  destruct (Hall j o Hj) as (nm & _ & Hp). cbn in Hp.
  apply parse_outcome_ok in Hp. destruct Hp as [Hy Hn].
  assert (0 <= yes_price o <= 1) as Hrange.
  { destruct (nth_error (r_outcomePrices mkt) j) as [v|] eqn:Ev.
    - subst v. apply nth_error_In in Ev.
      rewrite List.Forall_forall in Hfrac. apply (Hfrac _ Ev).
    - rewrite Hy. lra. }
  split; [exact Hrange|]. rewrite Hn.
  destruct (Qeq_bool (yes_price o) 0); [lra|].
  apply round_dp4_unit. lra.
Qed.


(** ** Fetching *)

Section FetchFacts.
Variable fromisoformat : string -> option Z.






End FetchFacts.

End PolymarketFacts.

(* ===================================================================== *)
(** * Parsing on both venues *)
(* ===================================================================== *)

Module ParsingFacts.

(** The cents rule of [_parse_market], with the [last_price] fallback. *)
Lemma parse_prices_rule (mkt : Kalshi.RawMarket) (y0 n0 l0 y n : Q) :
  float_or_0 (Kalshi.r_yes_price mkt) = Ok y0 ->
  float_or_0 (Kalshi.r_no_price mkt) = Ok n0 ->
  float_or_0 (Kalshi.r_last_price mkt) = Ok l0 ->
  0 <= l0 <= 100 ->
  Kalshi.parse_prices mkt = Ok (y, n) ->
  let cents := fun v : Q => if Qltb 1 v then v / 100 else v in
  (y0 == 0 -> n0 == 0 -> 0 < l0 ->
   y = cents l0 /\ n = round_dp 4 (1 - cents l0))
  /\ (~ (y0 == 0 /\ n0 == 0 /\ 0 < l0) -> y = cents y0 /\ n = cents n0).
Proof.
  intros Hy Hn Hl Hrange. unfold Kalshi.parse_prices.
  rewrite Hy, Hn. cbn [bind]. cbv zeta.
  destruct (Qeq_bool y0 0) eqn:Ey;
    [apply Qeq_bool_iff in Ey | apply Qeq_bool_neq in Ey]; cbn [andb].
  - destruct (Qeq_bool n0 0) eqn:En;
      [apply Qeq_bool_iff in En | apply Qeq_bool_neq in En]; cbn [andb].
    + rewrite Hl. cbn [bind]. cases_Qltb 0 l0; cbn [bind].
      * set (c := if Qltb 1 l0 then l0 / 100 else l0).
        assert (0 <= c <= 1) as Hc.
        { subst c. cases_Qltb 1 l0; unfold Qdiv; change (/ 100) with (1 # 100); lra. }
        assert (0 <= round_dp 4 (1 - c) <= 1) as Hr by (apply round_dp4_unit; lra).
        cases_Qltb 1 c; [lra|]. cases_Qltb 1 (round_dp 4 (1 - c)); [lra|].
        intros [= <- <-]. split; [auto|]. intros Hnot. exfalso. apply Hnot. auto.
      * intros [= <- <-]. split; [intros; lra|]. auto.
    + intros [= <- <-]. split; [intros _ H; contradiction|]. auto.
  - intros [= <- <-]. split; [intros H; contradiction|]. auto.
Qed.

(** C5, as amended.  Venue K: when the raw yes, no and last prices of a
    market object are each missing or within 0..100, a value above 1 is
    divided by 100 before storage: the stored prices are the raw yes and
    no prices under that rule or, when both are 0 and the last price is
    positive, the last price under that rule and its complement rounded
    to four places; both lie within 0..1.  Venue P: an outcome price is
    stored as it arrives, without any division by 100, with its
    complement rounded to four places, or 0 for a price of 0, as the NO
    price; when every raw outcome price is within 0..1, every stored
    outcome has both prices within 0..1. *)
Theorem stored_prices_in_unit_range :
  (forall fromisoformat mkt et m (y0 n0 l0 : Q),
      float_or_0 (Kalshi.r_yes_price mkt) = Ok y0 ->
      float_or_0 (Kalshi.r_no_price mkt) = Ok n0 ->
      float_or_0 (Kalshi.r_last_price mkt) = Ok l0 ->
      0 <= y0 <= 100 -> 0 <= n0 <= 100 -> 0 <= l0 <= 100 ->
      Kalshi._parse_market fromisoformat mkt et = Ok (Some m) ->
      let cents := fun v : Q => if Qltb 1 v then v / 100 else v in
      exists o,
        outcomes m = [o]
        /\ (y0 == 0 -> n0 == 0 -> 0 < l0 ->
            yes_price o = cents l0 /\ no_price o = round_dp 4 (1 - cents l0))
        /\ (~ (y0 == 0 /\ n0 == 0 /\ 0 < l0) ->
            yes_price o = cents y0 /\ no_price o = cents n0)
        /\ 0 <= yes_price o <= 1 /\ 0 <= no_price o <= 1)
  /\ (forall mkt outs j o,
        Polymarket._parse_outcomes mkt = Ok outs ->
        nth_error outs j = Some o ->
        yes_price o = match nth_error (Polymarket.r_outcomePrices mkt) j with
                      | Some (Num q) => q
                      | _ => 0
                      end
        /\ (yes_price o == 0 -> no_price o = 0)
        /\ (~ yes_price o == 0 -> no_price o = round_dp 4 (1 - yes_price o)))
  /\ (forall mkt outs,
        Forall Scenario.is_fraction (Polymarket.r_outcomePrices mkt) ->
        Polymarket._parse_outcomes mkt = Ok outs ->
        forall o, In o outs -> 0 <= yes_price o <= 1 /\ 0 <= no_price o <= 1).
Proof.
  split; [|split].
  - intros f mkt et m y0 n0 l0 Hy Hn Hl Ry Rn Rl Hm. cbv zeta.
    apply KalshiFacts.parse_market_some in Hm.
    destruct Hm as (_ & _ & y & n & Hp & Hout).
    exists (new_outcome (text (Kalshi.r_title mkt)) y n (text (Kalshi.r_ticker mkt))).
    split; [exact Hout|]. cbn [yes_price no_price new_outcome].
    destruct (parse_prices_rule mkt y0 n0 l0 y n Hy Hn Hl Rl Hp) as [Hlast Hown].
    split; [exact Hlast|]. split; [exact Hown|].
    apply (KalshiFacts.parse_prices_range mkt y n); [| | |exact Hp];
      unfold Scenario.in_cents.
    + destruct (Kalshi.r_yes_price mkt); cbn in Hy; try discriminate; [exact I|].
      injection Hy as ->. exact Ry.
    + destruct (Kalshi.r_no_price mkt); cbn in Hn; try discriminate; [exact I|].
      injection Hn as ->. exact Rn.
    + destruct (Kalshi.r_last_price mkt); cbn in Hl; try discriminate; [exact I|].
      injection Hl as ->. exact Rl.
  - intros mkt outs j o Hrun Hj. unfold Polymarket._parse_outcomes in Hrun.
    destruct (PolymarketFacts.parse_outcomes_from_spec _ _ _ _ _ Hrun)
      as (news & -> & _ & Hall).
    cbn in Hj. destruct (Hall j o Hj) as (nm & _ & Hp). cbn in Hp.
    apply PolymarketFacts.parse_outcome_ok in Hp. destruct Hp as [Hyes Hno].
    split; [|split].
    + destruct (nth_error (Polymarket.r_outcomePrices mkt) j) as [v|];
        [subst v; reflexivity | exact Hyes].
    + intros Hz. rewrite Hno. apply Qeq_bool_iff in Hz. rewrite Hz. reflexivity.
    + intros Hnz. rewrite Hno.
      destruct (Qeq_bool (yes_price o) 0) eqn:E; [|reflexivity].
      apply Qeq_bool_iff in E. contradiction.
  - intros mkt outs Hfrac Hrun o Ho.
    apply (PolymarketFacts.parse_outcomes_range mkt outs Hfrac Hrun o Ho).
Qed.

(** A Kalshi market quoted at 45 and 56 cents is stored at 0.45 and 0.56;
    a Polymarket market quoted at 0.55 and 0.45 is stored as such, its
    first outcome at 0.55 with 0.45 as NO price. *)
Lemma stored_prices_in_unit_range_witness :
  (exists m o, Kalshi._parse_market Scenario.no_dates Scenario.cents_k "" = Ok (Some m)
               /\ outcomes m = [o]
               /\ yes_price o == 45 # 100 /\ no_price o == 56 # 100
               /\ 0 <= yes_price o <= 1 /\ 0 <= no_price o <= 1)
  /\ (exists outs o, Polymarket._parse_outcomes Scenario.fractions_p = Ok outs
                     /\ nth_error outs 0 = Some o
                     /\ yes_price o == 55 # 100 /\ no_price o == 45 # 100)
  /\ (exists outs, Polymarket._parse_outcomes Scenario.fractions_p = Ok outs
                   /\ forall o, In o outs ->
                                0 <= yes_price o <= 1 /\ 0 <= no_price o <= 1).
Proof.
  destruct stored_prices_in_unit_range as (Hk & Hrule & Hp).
  split; [|split].
  - destruct (Kalshi._parse_market Scenario.no_dates Scenario.cents_k "")
      as [[m|]|e] eqn:E; try (vm_compute in E; discriminate).
    destruct (Hk Scenario.no_dates Scenario.cents_k EmptyString m 45 56 0)
      as (o & Hout & _ & Hown & Hrange);
      try reflexivity; try (split; DetectorFacts.Qeval); [exact E|].
    exists m, o. split; [reflexivity|]. split; [exact Hout|].
    destruct Hown as [Hyes Hno].
    { intros (H & _). apply Qeq_bool_iff in H. vm_compute in H. discriminate. }
    rewrite Hyes, Hno in *.
    split; [DetectorFacts.Qeval|]. split; [DetectorFacts.Qeval | exact Hrange].
  - destruct (Polymarket._parse_outcomes Scenario.fractions_p) as [outs|e] eqn:E;
      [|vm_compute in E; discriminate].
    destruct (nth_error outs 0) as [o|] eqn:Eo;
      [|vm_compute in E; injection E as <-; discriminate].
    exists outs, o. split; [reflexivity|]. split; [exact Eo|].
    destruct (Hrule Scenario.fractions_p outs 0%nat o E Eo) as (Hyes & _ & Hno).
    cbn in Hyes. rewrite Hno; rewrite Hyes; [split|]; DetectorFacts.Qeval.
  - destruct (Polymarket._parse_outcomes Scenario.fractions_p) as [outs|e] eqn:E;
      [|vm_compute in E; discriminate].
    exists outs. split; [reflexivity|].
    apply (Hp Scenario.fractions_p outs); [|exact E].
    repeat constructor; DetectorFacts.Qeval.
Defined.

(** C5 as stated fails on venue P: outcome prices that arrive as 55 and 45
    are stored as 55 and 45, with complements -54 and -44. *)
Lemma polymarket_cents_are_not_divided :
  exists ms m o,
    Polymarket.fetch_active_markets Scenario.no_dates Config.settings
      [Ok (mkResponse 200 (Some [Scenario.event_p [Scenario.cents_p]]))] None
    = Ok ms
    /\ In m ms /\ In o (outcomes m)
    /\ yes_price o == 55 /\ no_price o == - (54)
    /\ ~ (yes_price o <= 1) /\ ~ (0 <= no_price o).
Proof.
  destruct (Polymarket.fetch_active_markets Scenario.no_dates Config.settings
              [Ok (mkResponse 200 (Some [Scenario.event_p [Scenario.cents_p]]))] None)
    as [[|m ms]|e] eqn:E; try (vm_compute in E; discriminate).
  destruct (outcomes m) as [|o outs] eqn:Eo.
  { vm_compute in E. injection E as <- _. discriminate. }
  exists (m :: ms), m, o.
  split; [reflexivity|]. split; [left; reflexivity|].
  split; [rewrite Eo; left; reflexivity|].
  vm_compute in E. injection E as <- _. injection Eo as <- _.
  repeat split; DetectorFacts.Qeval.
Qed.

(** ** The series sweep of venue K *)

Section SeriesSweep.
Variable fromisoformat : string -> option Z.







End SeriesSweep.




End ParsingFacts.

(* ===================================================================== *)
(** * Properties of the matcher *)
(* ===================================================================== *)

Module MatcherFacts.
Import Matcher.

(** C2 fails on the Polymarket side.  The overrides map K2 to P9.  In a
    first scan K2 is not listed and K1 is matched with P9 by title, which
    the cache records.  In the second scan K2 is listed: the override
    pairs K2 with P9 and withholds P9 from the fuzzy titles, but K1 is
    taken from the cache with P9 all the same.  P9 is in two pairs. *)
Theorem cached_pair_reuses_overridden_market :
  Scenario.pair_ids (matched Scenario.first_scan) = [("K1", "P9")]%string
  /\ Scenario.pair_ids (matched Scenario.second_scan)
     = [("K2", "P9"); ("K1", "P9")]%string
  /\ List.NoDup (Scenario.kalshi_ids (matched Scenario.second_scan))
  /\ ~ List.NoDup (Scenario.polymarket_ids (matched Scenario.second_scan)).
Proof.
  split; [vm_compute; reflexivity|].
  split; [vm_compute; reflexivity|].
  assert (Scenario.kalshi_ids (matched Scenario.second_scan) = ["K2"; "K1"]%string)
    as -> by (vm_compute; reflexivity).
  assert (Scenario.polymarket_ids (matched Scenario.second_scan)
          = ["P9"; "P9"]%string) as -> by (vm_compute; reflexivity).
  split.
  - constructor; [intros [H | []]; discriminate|].
    constructor; [intros []|]. constructor.
  - intros H. inversion H as [|x l Hnotin _]. apply Hnotin. left. reflexivity.
Qed.

(** The second scan does not depend on the scorer: neither market reaches
    the extraction. *)
Lemma second_scan_for_any_scorer (token_sort_ratio : string -> string -> Q) :
  Scenario.pair_ids
    (matched (match_ token_sort_ratio (matcher_after Scenario.first_scan)
                     [Scenario.k1; Scenario.k2] [Scenario.p9; Scenario.p5]))
  = [("K2", "P9"); ("K1", "P9")]%string.
Proof. vm_compute. reflexivity. Qed.

(** Two overrides that name the same Polymarket market give two pairs
    with it, in a single scan with an empty cache. *)
Lemma overrides_sharing_a_market (token_sort_ratio : string -> string -> Q) :
  Scenario.pair_ids
    (matched (match_ token_sort_ratio Scenario.doubly_overriding
                     [Scenario.k1; Scenario.k2] [Scenario.p9; Scenario.p5]))
  = [("K1", "P9"); ("K2", "P9")]%string.
Proof. vm_compute. reflexivity. Qed.

(** ** The cache *)

Section CacheFacts.
Variable token_sort_ratio : string -> string -> Q.

(** A market with a cache entry takes the cached branch: the candidate
    is the cached pair at its cached score, whatever the Polymarket
    markets of the scan are, and nothing is extracted. *)
Lemma fuzzy_step_cached mt ovk poly_list poly_titles st km cached :
  id km ∉ ovk -> id km ∉ _excluded mt ->
  fz_cache st !! id km = Some cached ->
  fuzzy_step token_sort_ratio mt ovk poly_list poly_titles st km
  = mkFuzzy (keep_best (id km, id (polymarket_market cached))
                       (similarity_score cached) cached (best_matches st))
            (fz_cache st) (extracted st).
Proof.
  intros Hov Hex Hc. unfold fuzzy_step.
  destruct (decide (id km ∈ ovk)); [contradiction|].
  destruct (decide (id km ∈ _excluded mt)); [contradiction|].
  rewrite Hc. reflexivity.
Qed.

Lemma fuzzy_step_keeps_cached mt ovk poly_list poly_titles st km (k : string) :
  is_Some (fz_cache st !! k) /\ ~ In k (extracted st) ->
  let st' := fuzzy_step token_sort_ratio mt ovk poly_list poly_titles st km in
  is_Some (fz_cache st' !! k) /\ ~ In k (extracted st').
Proof.
  intros [Hk Hlog]. cbv zeta. unfold fuzzy_step.
  destruct (decide (id km ∈ ovk)); [auto|].
  destruct (decide (id km ∈ _excluded mt)); [auto|].
  destruct (fz_cache st !! id km) as [cached|] eqn:Ec; [cbn; auto|].
  assert (id km <> k) as Hne.
  { intros Heq. rewrite Heq in Ec. rewrite Ec in Hk.
    destruct Hk as [? Hk]. discriminate. }
  assert (~ In k (extracted st ++ [id km])) as Hlog'.
  { intros Hin. apply in_app_iff in Hin. destruct Hin as [Hin | [Hin | []]]; auto. }
  destruct (extractOne _ _ _ _) as [[[choice score] idx]|]; [|cbn; auto].
  destruct (nth_error poly_list idx) as [pm|]; [|cbn; auto].
  destruct (improves _ _ _); cbn; [|auto].
  split; [|exact Hlog'].
  apply lookup_insert_is_Some'. right. exact Hk.
Qed.

Lemma fuzzy_loop_keeps_cached mt ovk poly_list poly_titles kms (k : string) :
  forall st,
    is_Some (fz_cache st !! k) /\ ~ In k (extracted st) ->
    let st' := fold_left (fuzzy_step token_sort_ratio mt ovk poly_list poly_titles)
                         kms st in
    is_Some (fz_cache st' !! k) /\ ~ In k (extracted st').
Proof.
  induction kms as [|km kms IH]; intros st H; cbn; [exact H|].
  apply IH. apply fuzzy_step_keeps_cached. exact H.
Qed.

End CacheFacts.

(** The cached branch does not look at the markets of the scan.  A first
    scan lists P9 and caches K1 with it.  In the next scan P9 is gone and
    P7, with the very title of K1, is listed: the cached pair with P9 is
    returned although P9 is not among the markets of the scan, and no
    extraction is run for K1, which would have found P7 with score 100. *)
Lemma cached_pair_passes_through :
  Scenario.pair_ids (matched Scenario.scan_with_p9) = [("K1", "P9")]%string
  /\ extraction_log Scenario.scan_with_p9 = ["K1"%string]
  /\ Scenario.pair_ids (matched Scenario.scan_without_p9) = [("K1", "P9")]%string
  /\ ~ In "P9"%string (map id [Scenario.p7])
  /\ extraction_log Scenario.scan_without_p9 = []
  /\ option_map (fun r => (snd (fst r), snd r))
       (extractOne Scenario.exact_ratio (_normalize (title Scenario.k1))
                   [_normalize (title Scenario.p7)] 80)
     = Some (100, 0%nat).
Proof.
  repeat split; try (vm_compute; reflexivity).
  intros [H | []]. discriminate.
Qed.

(** ** Association lists *)

Section AListFacts.
Context {K V : Type} `{EqDecision K}.

Lemma alist_set_in (k : K) (v : V) (l : list (K * V)) (x : K * V) :
  In x (alist_set k v l) -> x = (k, v) \/ In x l.
Proof.
  induction l as [|[k' v'] r IH]; cbn.
  - intros [<- | []]. auto.
  - destruct (decide (k = k')); cbn; intros [<- | Hin]; auto.
    destruct (IH Hin); auto.
Qed.

Lemma alist_set_keys_nodup (k : K) (v : V) (l : list (K * V)) :
  List.NoDup (map fst l) -> List.NoDup (map fst (alist_set k v l)).
Proof.
  induction l as [|[k' v'] r IH]; cbn; intros Hnd.
  - constructor; [intros [] | constructor].
  - inversion Hnd as [|? ? Hnotin Hnd']; subst.
    destruct (decide (k = k')) as [-> | Hne]; cbn.
    + constructor; assumption.
    + constructor; [|apply IH; exact Hnd'].
      intros Hin. apply in_map_iff in Hin. destruct Hin as (x & Hx & Hin).
      apply alist_set_in in Hin. destruct Hin as [-> | Hin].
      * cbn in Hx. congruence.
      * apply Hnotin. rewrite <- Hx. apply in_map. exact Hin.
Qed.

(** Setting a key keeps an image of the entries free of duplicates when
    the image of the new entry is new. *)
Lemma alist_set_image_nodup {B} (g : K * V -> B) (k : K) (v : V)
    (l : list (K * V)) :
  ~ In (g (k, v)) (map g l) -> List.NoDup (map g l) ->
  List.NoDup (map g (alist_set k v l)).
Proof.
  induction l as [|[k' v'] r IH]; cbn; intros Hnew Hnd.
  - constructor; [intros [] | constructor].
  - inversion Hnd as [|? ? Hnotin Hnd']; subst.
    destruct (decide (k = k')) as [-> | Hne]; cbn.
    + constructor; [|exact Hnd']. intros Hin. apply Hnew. right. exact Hin.
    + constructor.
      * intros Hin. apply in_map_iff in Hin. destruct Hin as (x & Hx & Hin).
        apply alist_set_in in Hin. destruct Hin as [-> | Hin].
        -- apply Hnew. left. symmetry. exact Hx.
        -- apply Hnotin. rewrite <- Hx. apply in_map. exact Hin.
      * apply IH; [|exact Hnd']. intros Hin. apply Hnew. right. exact Hin.
Qed.

End AListFacts.

Lemma keep_best_cases {K} `{EqDecision K} (k : K) (score : Q) (m : MatchedMarket)
    (d : list (K * Scored)) :
  keep_best k score m d = d \/ keep_best k score m d = alist_set k (score, m) d.
Proof.
  unfold keep_best. destruct (alist_get k d) as [[s0 m0]|]; [|auto].
  destruct (Qltb s0 score); auto.
Qed.

Lemma keep_best_in {K} `{EqDecision K} (k : K) (score : Q) (m : MatchedMarket)
    (d : list (K * Scored)) (x : K * Scored) :
  In x (keep_best k score m d) -> x = (k, (score, m)) \/ In x d.
Proof.
  destruct (keep_best_cases k score m d) as [-> | ->]; [auto|].
  apply alist_set_in.
Qed.

Lemma keep_best_keys_nodup {K} `{EqDecision K} (k : K) (score : Q)
    (m : MatchedMarket) (d : list (K * Scored)) :
  List.NoDup (map fst d) -> List.NoDup (map fst (keep_best k score m d)).
Proof.
  destruct (keep_best_cases k score m d) as [-> | ->]; [auto|].
  apply alist_set_keys_nodup.
Qed.

Lemma keep_best_image_nodup {K B} `{EqDecision K} (g : K * Scored -> B) (k : K)
    (score : Q) (m : MatchedMarket) (d : list (K * Scored)) :
  ~ In (g (k, (score, m))) (map g d) -> List.NoDup (map g d) ->
  List.NoDup (map g (keep_best k score m d)).
Proof.
  destruct (keep_best_cases k score m d) as [-> | ->]; [auto|].
  apply alist_set_image_nodup.
Qed.

(** ** The Kalshi side of the result *)

Section Uniqueness.
Variable token_sort_ratio : string -> string -> Q.

Lemma insert_keyed (c : gmap string MatchedMarket) (km pm : Market) (score : Q) :
  Inv.cache_keyed c ->
  Inv.cache_keyed (<[ id km := _build_match km pm score ]> c).
Proof.
  intros Hc k m Hk. destruct (decide (id km = k)) as [<- | Hne].
  - rewrite lookup_insert_eq in Hk. injection Hk as <-. reflexivity.
  - rewrite lookup_insert_ne in Hk by exact Hne. apply Hc. exact Hk.
Qed.

(** The override loop: the pairs it builds have distinct Kalshi ids, all
    recorded in [overridden_kalshi]. *)
Lemma override_loop_kalshi overrides by_id (kms : list Market) :
  forall st,
    List.NoDup (map id kms) ->
    (forall m, In m (override_matches st) ->
               ~ In (id (kalshi_market m)) (map id kms)) ->
    List.NoDup (Scenario.kalshi_ids (override_matches st)) ->
    (forall m, In m (override_matches st) ->
               id (kalshi_market m) ∈ overridden_kalshi st) ->
    Inv.cache_keyed (ov_cache st) ->
    let st' := fold_left (override_step overrides by_id) kms st in
    List.NoDup (Scenario.kalshi_ids (override_matches st'))
    /\ (forall m, In m (override_matches st') ->
                  id (kalshi_market m) ∈ overridden_kalshi st')
    /\ Inv.cache_keyed (ov_cache st').
Proof.
  induction kms as [|km kms IH]; intros st Hnd Hfresh Hu Hov Hc; cbn [fold_left].
  - auto.
  - cbn in Hnd. inversion Hnd as [|? ? Hkm Hnd']; subst.
    apply IH; clear IH; try exact Hnd'.
    + intros m Hm Hin. unfold override_step in Hm.
      destruct (overrides !! id km) as [target|];
        [|apply (Hfresh m Hm); right; exact Hin].
      destruct (by_id !! target) as [pm|];
        [|apply (Hfresh m Hm); right; exact Hin].
      cbn in Hm. apply in_app_iff in Hm. destruct Hm as [Hm | [<- | []]].
      * apply (Hfresh m Hm). right. exact Hin.
      * cbn in Hin. contradiction.
    + unfold override_step.
      destruct (overrides !! id km) as [target|]; [|exact Hu].
      destruct (by_id !! target) as [pm|]; [|exact Hu].
      cbn. unfold Scenario.kalshi_ids. rewrite map_app.
      apply NoDup_app_disjoint; [exact Hu | | ].
      * constructor; [intros [] | constructor].
      * intros x Hx [<- | []]. cbn in Hx.
        apply in_map_iff in Hx. destruct Hx as (m & Em & Hm).
        apply (Hfresh m Hm). left. symmetry. exact Em.
    + intros m Hm. unfold override_step in Hm |- *.
      destruct (overrides !! id km) as [target|]; [|apply Hov; exact Hm].
      destruct (by_id !! target) as [pm|]; [|apply Hov; exact Hm].
      cbn in Hm |- *. apply in_app_iff in Hm. destruct Hm as [Hm | [<- | []]].
      * apply elem_of_union. right. apply Hov. exact Hm.
      * apply elem_of_union. left. apply elem_of_singleton. reflexivity.
    + unfold override_step.
      destruct (overrides !! id km) as [target|]; [|exact Hc].
      destruct (by_id !! target) as [pm|]; [|exact Hc].
      cbn. apply insert_keyed. exact Hc.
Qed.

(** The fuzzy loop: every candidate is filed under the ids of its own two
    markets, none of them an overridden Kalshi market. *)
Lemma fuzzy_step_candidates mt ovk poly_list poly_titles st km :
  Inv.cache_keyed (fz_cache st) ->
  (forall e, In e (best_matches st) -> Inv.candidate_ok ovk e) ->
  let st' := fuzzy_step token_sort_ratio mt ovk poly_list poly_titles st km in
  Inv.cache_keyed (fz_cache st')
  /\ (forall e, In e (best_matches st') -> Inv.candidate_ok ovk e).
Proof.
  intros Hc Hb. cbv zeta. unfold fuzzy_step.
  destruct (decide (id km ∈ ovk)) as [|Hov]; [auto|].
  destruct (decide (id km ∈ _excluded mt)); [auto|].
  destruct (fz_cache st !! id km) as [cached|] eqn:Ec.
  - cbn. split; [exact Hc|]. intros e He.
    apply keep_best_in in He. destruct He as [-> | He]; [|apply Hb; exact He].
    repeat split; cbn; [apply (Hc _ _ Ec) | exact Hov].
  - destruct (extractOne _ _ _ _) as [[[choice score] idx]|]; [|cbn; auto].
    destruct (nth_error poly_list idx) as [pm|]; [|cbn; auto].
    destruct (improves _ _ _); cbn; [|auto].
    split; [apply insert_keyed; exact Hc|].
    intros e He. apply alist_set_in in He.
    destruct He as [-> | He]; [|apply Hb; exact He].
    repeat split; cbn; exact Hov.
Qed.

Lemma fuzzy_loop_candidates mt ovk poly_list poly_titles (kms : list Market) :
  forall st,
    Inv.cache_keyed (fz_cache st) ->
    (forall e, In e (best_matches st) -> Inv.candidate_ok ovk e) ->
    let st' := fold_left (fuzzy_step token_sort_ratio mt ovk poly_list poly_titles)
                         kms st in
    Inv.cache_keyed (fz_cache st')
    /\ (forall e, In e (best_matches st') -> Inv.candidate_ok ovk e).
Proof.
  induction kms as [|km kms IH]; intros st Hc Hb; cbn [fold_left]; [auto|].
  destruct (fuzzy_step_candidates mt ovk poly_list poly_titles st km Hc Hb)
    as [Hc' Hb'].
  apply IH; assumption.
Qed.

(** The first reduction: one entry per Kalshi id. *)
Lemma kalshi_best_entries ovk (best : list ((string * string) * Scored)) :
  (forall e, In e best -> Inv.candidate_ok ovk e) ->
  List.NoDup (map fst (kalshi_best best))
  /\ (forall e, In e (kalshi_best best) -> Inv.kalshi_entry_ok ovk e).
Proof.
  unfold kalshi_best.
  assert (forall (d : list (string * Scored)),
             (forall e, In e best -> Inv.candidate_ok ovk e) ->
             List.NoDup (map fst d) ->
             (forall e, In e d -> Inv.kalshi_entry_ok ovk e) ->
             let d' := fold_left (fun d '((kid, _), (score, m)) =>
                                    keep_best kid score m d) best d in
             List.NoDup (map fst d')
             /\ (forall e, In e d' -> Inv.kalshi_entry_ok ovk e)) as Hloop.
  { induction best as [|[[kid pid] [score m]] best IH]; intros d Hb Hnd Hd;
      cbn [fold_left]; [auto|].
    apply IH.
    - intros e He. apply Hb. right. exact He.
    - apply keep_best_keys_nodup. exact Hnd.
    - intros e He. apply keep_best_in in He.
      destruct He as [-> | He]; [|apply Hd; exact He].
      destruct (Hb ((kid, pid), (score, m))) as (Hk & _ & Hov);
        [left; reflexivity|].
      split; cbn in *; assumption. }
  intros Hb. apply Hloop; [exact Hb | constructor | intros e []].
Qed.

(** The second reduction: one entry per Polymarket id, and the Kalshi
    markets of the entries are still distinct. *)
Lemma poly_best_entries ovk (kb : list (string * Scored)) :
  List.NoDup (map fst kb) ->
  (forall e, In e kb -> Inv.kalshi_entry_ok ovk e) ->
  List.NoDup (map fst (poly_best kb))
  /\ List.NoDup (map (fun e : string * Scored => id (kalshi_market e.2.2))
                     (poly_best kb))
  /\ (forall e, In e (poly_best kb) -> Inv.poly_entry_ok ovk e).
Proof.
  unfold poly_best.
  set (kid_of := fun e : string * Scored => id (kalshi_market e.2.2)).
  assert (forall (d : list (string * Scored)),
             List.NoDup (map fst kb) ->
             (forall e, In e kb -> Inv.kalshi_entry_ok ovk e) ->
             List.NoDup (map fst d) ->
             List.NoDup (map kid_of d) ->
             (forall e, In e d -> Inv.poly_entry_ok ovk e) ->
             (forall e, In e d -> ~ In (kid_of e) (map fst kb)) ->
             let d' := fold_left (fun d '(_, (score, m)) =>
                                    keep_best (id (polymarket_market m)) score m d)
                                 kb d in
             List.NoDup (map fst d') /\ List.NoDup (map kid_of d')
             /\ (forall e, In e d' -> Inv.poly_entry_ok ovk e)) as Hloop.
  { induction kb as [|[kid [score m]] kb IH]; intros d Hnd Hkb Hkeys Hkids Hd Hfresh;
      cbn [fold_left]; [auto|].
    cbn in Hnd. inversion Hnd as [|? ? Hkid Hnd']; subst.
    destruct (Hkb (kid, (score, m))) as [Hk Hov]; [left; reflexivity|].
    cbn in Hk, Hov.
    apply IH; try exact Hnd'.
    - intros e He. apply Hkb. right. exact He.
    - apply keep_best_keys_nodup. exact Hkeys.
    - apply keep_best_image_nodup; [|exact Hkids].
      unfold kid_of at 1. cbn. rewrite Hk. intros Hin.
      apply in_map_iff in Hin. destruct Hin as (e & Ee & He).
      apply (Hfresh e He). left. symmetry. exact Ee.
    - intros e He. apply keep_best_in in He.
      destruct He as [-> | He]; [|apply Hd; exact He].
      split; cbn; [reflexivity | rewrite Hk; exact Hov].
    - intros e He Hin. apply keep_best_in in He. destruct He as [-> | He].
      + unfold kid_of in Hin. cbn in Hin. rewrite Hk in Hin. contradiction.
      + apply (Hfresh e He). right. exact Hin. }
  intros Hnd Hkb.
  apply Hloop; [exact Hnd | exact Hkb | constructor | constructor
                | intros e [] | intros e []].
Qed.

(** With distinct Kalshi ids in the input and a cache filed under the right
    ids, no Kalshi id is in two pairs of the result, and the cache stays
    filed under the right ids. *)
Lemma kalshi_ids_unique (mt : MarketMatcher)
    (kalshi_markets polymarket_markets : list Market) :
  List.NoDup (map id kalshi_markets) ->
  Inv.cache_keyed (_cache mt) ->
  let run := match_ token_sort_ratio mt kalshi_markets polymarket_markets in
  List.NoDup (Scenario.kalshi_ids (matched run))
  /\ Inv.cache_keyed (_cache (matcher_after run)).
Proof.
  intros Hnd Hc. cbv zeta. unfold match_.
  destruct (is_nil kalshi_markets || is_nil polymarket_markets);
    [cbn; split; [constructor | exact Hc]|].
  pose proof (override_loop_kalshi (_manual_overrides mt)
                (poly_by_id polymarket_markets) kalshi_markets
                (mkOverrides [] (_cache mt) ∅ ∅) Hnd) as Hover.
  cbn [override_matches ov_cache overridden_kalshi] in Hover.
  destruct Hover as (Hou & Hov & Hoc);
    [intros m [] | constructor | intros m [] | exact Hc |].
  set (ov := fold_left _ kalshi_markets (mkOverrides [] (_cache mt) ∅ ∅)) in *.
  match goal with
  | |- context [is_nil ?titles] => destruct (is_nil titles); [cbn; auto|]
  end.
  match goal with
  | |- context [fold_left (fuzzy_step _ _ ?ovk ?pl ?pt) _ ?st0] =>
      destruct (fuzzy_loop_candidates mt ovk pl pt kalshi_markets st0)
        as [Hfc Hfb]; [exact Hoc | intros e [] |];
      set (fz := fold_left (fuzzy_step token_sort_ratio mt ovk pl pt)
                           kalshi_markets st0) in *
  end.
  cbn [matched matcher_after _cache with_cache]. split; [|exact Hfc].
  destruct (kalshi_best_entries _ _ Hfb) as [Hkn Hke].
  destruct (poly_best_entries _ _ Hkn Hke) as (_ & Hpk & Hpe).
  unfold Scenario.kalshi_ids.
  eapply Permutation_NoDup;
    [apply Permutation_map; symmetry; apply sort_desc_perm|].
  rewrite map_app. apply NoDup_app_disjoint.
  - exact Hou.
  - rewrite map_map. exact Hpk.
  - intros x Hx Hin.
    apply in_map_iff in Hx. destruct Hx as (m & <- & Hm).
    rewrite map_map in Hin. apply in_map_iff in Hin.
    destruct Hin as (e & Ee & He).
    destruct (Hpe e He) as [_ Hnot]. apply Hnot.
    exact (eq_ind_r (fun t : string => t ∈ overridden_kalshi ov) (Hov m Hm) Ee).
Qed.

(** ** The Polymarket side, from an empty cache *)

Lemma poly_by_id_keyed (pms : list Market) :
  forall (t : string) pm, poly_by_id pms !! t = Some pm -> id pm = t.
Proof.
  unfold poly_by_id.
  assert (forall (d : gmap string Market),
             (forall (t : string) pm, d !! t = Some pm -> id pm = t) ->
             forall (t : string) pm,
               fold_left (fun d pm => <[ id pm := pm ]> d) pms d !! t = Some pm ->
               id pm = t) as Hloop.
  { induction pms as [|p pms IH]; intros d Hd; cbn [fold_left]; [exact Hd|].
    apply IH. intros t pm Ht. destruct (decide (id p = t)) as [<- | Hne].
    - rewrite lookup_insert_eq in Ht. injection Ht as <-. reflexivity.
    - rewrite lookup_insert_ne in Ht by exact Hne. apply Hd. exact Ht. }
  apply Hloop. intros t pm Ht. rewrite lookup_empty in Ht. discriminate.
Qed.

Lemma override_step_cases overrides by_id (st : Overrides) (km : Market) :
  override_step overrides by_id st km = st
  \/ exists target pm,
       overrides !! id km = Some target /\ by_id !! target = Some pm
       /\ override_step overrides by_id st km
          = {| override_matches := override_matches st ++ [_build_match km pm 100];
               ov_cache := <[ id km := _build_match km pm 100 ]> (ov_cache st);
               overridden_kalshi := {[ id km ]} ∪ overridden_kalshi st;
               overridden_poly := {[ id pm ]} ∪ overridden_poly st |}.
Proof.
  unfold override_step.
  destruct (overrides !! id km) as [target|] eqn:Et; [|auto].
  destruct (by_id !! target) as [pm|] eqn:Ep; [|auto].
  right. exists target, pm. split; [reflexivity|]. split; [exact Ep | reflexivity].
Qed.

(** The override loop under injective overrides: the pairs it builds have
    distinct Polymarket ids, all recorded in [overridden_poly], and it
    writes the cache only under overridden Kalshi ids. *)
Lemma override_loop_poly overrides by_id (kms : list Market) :
  Inv.overrides_injective overrides ->
  (forall (t : string) pm, by_id !! t = Some pm -> id pm = t) ->
  forall st,
    List.NoDup (map id kms) ->
    (forall m, In m (override_matches st) ->
               ~ In (id (kalshi_market m)) (map id kms)) ->
    (forall m, In m (override_matches st) ->
               overrides !! id (kalshi_market m) = Some (id (polymarket_market m))) ->
    List.NoDup (Scenario.polymarket_ids (override_matches st)) ->
    (forall m, In m (override_matches st) ->
               id (polymarket_market m) ∈ overridden_poly st) ->
    (forall k : string, is_Some (ov_cache st !! k) -> k ∈ overridden_kalshi st) ->
    let st' := fold_left (override_step overrides by_id) kms st in
    List.NoDup (Scenario.polymarket_ids (override_matches st'))
    /\ (forall m, In m (override_matches st') ->
                  id (polymarket_market m) ∈ overridden_poly st')
    /\ (forall k : string, is_Some (ov_cache st' !! k) -> k ∈ overridden_kalshi st').
Proof.
  intros Hinj Hby.
  induction kms as [|km kms IH]; intros st Hnd Hfresh Htarget Hu Hov Hc;
    cbn [fold_left]; [auto|].
  cbn in Hnd. inversion Hnd as [|? ? Hkm Hnd']; subst.
  destruct (override_step_cases overrides by_id st km)
    as [-> | (target & pm & Et & Ep & ->)].
  { apply IH; try assumption. intros m Hm Hin. apply (Hfresh m Hm). right. exact Hin. }
  pose proof (Hby _ _ Ep) as Hid.
  apply IH; clear IH; cbn [override_matches ov_cache overridden_kalshi overridden_poly];
    try exact Hnd'.
  - intros m Hm Hin. apply in_app_iff in Hm. destruct Hm as [Hm | [<- | []]].
    + apply (Hfresh m Hm). right. exact Hin.
    + cbn in Hin. contradiction.
  - intros m Hm. apply in_app_iff in Hm. destruct Hm as [Hm | [<- | []]].
    + apply Htarget. exact Hm.
    + cbn. rewrite Hid. exact Et.
  - unfold Scenario.polymarket_ids. rewrite map_app.
    apply NoDup_app_disjoint; [exact Hu | constructor; [intros [] | constructor] |].
    intros x Hx [<- | []]. cbn in Hx.
    apply in_map_iff in Hx. destruct Hx as (m & Em & Hm).
    pose proof (Htarget m Hm) as Hm'. rewrite Em, Hid in Hm'.
    apply (Hfresh m Hm). left. apply (Hinj _ _ _ Et Hm').
  - intros m Hm. apply in_app_iff in Hm. destruct Hm as [Hm | [<- | []]].
    + apply elem_of_union. right. apply Hov. exact Hm.
    + apply elem_of_union. left. apply elem_of_singleton. reflexivity.
  - intros k Hk. apply lookup_insert_is_Some' in Hk. destruct Hk as [<- | Hk].
    + apply elem_of_union. left. apply elem_of_singleton. reflexivity.
    + apply elem_of_union. right. apply Hc. exact Hk.
Qed.

(** The fuzzy loop: no candidate is paired with an overridden Polymarket
    market, provided the cache does not point to one. *)
Lemma fuzzy_step_clear mt ovk ovp poly_list poly_titles st km :
  (forall pm, In pm poly_list -> id pm ∉ ovp) ->
  Inv.cache_clear_of ovk ovp (fz_cache st) ->
  (forall e, In e (best_matches st) -> id (polymarket_market e.2.2) ∉ ovp) ->
  let st' := fuzzy_step token_sort_ratio mt ovk poly_list poly_titles st km in
  Inv.cache_clear_of ovk ovp (fz_cache st')
  /\ (forall e, In e (best_matches st') -> id (polymarket_market e.2.2) ∉ ovp).
Proof.
  intros Hpl Hc Hb. cbv zeta. unfold fuzzy_step.
  destruct (decide (id km ∈ ovk)) as [|Hov]; [auto|].
  destruct (decide (id km ∈ _excluded mt)); [auto|].
  destruct (fz_cache st !! id km) as [cached|] eqn:Ec.
  - cbn. split; [exact Hc|]. intros e He.
    apply keep_best_in in He. destruct He as [-> | He]; [|apply Hb; exact He].
    cbn. destruct (Hc _ _ Ec) as [Hin | Hout]; [contradiction | exact Hout].
  - destruct (extractOne _ _ _ _) as [[[choice score] idx]|]; [|cbn; auto].
    destruct (nth_error poly_list idx) as [pm|] eqn:En; [|cbn; auto].
    destruct (improves _ _ _); cbn; [|auto].
    apply nth_error_In in En. split.
    + intros k m Hk. destruct (decide (id km = k)) as [<- | Hne].
      * rewrite lookup_insert_eq in Hk. injection Hk as <-. right. cbn.
        apply Hpl. exact En.
      * rewrite lookup_insert_ne in Hk by exact Hne. apply (Hc _ _ Hk).
    + intros e He. apply alist_set_in in He.
      destruct He as [-> | He]; [|apply Hb; exact He].
      cbn. apply Hpl. exact En.
Qed.

Lemma fuzzy_loop_clear mt ovk ovp poly_list poly_titles (kms : list Market) :
  (forall pm, In pm poly_list -> id pm ∉ ovp) ->
  forall st,
    Inv.cache_clear_of ovk ovp (fz_cache st) ->
    (forall e, In e (best_matches st) -> id (polymarket_market e.2.2) ∉ ovp) ->
    let st' := fold_left (fuzzy_step token_sort_ratio mt ovk poly_list poly_titles)
                         kms st in
    forall e, In e (best_matches st') -> id (polymarket_market e.2.2) ∉ ovp.
Proof.
  intros Hpl. induction kms as [|km kms IH]; intros st Hc Hb; cbn [fold_left];
    [exact Hb|].
  destruct (fuzzy_step_clear mt ovk ovp poly_list poly_titles st km Hpl Hc Hb)
    as [Hc' Hb'].
  apply IH; assumption.
Qed.

(** Both reductions only select among the candidates. *)
Lemma kalshi_best_forall (P : Scored -> Prop)
    (best : list ((string * string) * Scored)) :
  (forall e, In e best -> P e.2) ->
  forall x, In x (kalshi_best best) -> P x.2.
Proof.
  unfold kalshi_best.
  assert (forall (d : list (string * Scored)),
             (forall e, In e best -> P e.2) ->
             (forall x, In x d -> P x.2) ->
             forall x,
               In x (fold_left (fun d '((kid, _), (score, m)) =>
                                  keep_best kid score m d) best d) ->
               P x.2) as Hloop.
  { induction best as [|[[kid pid] [score m]] best IH]; intros d Hb Hd;
      cbn [fold_left]; [exact Hd|].
    apply IH.
    - intros e He. apply Hb. right. exact He.
    - intros x Hx. apply keep_best_in in Hx. destruct Hx as [-> | Hx].
      + apply (Hb ((kid, pid), (score, m))). left. reflexivity.
      + apply Hd. exact Hx. }
  intros Hb. apply Hloop; [exact Hb | intros x []].
Qed.

Lemma poly_best_forall (P : Scored -> Prop) (kb : list (string * Scored)) :
  (forall e, In e kb -> P e.2) ->
  forall x, In x (poly_best kb) -> P x.2.
Proof.
  unfold poly_best.
  assert (forall (d : list (string * Scored)),
             (forall e, In e kb -> P e.2) ->
             (forall x, In x d -> P x.2) ->
             forall x,
               In x (fold_left (fun d '(_, (score, m)) =>
                                  keep_best (id (polymarket_market m)) score m d)
                               kb d) ->
               P x.2) as Hloop.
  { induction kb as [|[kid [score m]] kb IH]; intros d Hb Hd;
      cbn [fold_left]; [exact Hd|].
    apply IH.
    - intros e He. apply Hb. right. exact He.
    - intros x Hx. apply keep_best_in in Hx. destruct Hx as [-> | Hx].
      + apply (Hb (kid, (score, m))). left. reflexivity.
      + apply Hd. exact Hx. }
  intros Hb. apply Hloop; [exact Hb | intros x []].
Qed.

(** From an empty cache, with distinct Kalshi ids in the input and
    overrides that name distinct Polymarket ids, no Polymarket id is in two
    pairs of the result. *)
Lemma polymarket_ids_unique (mt : MarketMatcher)
    (kalshi_markets polymarket_markets : list Market) :
  List.NoDup (map id kalshi_markets) ->
  _cache mt = ∅ ->
  Inv.overrides_injective (_manual_overrides mt) ->
  List.NoDup (Scenario.polymarket_ids
                (matched (match_ token_sort_ratio mt kalshi_markets
                                 polymarket_markets))).
Proof.
  intros Hnd Hempty Hinj. unfold match_.
  destruct (is_nil kalshi_markets || is_nil polymarket_markets);
    [cbn; constructor|].
  assert (Inv.cache_keyed (_cache mt)) as Hkeyed.
  { rewrite Hempty. intros k m Hk. rewrite lookup_empty in Hk. discriminate. }
  pose proof (override_loop_kalshi (_manual_overrides mt)
                (poly_by_id polymarket_markets) kalshi_markets
                (mkOverrides [] (_cache mt) ∅ ∅) Hnd) as Hk.
  cbn [override_matches ov_cache overridden_kalshi] in Hk.
  destruct Hk as (_ & _ & Hoc);
    [intros m [] | constructor | intros m [] | exact Hkeyed |].
  pose proof (override_loop_poly (_manual_overrides mt)
                (poly_by_id polymarket_markets) kalshi_markets Hinj
                (poly_by_id_keyed polymarket_markets)
                (mkOverrides [] (_cache mt) ∅ ∅) Hnd) as Hp.
  cbn [override_matches ov_cache overridden_kalshi overridden_poly] in Hp.
  destruct Hp as (Hpu & Hpo & Hpc);
    [intros m [] | intros m [] | constructor | intros m []
     | intros k Hsome; rewrite Hempty, lookup_empty in Hsome;
       destruct Hsome; discriminate |].
  set (ov := fold_left _ kalshi_markets (mkOverrides [] (_cache mt) ∅ ∅)) in *.
  match goal with
  | |- context [is_nil ?titles] => destruct (is_nil titles); [exact Hpu|]
  end.
  cbn [matched].
  match goal with
  | |- context [fold_left (fuzzy_step _ _ ?ovk ?pl ?pt) _ ?st0] =>
      destruct (fuzzy_loop_candidates mt ovk pl pt kalshi_markets st0)
        as [_ Hfb]; [exact Hoc | intros e [] |];
      pose proof (fuzzy_loop_clear mt ovk (overridden_poly ov) pl pt
                    kalshi_markets) as Hclear;
      set (fz := fold_left (fuzzy_step token_sort_ratio mt ovk pl pt)
                           kalshi_markets st0) in *
  end.
  assert (forall e, In e (best_matches fz) ->
                    id (polymarket_market e.2.2) ∉ overridden_poly ov) as Hout.
  { apply Hclear.
    - intros pm Hpm. apply filter_In in Hpm. destruct Hpm as [_ Hpm].
      apply bool_decide_eq_true in Hpm. exact Hpm.
    - intros k m Hkm. left. apply Hpc. cbn [fz_cache] in Hkm. rewrite Hkm.
      eexists. reflexivity.
    - intros e []. }
  destruct (kalshi_best_entries _ _ Hfb) as [Hkn Hke].
  destruct (poly_best_entries _ _ Hkn Hke) as (Hpk & _ & Hpe).
  set (pb := poly_best (kalshi_best (best_matches fz))) in *.
  assert (forall x, In x pb -> id (polymarket_market x.2.2) ∉ overridden_poly ov)
    as Hpb_out.
  { apply (poly_best_forall
             (fun sm => id (polymarket_market sm.2) ∉ overridden_poly ov)).
    apply (kalshi_best_forall
             (fun sm => id (polymarket_market sm.2) ∉ overridden_poly ov)).
    exact Hout. }
  unfold Scenario.polymarket_ids.
  eapply Permutation_NoDup;
    [apply Permutation_map; symmetry; apply sort_desc_perm|].
  rewrite map_app. apply NoDup_app_disjoint.
  - exact Hpu.
  - rewrite map_map.
    rewrite (map_ext_in _ fst); [exact Hpk|].
    intros e He. destruct (Hpe e He) as [Hid _]. exact Hid.
  - intros x Hx Hin.
    apply in_map_iff in Hx. destruct Hx as (m & <- & Hm).
    rewrite map_map in Hin. apply in_map_iff in Hin.
    destruct Hin as (e & Ee & He).
    apply (Hpb_out e He).
    exact (eq_ind_r (fun t : string => t ∈ overridden_poly ov) (Hpo m Hm) Ee).
Qed.



End Uniqueness.

(** ** A market that has a cache entry *)

Section KeepBest.
Context {K : Type} `{EqDecision K}.

Lemma alist_set_has {V} (k : K) (v : V) (l : list (K * V)) :
  In (k, v) (alist_set k v l).
Proof.
  induction l as [|[k' v'] r IH]; cbn; [auto|].
  destruct (decide (k = k')); cbn; auto.
Qed.

Lemma alist_get_in {V} (k : K) (l : list (K * V)) (v : V) :
  alist_get k l = Some v -> In (k, v) l.
Proof.
  induction l as [|[k' v'] r IH]; cbn; [discriminate|].
  destruct (decide (k = k')) as [<- | Hne]; [intros [= <-]; auto | auto].
Qed.

(** [d[k] = v] leaves every entry in place but the one it replaces. *)
Lemma alist_set_keeps {V} (k : K) (v : V) (l : list (K * V)) (x : K * V) :
  In x l -> In x (alist_set k v l) \/ (x.1 = k /\ alist_get k l = Some x.2).
Proof.
  induction l as [|[k' v'] r IH]; cbn; [intros []|].
  destruct (decide (k = k')) as [<- | Hne]; cbn.
  - intros [<- | Hin]; auto.
  - intros [<- | Hin]; [auto|]. destruct (IH Hin); auto.
Qed.

Lemma keep_best_other (k : K) (score : Q) (m : MatchedMarket)
    (d : list (K * Scored)) (x : K * Scored) :
  In x d -> x.1 <> k -> In x (keep_best k score m d).
Proof.
  intros Hin Hne. destruct (keep_best_cases k score m d) as [-> | ->]; [exact Hin|].
  destruct (alist_set_keeps k (score, m) d x Hin) as [H | [H _]];
    [exact H | contradiction].
Qed.

(** After [keep_best] the key holds a score at least as high as the one
    offered. *)
Lemma keep_best_reaches (k : K) (score : Q) (m : MatchedMarket)
    (d : list (K * Scored)) :
  exists s' m', In (k, (s', m')) (keep_best k score m d) /\ score <= s'.
Proof.
  unfold keep_best. destruct (alist_get k d) as [[s0 m0]|] eqn:Eg.
  - cases_Qltb s0 score.
    + exists score, m. split; [apply alist_set_has | lra].
    + exists s0, m0. split; [apply alist_get_in; exact Eg | exact E].
  - exists score, m. split; [apply alist_set_has | lra].
Qed.

(** [keep_best] never lowers the score held under a key. *)
Lemma keep_best_mono (k : K) (score : Q) (m : MatchedMarket)
    (d : list (K * Scored)) (x : K * Scored) :
  In x d ->
  exists s' m', In (x.1, (s', m')) (keep_best k score m d) /\ x.2.1 <= s'.
Proof.
  intros Hin. destruct x as [kx [sx mx]]. cbn [fst snd].
  unfold keep_best. destruct (alist_get k d) as [[s0 m0]|] eqn:Eg.
  - cases_Qltb s0 score.
    + destruct (alist_set_keeps k (score, m) d _ Hin) as [H | [Hk Hg]].
      * exists sx, mx. split; [exact H | lra].
      * cbn in Hk, Hg.
        pose proof (eq_trans (eq_sym Eg) Hg) as Heq.
        injection Heq as <- <-. rewrite Hk.
        exists score, m. split; [apply alist_set_has | lra].
    + exists sx, mx. split; [exact Hin | lra].
  - destruct (alist_set_keeps k (score, m) d _ Hin) as [H | [Hk Hg]].
    + exists sx, mx. split; [exact H | lra].
    + cbn in Hg.
      pose proof (eq_trans (eq_sym Eg) Hg) as Heq.
      discriminate Heq.
Qed.

(** A loop of [keep_best] steps: under the key of each item it went
    through, the result holds a score at least as high as the item's. *)
Section Fold.
Context {X : Type}.
Variable key : X -> K.
Variable val : X -> Scored.
Variable step : list (K * Scored) -> X -> list (K * Scored).
Hypothesis step_is_keep_best :
  forall d x, step d x = keep_best (key x) (val x).1 (val x).2 d.

Lemma keep_best_loop_mono (l : list X) :
  forall d (y : K * Scored),
    In y d ->
    exists s' m', In (y.1, (s', m')) (fold_left step l d) /\ y.2.1 <= s'.
Proof.
  induction l as [|x l IH]; intros d y Hy; cbn [fold_left].
  - destruct y as [ky [sy my]]. exists sy, my. split; [exact Hy | cbn; lra].
  - rewrite step_is_keep_best.
    destruct (keep_best_mono (key x) (val x).1 (val x).2 d y Hy)
      as (s1 & m1 & H1 & Hle1).
    destruct (IH _ _ H1) as (s2 & m2 & H2 & Hle2). cbn [fst snd] in H2, Hle2.
    exists s2, m2. split; [exact H2 | lra].
Qed.

Lemma keep_best_loop_reaches (l : list X) :
  forall d x,
    In x l ->
    exists s' m', In (key x, (s', m')) (fold_left step l d) /\ (val x).1 <= s'.
Proof.
  induction l as [|x0 l IH]; intros d x Hin; [destruct Hin|].
  cbn [fold_left]. destruct Hin as [-> | Hin]; [|apply IH; exact Hin].
  rewrite step_is_keep_best.
  destruct (keep_best_reaches (key x) (val x).1 (val x).2 d) as (s1 & m1 & H1 & Hle1).
  destruct (keep_best_loop_mono l _ _ H1) as (s2 & m2 & H2 & Hle2).
  cbn [fst snd] in H2, Hle2. exists s2, m2. split; [exact H2 | lra].
Qed.

End Fold.

End KeepBest.

Section CachedPairs.
Variable token_sort_ratio : string -> string -> Q.

(** What the override loop touches: only ids that have an override. *)
Lemma override_loop_touches overrides by_id (kms : list Market) :
  (forall (t : string) pm, by_id !! t = Some pm -> id pm = t) ->
  forall st,
    let st' := fold_left (override_step overrides by_id) kms st in
    (forall k : string, overrides !! k = None -> ov_cache st' !! k = ov_cache st !! k)
    /\ (forall k : string, k ∈ overridden_kalshi st' ->
                           k ∈ overridden_kalshi st \/ is_Some (overrides !! k))
    /\ (forall x : string, x ∈ overridden_poly st' ->
                           x ∈ overridden_poly st
                           \/ exists k : string, overrides !! k = Some x)
    /\ (forall m, In m (override_matches st') ->
                  In m (override_matches st)
                  \/ is_Some (overrides !! id (kalshi_market m)))
    /\ (Inv.cache_keyed (ov_cache st) -> Inv.cache_keyed (ov_cache st')).
Proof.
  intros Hkeyed. induction kms as [|km kms IH]; intros st; cbn [fold_left].
  - cbv zeta. auto 10.
  - specialize (IH (override_step overrides by_id st km)). cbv zeta in IH |- *.
    destruct IH as (Hc & Hk & Hp & Hm & Hi).
    destruct (override_step_cases overrides by_id st km)
      as [Heq | (target & pm & Ht & Hpm & Heq)]; rewrite Heq in *;
      [auto 10|].
    cbn [ov_cache overridden_kalshi overridden_poly override_matches] in *.
    split; [|split; [|split; [|split]]].
    + intros k Hnone. rewrite (Hc k Hnone). apply lookup_insert_ne.
      intros Hid. rewrite Hid in Ht. congruence.
    + intros k Hin. destruct (Hk k Hin) as [H | H]; [|auto].
      apply elem_of_union in H. destruct H as [H | H]; [|auto].
      apply elem_of_singleton in H. subst k. right. rewrite Ht. eexists. reflexivity.
    + intros x Hin. destruct (Hp x Hin) as [H | H]; [|auto].
      apply elem_of_union in H. destruct H as [H | H]; [|auto].
      apply elem_of_singleton in H. subst x. right. exists (id km).
      rewrite (Hkeyed _ _ Hpm). exact Ht.
    + intros m Hin. destruct (Hm m Hin) as [H | H]; [|auto].
      apply in_app_or in H. destruct H as [H | [<- | []]]; [auto|].
      right. cbn. rewrite Ht. eexists. reflexivity.
    + intros Hc0. apply Hi. apply insert_keyed. exact Hc0.
Qed.

(** Every candidate of the fuzzy loop is filed at the score its pair
    carries. *)
Lemma fuzzy_loop_scores mt ovk poly_list poly_titles (kms : list Market) :
  forall st,
    (forall e, In e (best_matches st) -> similarity_score e.2.2 = e.2.1) ->
    forall e,
      In e (best_matches (fold_left
                            (fuzzy_step token_sort_ratio mt ovk poly_list poly_titles)
                            kms st)) ->
      similarity_score e.2.2 = e.2.1.
Proof.
  induction kms as [|km kms IH]; intros st Hst; cbn [fold_left]; [exact Hst|].
  apply IH. unfold fuzzy_step.
  destruct (decide (id km ∈ ovk)); [exact Hst|].
  destruct (decide (id km ∈ _excluded mt)); [exact Hst|].
  destruct (fz_cache st !! id km) as [cached|].
  - cbn. intros e He. apply keep_best_in in He.
    destruct He as [-> | He]; [reflexivity | apply Hst; exact He].
  - destruct (extractOne _ _ _ _) as [[[choice score] idx]|]; [|exact Hst].
    destruct (nth_error poly_list idx) as [pm|]; [|exact Hst].
    destruct (improves _ _ _); [|exact Hst].
    cbn. intros e He. apply alist_set_in in He.
    destruct He as [-> | He]; [reflexivity | apply Hst; exact He].
Qed.

Section Tracked.
Variable mt : MarketMatcher.
Variable ovk : gset string.
Variable poly_list : list Market.
Variable poly_titles : list string.
Variable km : Market.
Variable cached : MatchedMarket.
Hypothesis not_overridden : id km ∉ ovk.
Hypothesis not_excluded : id km ∉ _excluded mt.

Let seed : (string * string) * Scored :=
  ((id km, id (polymarket_market cached)), (similarity_score cached, cached)).

(** The cache entry stays, and the only candidate filed under the id of
    the market is the cached pair at its cached score. *)
Let tracked (st : Fuzzy) : Prop :=
  fz_cache st !! id km = Some cached
  /\ forall e, In e (best_matches st) -> e.1.1 = id km -> e = seed.

Lemma fuzzy_step_tracked (st : Fuzzy) (km' : Market) :
  tracked st ->
  let st' := fuzzy_step token_sort_ratio mt ovk poly_list poly_titles st km' in
  tracked st'
  /\ (In seed (best_matches st) \/ id km' = id km -> In seed (best_matches st')).
Proof.
  intros [Hc Hb]. cbv zeta. destruct (decide (id km' = id km)) as [Heq | Hne].
  - rewrite (fuzzy_step_cached token_sort_ratio mt ovk poly_list poly_titles
               st km' cached);
      [| rewrite Heq; exact not_overridden | rewrite Heq; exact not_excluded
       | rewrite Heq; exact Hc].
    rewrite Heq. fold seed. cbn [fz_cache best_matches].
    split; [split; [exact Hc|]|].
    + intros e He Hk. apply keep_best_in in He.
      destruct He as [-> | He]; [reflexivity | apply Hb; assumption].
    + intros _. unfold keep_best.
      destruct (alist_get (id km, id (polymarket_market cached)) (best_matches st))
        as [[s0 m0]|] eqn:Eg; [|apply alist_set_has].
      apply alist_get_in in Eg. pose proof (Hb _ Eg eq_refl) as Hseed.
      unfold seed in Hseed. injection Hseed as -> ->.
      cases_Qltb (similarity_score cached) (similarity_score cached); [lra|].
      exact Eg.
  - unfold fuzzy_step.
    destruct (decide (id km' ∈ ovk)); [split; [split|]; tauto|].
    destruct (decide (id km' ∈ _excluded mt)); [split; [split|]; tauto|].
    destruct (fz_cache st !! id km') as [cached'|].
    + cbn [fz_cache best_matches]. split; [split; [exact Hc|]|].
      * intros e He Hk. apply keep_best_in in He.
        destruct He as [-> | He]; [cbn in Hk; contradiction | apply Hb; assumption].
      * intros [Hin | Hid]; [|contradiction].
        apply keep_best_other; [exact Hin|].
        cbn. intros [= Hid _]. apply Hne. symmetry. exact Hid.
    + destruct (extractOne _ _ _ _) as [[[choice score] idx]|];
        [|cbn; split; [split|]; tauto].
      destruct (nth_error poly_list idx) as [pm|]; [|cbn; split; [split|]; tauto].
      destruct (improves _ _ _); [|cbn; split; [split|]; tauto].
      split; [split|]; cbn [fz_cache best_matches].
      * rewrite lookup_insert_ne by exact Hne. exact Hc.
      * intros e He Hk. apply alist_set_in in He.
        destruct He as [-> | He]; [cbn in Hk; contradiction | apply Hb; assumption].
      * intros [Hin | Hid]; [|contradiction].
        destruct (alist_set_keeps (id km', id pm)
                    (score, _build_match km' pm score) _ _ Hin) as [H | [H _]];
          [exact H|].
        cbn in H. injection H as Hid _. exfalso. apply Hne. symmetry. exact Hid.
Qed.

Lemma fuzzy_loop_tracked (kms : list Market) :
  forall st,
    tracked st ->
    let st' := fold_left (fuzzy_step token_sort_ratio mt ovk poly_list poly_titles)
                         kms st in
    tracked st'
    /\ (In seed (best_matches st) \/ In (id km) (map id kms) ->
        In seed (best_matches st')).
Proof.
  induction kms as [|km' kms IH]; intros st Ht; cbn [fold_left map].
  - split; [exact Ht|]. intros [H | []]. exact H.
  - destruct (fuzzy_step_tracked st km' Ht) as [Ht' Hs'].
    destruct (IH _ Ht') as [Ht'' Hs'']. cbv zeta in *.
    split; [exact Ht''|].
    intros [Hin | [Hid | Hin]]; apply Hs''; auto.
Qed.

End Tracked.

(** C3, as amended.  Take a listed Kalshi market that has no override, is
    not excluded and has a cache entry whose Polymarket market is still
    listed in this scan and is the target of no override, the cache
    entries being filed under their own Kalshi ids.  Then [match] does
    not send it to the fuzzy extraction and leaves its cache entry as it
    is; the cached pair is its only candidate, so a returned pair for
    that Kalshi market is the cached pair; and the cached pair went into
    the de-duplication at its cached score, so the cached Polymarket
    market is in a returned pair whose score is at least the cached one:
    the cached pair is returned unless another Kalshi market holds that
    Polymarket market at a score at least as high. *)
Theorem cached_market_is_seeded_not_extracted (mt : MarketMatcher)
    (kalshi_markets polymarket_markets : list Market) (km : Market)
    (cached : MatchedMarket) :
  Inv.cache_keyed (_cache mt) ->
  In km kalshi_markets ->
  _manual_overrides mt !! id km = None ->
  id km ∉ _excluded mt ->
  _cache mt !! id km = Some cached ->
  In (id (polymarket_market cached)) (map id polymarket_markets) ->
  (forall k : string,
      _manual_overrides mt !! k <> Some (id (polymarket_market cached))) ->
  let run := match_ token_sort_ratio mt kalshi_markets polymarket_markets in
  ~ In (id km) (extraction_log run)
  /\ _cache (matcher_after run) !! id km = Some cached
  /\ (forall m, In m (matched run) -> id (kalshi_market m) = id km -> m = cached)
  /\ exists m, In m (matched run)
               /\ id (polymarket_market m) = id (polymarket_market cached)
               /\ similarity_score cached <= similarity_score m.
Proof.
  intros Hkeyed Hkm Hno Hex Hc Hlisted Hfree. cbv zeta. unfold match_.
  destruct kalshi_markets as [|k0 kms] eqn:Ek; [destruct Hkm|].
  destruct polymarket_markets as [|p0 pms] eqn:Ep; [destruct Hlisted|].
  cbn [is_nil orb]. rewrite <- Ek, <- Ep in *.
  destruct (override_loop_touches (_manual_overrides mt)
              (poly_by_id polymarket_markets) kalshi_markets
              (poly_by_id_keyed polymarket_markets)
              (mkOverrides [] (_cache mt) ∅ ∅))
    as (Hoc & Hok & Hop & Hom & Hoi).
  cbn [ov_cache overridden_kalshi overridden_poly override_matches] in *.
  set (ov := fold_left _ kalshi_markets (mkOverrides [] (_cache mt) ∅ ∅)) in *.
  assert (id km ∉ overridden_kalshi ov) as Hnov.
  { intros Hin. destruct (Hok _ Hin) as [H | [t H]];
      [apply not_elem_of_empty in H; exact H | congruence]. }
  assert (ov_cache ov !! id km = Some cached) as Hcov
    by (rewrite (Hoc _ Hno); exact Hc).
  assert (id (polymarket_market cached) ∉ overridden_poly ov) as Hpov.
  { intros Hin. destruct (Hop _ Hin) as [H | [k H]];
      [apply not_elem_of_empty in H; exact H | apply (Hfree k H)]. }
  apply in_map_iff in Hlisted. destruct Hlisted as (pm & Epm & Hpm).
  match goal with
  | |- context [is_nil (map ?f ?pl)] =>
      assert (In pm pl) as Hpl
        by (apply filter_In; split; [exact Hpm|];
            apply bool_decide_eq_true; rewrite Epm; exact Hpov);
      assert (is_nil (map f pl) = false) as Hnil
        by (destruct pl; [destruct Hpl | reflexivity]);
      rewrite Hnil;
      set (poly_list := pl) in *; set (poly_titles := map f poly_list) in *
  end.
  cbn [extraction_log matcher_after matched _cache with_cache].
  set (st0 := mkFuzzy [] (ov_cache ov) []).
  destruct (fuzzy_loop_tracked mt (overridden_kalshi ov) poly_list poly_titles
              km cached Hnov Hex kalshi_markets st0) as [[Hfc Hfb] Hseed].
  { split; [exact Hcov | intros e []]. }
  specialize (Hseed (or_intror (in_map id _ _ Hkm))).
  destruct (fuzzy_loop_candidates token_sort_ratio mt (overridden_kalshi ov)
              poly_list poly_titles kalshi_markets st0) as [_ Hcand];
    [apply Hoi; exact Hkeyed | intros e [] |].
  pose proof (fuzzy_loop_scores mt (overridden_kalshi ov) poly_list poly_titles
                kalshi_markets st0 ltac:(intros e [])) as Hscore.
  set (fz := fold_left _ kalshi_markets st0) in *.
  destruct (kalshi_best_entries _ _ Hcand) as [Hkn Hke].
  destruct (poly_best_entries _ _ Hkn Hke) as (_ & _ & Hpe).
  assert (forall x, In x (kalshi_best (best_matches fz)) ->
                    id (kalshi_market x.2.2) = id km -> x.2.2 = cached) as Honly_k.
  { apply (kalshi_best_forall
             (fun sc => id (kalshi_market sc.2) = id km -> sc.2 = cached)).
    intros e He Hid. destruct (Hcand e He) as (Hk & _).
    rewrite Hfb with (e := e); [reflexivity | exact He | congruence]. }
  assert (forall x, In x (poly_best (kalshi_best (best_matches fz))) ->
                    id (kalshi_market x.2.2) = id km -> x.2.2 = cached) as Honly.
  { apply (poly_best_forall
             (fun sc => id (kalshi_market sc.2) = id km -> sc.2 = cached)).
    exact Honly_k. }
  assert (forall x, In x (poly_best (kalshi_best (best_matches fz))) ->
                    similarity_score x.2.2 = x.2.1) as Hsc.
  { apply (poly_best_forall (fun sc => similarity_score sc.2 = sc.1)).
    apply (kalshi_best_forall (fun sc => similarity_score sc.2 = sc.1)).
    exact Hscore. }
  split; [|split; [exact Hfc|split]].
  - apply (fuzzy_loop_keeps_cached token_sort_ratio). cbn. split; [|intros []].
    rewrite Hcov. eexists. reflexivity.
  - intros m Hin Hid. apply in_sort_desc in Hin. apply in_app_or in Hin.
    destruct Hin as [Hin | Hin].
    + exfalso. destruct (Hom m Hin) as [[] | [t Ht]].
      rewrite Hid in Ht. congruence.
    + apply in_map_iff in Hin. destruct Hin as (x & <- & Hx).
      apply (Honly x Hx Hid).
  - destruct (keep_best_loop_reaches
                (fun e : (string * string) * Scored => e.1.1)
                (fun e : (string * string) * Scored => e.2)
                (fun d '((kid, _), (score, m)) => keep_best kid score m d)
                ltac:(intros d [[kid pid] [sc m]]; reflexivity)
                (best_matches fz) [] _ Hseed)
      as (s1 & m1 & H1 & Hle1).
    fold (kalshi_best (best_matches fz)) in H1. cbn [fst snd] in H1, Hle1.
    assert (m1 = cached) as ->.
    { apply (Honly_k _ H1). destruct (Hke _ H1) as [Hid _]. exact Hid. }
    destruct (keep_best_loop_reaches
                (fun e : string * Scored => id (polymarket_market e.2.2))
                (fun e : string * Scored => e.2)
                (fun d '(_, (score, m)) =>
                   keep_best (id (polymarket_market m)) score m d)
                ltac:(intros d [kid [sc m]]; reflexivity)
                (kalshi_best (best_matches fz)) [] _ H1)
      as (s2 & m2 & H2 & Hle2).
    fold (poly_best (kalshi_best (best_matches fz))) in H2.
    cbn [fst snd] in H2, Hle2.
    exists m2. split; [|split].
    + apply in_sort_desc. apply in_or_app. right.
      apply in_map_iff. exists (id (polymarket_market cached), (s2, m2)).
      split; [reflexivity | exact H2].
    + destruct (Hpe _ H2) as [Hid _]. exact Hid.
    + pose proof (Hsc _ H2) as Hs2. cbn [fst snd] in Hs2. rewrite Hs2. lra.
Qed.

End CachedPairs.

(** The scan that follows the one that cached K1 with P9 lists P7, whose
    title is that of K1, before P9: K1 is not extracted, and the cached
    pair with P9 is the pair returned for it. *)
Lemma cached_market_is_seeded_not_extracted_witness :
  ~ In "K1"%string (extraction_log Scenario.scan_with_rival)
  /\ exists m, In m (matched Scenario.scan_with_rival)
               /\ id (polymarket_market m) = "P9"%string
               /\ 100 <= similarity_score m.
Proof.
  destruct (cached_market_is_seeded_not_extracted Scenario.exact_ratio
              (matcher_after Scenario.scan_with_p9)
              [Scenario.k1] [Scenario.p7; Scenario.p9] Scenario.k1
              (_build_match Scenario.k1 Scenario.p9 100))
    as (Hlog & _ & _ & Hpair).
  - apply (kalshi_ids_unique Scenario.exact_ratio Scenario.plain
             [Scenario.k1] [Scenario.p9]).
    + repeat constructor. intros [].
    + intros k m Hk. unfold Scenario.plain in Hk. cbn [_cache] in Hk.
      rewrite lookup_empty in Hk. discriminate.
  - left. reflexivity.
  - reflexivity.
  - vm_compute. discriminate.
  - vm_compute. reflexivity.
  - right. left. reflexivity.
  - intros k Hk.
    assert (_manual_overrides (matcher_after Scenario.scan_with_p9) = ∅) as E
      by reflexivity.
    rewrite E, lookup_empty in Hk. discriminate.
  - split; [exact Hlog | exact Hpair].
Defined.

(** C3 as stated fails.  A first scan caches K1 with P9.  In the next
    scan P9 is still listed, behind P7 that bears the very title of K1.
    No extraction is run over the titles of the scan for K1, although it
    would have found P7 with score 100: the cached pair with P9 is what
    comes back. *)
Lemma cached_pair_skips_extraction :
  Scenario.pair_ids (matched Scenario.scan_with_p9) = [("K1", "P9")]%string
  /\ In "P9"%string (map id [Scenario.p7; Scenario.p9])
  /\ extraction_log Scenario.scan_with_rival = []
  /\ Scenario.pair_ids (matched Scenario.scan_with_rival) = [("K1", "P9")]%string
  /\ option_map (fun r => (snd (fst r), snd r))
       (extractOne Scenario.exact_ratio (_normalize (title Scenario.k1))
                   [_normalize (title Scenario.p7); _normalize (title Scenario.p9)]
                   80)
     = Some (100, 0%nat).
Proof.
  split; [vm_compute; reflexivity|].
  split; [right; left; reflexivity|].
  repeat split; vm_compute; reflexivity.
Qed.

End MatcherFacts.

(* ===================================================================== *)
(** * More on the detector *)
(* ===================================================================== *)

Module DetectorMore.
Import Detector.

Lemma insert_desc_descending {A} (key : A -> Q) (x : A) (l : list A) :
  Cases.descending key l -> Cases.descending key (insert_desc key x l).
Proof.
  unfold Cases.descending.
  induction l as [|y l IH]; intros Hs; cbn [insert_desc].
  - constructor; constructor.
  - inversion Hs as [|? ? Hs' Hall]; subst.
    cases_Qltb (key x) (key y).
    + constructor; [apply IH; exact Hs'|].
      apply List.Forall_forall. intros z Hz. apply in_insert_desc in Hz.
      destruct Hz as [-> | Hz]; [lra|].
      rewrite List.Forall_forall in Hall. apply Hall. exact Hz.
    + constructor; [exact Hs|].
      constructor; [exact E|].
      rewrite List.Forall_forall in Hall. apply List.Forall_forall.
      intros z Hz. specialize (Hall z Hz). cbv beta in Hall. lra.
Qed.

Lemma sort_desc_descending {A} (key : A -> Q) (l : list A) :
  Cases.descending key (sort_desc key l).
Proof.
  induction l as [|a l IH]; cbn.
  - constructor.
  - apply insert_desc_descending. exact IH.
Qed.

(** X1.  The list [detect_opportunities] returns is in descending order
    of ROI: no opportunity is followed, anywhere later in the list, by one
    of higher ROI. *)
Theorem opportunities_by_descending_roi s now pairs arg :
  Cases.descending roi (detect_opportunities s now pairs arg).
Proof.
  unfold detect_opportunities. apply sort_desc_descending.
Qed.

Lemma pair_opportunities_length s now minp mm :
  (length (pair_opportunities s now minp mm) <= 2)%nat.
Proof.
  unfold pair_opportunities.
  destruct (kalshi_outcome mm) as [ko|]; [|cbn; lia].
  destruct (polymarket_outcome mm) as [po|]; [|cbn; lia].
  rewrite length_app.
  destruct (check s now minp mm KALSHI_YES_POLY_NO ko po);
    destruct (check s now minp mm POLY_YES_KALSHI_NO ko po); cbn; lia.
Qed.

(** X2.  At most two opportunities are emitted per matched pair, one per
    direction. *)
Theorem at_most_two_opportunities_per_pair s now pairs arg :
  (length (detect_opportunities s now pairs arg) <= 2 * length pairs)%nat.
Proof.
  unfold detect_opportunities.
  rewrite (Permutation_length (sort_desc_perm roi _)).
  induction pairs as [|mm pairs IH]; cbn [flat_map length]; [lia|].
  rewrite length_app.
  pose proof (pair_opportunities_length s now (min_profit_of s arg) mm). lia.
Qed.

Lemma check_direction_lower_minimum now mm d yo no yf nf minp1 minp2 o :
  minp1 <= minp2 ->
  _check_direction now mm d yo no yf nf minp2 = Some o ->
  _check_direction now mm d yo no yf nf minp1 = Some o.
Proof.
  intros Hle. unfold _check_direction. cbv zeta.
  destruct (Qleb (yes_leg_price yo) 0 || Qleb (no_leg_price no) 0); [discriminate|].
  cases_Qltb (1 - _effective_cost (yes_leg_price yo) (no_leg_price no) yf nf) minp2;
    [discriminate|].
  cases_Qltb (1 - _effective_cost (yes_leg_price yo) (no_leg_price no) yf nf) minp1;
    [lra|].
  auto.
Qed.

(** X3.  Lowering the minimum profit never loses an opportunity: what is
    emitted with a minimum of [c2] cents is emitted, unchanged, with any
    smaller minimum [c1]. *)
Theorem lower_minimum_keeps_opportunities s now pairs (c1 c2 : Q) o :
  c1 <= c2 ->
  In o (detect_opportunities s now pairs (Some c2)) ->
  In o (detect_opportunities s now pairs (Some c1)).
Proof.
  intros Hle Hin. apply DetectorFacts.detect_In in Hin.
  destruct Hin as (mm & d & ko & po & Hmm & Ek & Ep & Hc).
  apply DetectorFacts.detect_In. exists mm, d, ko, po.
  repeat split; try assumption.
  unfold check in *.
  apply (check_direction_lower_minimum _ _ _ _ _ _ _
           (min_profit_of s (Some c1)) (min_profit_of s (Some c2))); [|exact Hc].
  unfold min_profit_of. unfold Qdiv. change (/ 100) with (1 # 100). lra.
Qed.

Lemma lower_minimum_keeps_opportunities_witness :
  exists o, In o (detect_opportunities Config.settings 0 [Scenario.profitable] (Some 1))
            /\ In o (detect_opportunities Config.settings 0 [Scenario.profitable]
                                          (Some (1 # 2))).
Proof.
  destruct (detect_opportunities Config.settings 0 [Scenario.profitable] (Some 1))
    as [|o l] eqn:E; [vm_compute in E; discriminate|].
  exists o. split; [left; reflexivity|].
  apply (lower_minimum_keeps_opportunities Config.settings 0 [Scenario.profitable]
           (1 # 2) 1 o).
  - vm_compute. discriminate.
  - rewrite E. left. reflexivity.
Defined.

Lemma py_max_nonneg (a : Q) : 0 <= py_max 0 a.
Proof. unfold py_max. cases_Qltb 0 a; lra. Qed.

Lemma worst_fee_nonneg (y n fy fn : Q) :
  0 <= fy -> 0 <= fn -> 0 <= worst_fee y n fy fn.
Proof.
  intros Hfy Hfn. unfold worst_fee, fee_if_yes_wins, fee_if_no_wins.
  pose proof (py_max_nonneg (1 - y)) as Hy.
  pose proof (py_max_nonneg (1 - n)) as Hn.
  assert (0 <= py_max 0 (1 - y) * fy) as H1 by (apply Qmult_le_0_compat; assumption).
  pose proof (py_max_ge_l (py_max 0 (1 - y) * fy) (py_max 0 (1 - n) * fn)). lra.
Qed.

(** X4.  With fee rates and a minimum profit that are not negative, every
    emitted opportunity has a cost and a profit between 0 and 1: nothing
    is emitted at a loss or for more than the payout. *)
Theorem emitted_cost_and_profit_in_unit_range s now pairs arg o :
  0 <= Config.kalshi_fee_rate s -> 0 <= Config.polymarket_fee_rate s ->
  0 <= min_profit_of s arg ->
  In o (detect_opportunities s now pairs arg) ->
  0 <= cost o <= 1 /\ 0 <= profit o <= 1.
Proof.
  intros Hk Hp Hmin Hin. apply DetectorFacts.detect_In in Hin.
  destruct Hin as (mm & d & ko & po & _ & _ & _ & Hc).
  unfold check in Hc. apply DetectorFacts.check_direction_inv in Hc.
  destruct Hc as (Hy & Hn & Hge & _ & _ & Ec & Epr & _).
  assert (0 <= worst_fee (yes_leg_price (yes_side d ko po))
                         (no_leg_price (no_side d ko po))
                         (yes_fee s d) (no_fee s d)) as Hfee.
  { apply worst_fee_nonneg; destruct d; assumption. }
  unfold _effective_cost in *.
  rewrite Ec, Epr. split; apply round_dp4_unit; lra.
Qed.

Lemma emitted_cost_and_profit_in_unit_range_witness :
  exists o, In o (detect_opportunities Config.settings 0 [Scenario.profitable] (Some 1))
            /\ 0 <= cost o <= 1 /\ 0 <= profit o <= 1.
Proof.
  destruct (detect_opportunities Config.settings 0 [Scenario.profitable] (Some 1))
    as [|o l] eqn:E; [vm_compute in E; discriminate|].
  exists o. split; [left; reflexivity|].
  apply (emitted_cost_and_profit_in_unit_range Config.settings 0
           [Scenario.profitable] (Some 1) o).
  - vm_compute. discriminate.
  - vm_compute. discriminate.
  - vm_compute. discriminate.
  - rewrite E. left. reflexivity.
Defined.

End DetectorMore.

(* ===================================================================== *)
(** * More on the executor *)
(* ===================================================================== *)

Module ExecutorMore.
Import Executor.

(** The guardrail check leaves the limits, the log, the orders and the
    last execution alone. *)
Lemma check_guardrails_keeps now e opp :
  let e1 := fst (_check_guardrails now e opp) in
  enabled e1 = enabled e /\ max_position_usd e1 = max_position_usd e
  /\ cooldown_seconds e1 = cooldown_seconds e
  /\ orders_placed e1 = orders_placed e
  /\ _execution_log e1 = _execution_log e
  /\ _last_execution e1 = _last_execution e.
Proof.
  cbv zeta. rewrite ExecutorFacts.check_guardrails_state.
  destruct (enabled e) eqn:En; [|rewrite En; auto 10].
  unfold _reset_daily_if_needed.
  destruct (same_date (_daily_reset_date e) (utc_date now)); cbn; auto 10.
Qed.

Lemma fold_place (legs : list LegOrder) :
  forall e,
    let e' := fold_left place legs e in
    orders_placed e' = orders_placed e ++ legs
    /\ _execution_log e' = _execution_log e
    /\ _daily_pnl e' = _daily_pnl e
    /\ _last_execution e' = _last_execution e.
Proof.
  induction legs as [|l legs IH]; intros e; cbn [fold_left].
  - rewrite app_nil_r. auto.
  - destruct (IH (place e l)) as (Ho & Hl & Hp & Ht).
    rewrite Ho, Hl, Hp, Ht. cbn. rewrite <- app_assoc. auto.
Qed.

(** The three ways [execute] ends. *)
Lemma execute_cases venue now e opp :
  let e1 := fst (_check_guardrails now e opp) in
  let size := position_size_of e1 opp in
  let legs := legs_of opp size in
  let e2 := fold_left place legs e1 in
  (exists g, snd (_check_guardrails now e opp) = Some g
             /\ execute venue now e opp
                = (append_log e1 (mkRecord opp now false (GuardText g) 0),
                   mkRecord opp now false (GuardText g) 0))
  \/ (exists exc more,
        snd (_check_guardrails now e opp) = None
        /\ snd (gather venue e1 legs) = exc :: more
        /\ execute venue now e opp
           = (append_log e2 (mkRecord opp now false (ExceptionText exc) 0),
              mkRecord opp now false (ExceptionText exc) 0))
  \/ (snd (_check_guardrails now e opp) = None
      /\ snd (gather venue e1 legs) = []
      /\ execute venue now e opp
         = (append_log (book_success e2 (profit opp * size) now)
                       (mkRecord opp now true NoError (profit opp * size)),
            mkRecord opp now true NoError (profit opp * size))).
Proof.
  cbv zeta. unfold execute.
  destruct (_check_guardrails now e opp) as [e1 [g|]]; cbn [fst snd].
  - left. exists g. auto.
  - right. unfold gather. cbn [fst snd].
    destruct (flat_map _ _) as [|exc more].
    + right. auto.
    + left. exists exc, more. auto.
Qed.

(** X5.  Every call of [execute], blocked, failed or successful, appends
    exactly one record to the execution log: the record it returns, for
    the opportunity it was given. *)
Theorem every_attempt_is_logged venue now e opp :
  _execution_log (fst (execute venue now e opp))
  = _execution_log e ++ [snd (execute venue now e opp)]
  /\ opportunity (snd (execute venue now e opp)) = opp
  /\ executed_at (snd (execute venue now e opp)) = now.
Proof.
  destruct (check_guardrails_keeps now e opp) as (_ & _ & _ & _ & Hlog & _).
  destruct (fold_place
              (legs_of opp (position_size_of (fst (_check_guardrails now e opp)) opp))
              (fst (_check_guardrails now e opp))) as (_ & Hlog2 & _).
  destruct (execute_cases venue now e opp)
    as [(g & _ & ->) | [(exc & more & _ & _ & ->) | (_ & _ & ->)]];
    cbn [fst snd append_log book_success _execution_log opportunity executed_at];
    rewrite ?Hlog2, Hlog; auto.
Qed.

(** X6.  When the guardrails pass and neither order method raises, the
    record says success with the estimated PnL, profit times position
    size; the daily PnL grows by that amount, the last execution is now,
    and exactly the two legs of the direction were placed, in order. *)
Theorem successful_execution venue now e opp :
  snd (_check_guardrails now e opp) = None ->
  (forall l, In l (legs_of opp (position_size_of e opp)) -> venue l = None) ->
  let size := position_size_of e opp in
  let e' := fst (execute venue now e opp) in
  let r := snd (execute venue now e opp) in
  success r = true /\ error r = NoError /\ pnl r = profit opp * size
  /\ _daily_pnl e' = _daily_pnl (fst (_check_guardrails now e opp)) + profit opp * size
  /\ _last_execution e' = Some now
  /\ orders_placed e' = orders_placed e ++ legs_of opp size.
Proof.
  intros Hpass Hvenue. cbv zeta.
  destruct (check_guardrails_keeps now e opp) as (_ & Hmax & _ & Hord & _ & _).
  assert (position_size_of (fst (_check_guardrails now e opp)) opp
          = position_size_of e opp) as Hsize.
  { unfold position_size_of. rewrite Hmax. reflexivity. }
  destruct (fold_place (legs_of opp (position_size_of e opp))
                       (fst (_check_guardrails now e opp))) as (Ho & _ & Hp & _).
  destruct (execute_cases venue now e opp)
    as [(g & Hg & _) | [(exc & more & _ & Hexc & _) | (_ & _ & ->)]].
  - congruence.
  - exfalso. rewrite Hsize in Hexc. unfold gather in Hexc. cbn [snd] in Hexc.
    assert (In exc (flat_map (fun l => match venue l with
                                       | Some m => [m]
                                       | None => []
                                       end) (legs_of opp (position_size_of e opp))))
      as Hin by (rewrite Hexc; left; reflexivity).
    apply in_flat_map in Hin. destruct Hin as (l & Hl & Hm).
    rewrite (Hvenue l Hl) in Hm. destruct Hm.
  - rewrite Hsize.
    cbn [fst snd append_log book_success success error pnl _daily_pnl
         _last_execution orders_placed].
    rewrite Ho, Hp, Hord. auto 10.
Qed.

Lemma successful_execution_witness :
  success (snd (execute Scenario.stub_venue Scenario.noon_day0 Cases.fresh_executor
                        Cases.five_cents)) = true
  /\ orders_placed (fst (execute Scenario.stub_venue Scenario.noon_day0
                                 Cases.fresh_executor Cases.five_cents))
     = [buy_kalshi_yes Cases.five_cents 100; buy_polymarket_no Cases.five_cents 100].
Proof.
  destruct (successful_execution Scenario.stub_venue Scenario.noon_day0
              Cases.fresh_executor Cases.five_cents)
    as (Hs & _ & _ & _ & _ & Ho).
  - reflexivity.
  - intros l _. reflexivity.
  - split; [exact Hs | exact Ho].
Defined.

(** X7.  When the guardrails pass and an order method raises, both legs
    have been invoked all the same; the record says failure with the text
    of the first leg that raised, and neither the daily PnL nor the last
    execution is updated. *)
Theorem failed_leg venue now e opp exc more :
  snd (_check_guardrails now e opp) = None ->
  snd (gather venue (fst (_check_guardrails now e opp))
              (legs_of opp (position_size_of e opp))) = exc :: more ->
  let e' := fst (execute venue now e opp) in
  let r := snd (execute venue now e opp) in
  success r = false /\ error r = ExceptionText exc /\ pnl r = 0
  /\ orders_placed e' = orders_placed e ++ legs_of opp (position_size_of e opp)
  /\ _daily_pnl e' = _daily_pnl (fst (_check_guardrails now e opp))
  /\ _last_execution e' = _last_execution e.
Proof.
  intros Hpass Hraised. cbv zeta.
  destruct (check_guardrails_keeps now e opp) as (_ & Hmax & _ & Hord & _ & Hlast).
  assert (position_size_of (fst (_check_guardrails now e opp)) opp
          = position_size_of e opp) as Hsize.
  { unfold position_size_of. rewrite Hmax. reflexivity. }
  destruct (fold_place (legs_of opp (position_size_of e opp))
                       (fst (_check_guardrails now e opp))) as (Ho & _ & Hp & Ht).
  destruct (execute_cases venue now e opp)
    as [(g & Hg & _) | [(exc' & more' & _ & Hexc & ->) | (_ & Hnone & _)]].
  - congruence.
  - rewrite Hsize in *. rewrite Hraised in Hexc. injection Hexc as <- <-.
    cbn [fst snd append_log success error pnl _daily_pnl _last_execution
         orders_placed].
    rewrite Ho, Hp, Ht, Hord, Hlast. auto 10.
  - rewrite Hsize in Hnone. congruence.
Qed.

Lemma failed_leg_witness :
  error (snd (execute Cases.rejecting_polymarket Scenario.noon_day0
                      Cases.fresh_executor Cases.five_cents))
  = ExceptionText "rejected"
  /\ orders_placed (fst (execute Cases.rejecting_polymarket Scenario.noon_day0
                                 Cases.fresh_executor Cases.five_cents))
     = [buy_kalshi_yes Cases.five_cents 100; buy_polymarket_no Cases.five_cents 100]
  /\ _last_execution (fst (execute Cases.rejecting_polymarket Scenario.noon_day0
                                   Cases.fresh_executor Cases.five_cents)) = None.
Proof.
  destruct (failed_leg Cases.rejecting_polymarket Scenario.noon_day0
              Cases.fresh_executor Cases.five_cents "rejected"%string [])
    as (_ & He & _ & Ho & _ & Hl).
  - reflexivity.
  - reflexivity.
  - split; [exact He | split; [exact Ho | exact Hl]].
Defined.

Lemma cooldown_fails now e opp last :
  _last_execution e = Some last -> now - last < cooldown_seconds e ->
  exists g, snd (_check_guardrails now e opp) = Some g.
Proof.
  intros Hlast Hcool. unfold _check_guardrails.
  destruct (enabled e); cbn [negb]; [|eauto].
  assert (cooldown_check now (_reset_daily_if_needed now e)
          = Some (CooldownActive (now - last) (cooldown_seconds e))) as Hc.
  { unfold cooldown_check, _reset_daily_if_needed.
    destruct (same_date (_daily_reset_date e) (utc_date now)); cbn;
      rewrite Hlast; apply Qltb_lt in Hcool; rewrite Hcool; reflexivity. }
  destruct (Qltb _ _); [eauto|].
  destruct (Qltb _ _); [eauto|].
  rewrite Hc. eauto.
Qed.

(** X8.  Less than [cooldown_seconds] after the last execution, [execute]
    never places an order: the attempt is blocked by a guardrail. *)
Theorem no_order_during_cooldown venue now e opp last :
  _last_execution e = Some last -> now - last < cooldown_seconds e ->
  success (snd (execute venue now e opp)) = false
  /\ orders_placed (fst (execute venue now e opp)) = orders_placed e
  /\ _last_execution (fst (execute venue now e opp)) = Some last.
Proof.
  intros Hlast Hcool.
  destruct (cooldown_fails now e opp last Hlast Hcool) as [g Hg].
  destruct (check_guardrails_keeps now e opp) as (_ & _ & _ & Hord & _ & Ht).
  destruct (execute_cases venue now e opp)
    as [(g' & _ & ->) | [(exc & more & Hn & _) | (Hn & _)]]; try congruence.
  cbn [fst snd append_log success orders_placed _last_execution].
  rewrite Hord, Ht. auto.
Qed.

(** Two seconds after a first trade the next opportunity is blocked. *)
Lemma no_order_during_cooldown_witness :
  success (snd (execute Scenario.stub_venue (Scenario.noon_day0 + 2)
                        Scenario.after_first_trade Cases.five_cents)) = false
  /\ orders_placed (fst (execute Scenario.stub_venue (Scenario.noon_day0 + 2)
                                 Scenario.after_first_trade Cases.five_cents))
     = orders_placed Scenario.after_first_trade.
Proof.
  destruct (no_order_during_cooldown Scenario.stub_venue (Scenario.noon_day0 + 2)
              Scenario.after_first_trade Cases.five_cents Scenario.noon_day0)
    as (Hs & Ho & _).
  - reflexivity.
  - vm_compute. reflexivity.
  - split; [exact Hs | exact Ho].
Defined.

Lemma passed_size_positive now e opp :
  snd (_check_guardrails now e opp) = None ->
  0 < position_size_of e opp.
Proof.
  destruct (check_guardrails_keeps now e opp) as (_ & Hmax & _).
  assert (position_size_of (fst (_check_guardrails now e opp)) opp
          = position_size_of e opp) as Hsize.
  { unfold position_size_of. rewrite Hmax. reflexivity. }
  rewrite <- Hsize. rewrite ExecutorFacts.check_guardrails_state.
  unfold _check_guardrails.
  destruct (enabled e); cbn [negb snd]; [|discriminate].
  destruct (Qltb _ _); [discriminate|].
  destruct (Qltb _ _); [discriminate|].
  destruct (cooldown_check _ _); [discriminate|].
  cases_Qleb (position_size_of (_reset_daily_if_needed now e) opp) 0;
    [discriminate|].
  intros _. exact E.
Qed.

Lemma position_size_capped e opp : position_size_of e opp <= max_position_usd e.
Proof.
  unfold position_size_of. destruct (Qltb 0 (max_size opp)); [|lra].
  unfold py_min. cases_Qltb (max_position_usd e) (max_size opp); lra.
Qed.

(** X9.  Whatever [execute] does, every order it places has a positive
    size that does not exceed [max_position_usd]. *)
Theorem placed_orders_within_position_limit venue now e opp :
  exists placed,
    orders_placed (fst (execute venue now e opp)) = orders_placed e ++ placed
    /\ forall l, In l placed ->
                 0 < Cases.leg_size l /\ Cases.leg_size l <= max_position_usd e.
Proof.
  destruct (check_guardrails_keeps now e opp) as (_ & Hmax & _ & Hord & _ & _).
  assert (position_size_of (fst (_check_guardrails now e opp)) opp
          = position_size_of e opp) as Hsize.
  { unfold position_size_of. rewrite Hmax. reflexivity. }
  destruct (fold_place (legs_of opp (position_size_of e opp))
                       (fst (_check_guardrails now e opp))) as (Ho & _).
  assert (forall l, In l (legs_of opp (position_size_of e opp)) ->
                    Cases.leg_size l = position_size_of e opp) as Hlegs.
  { intros l Hl. unfold legs_of in Hl.
    destruct (direction opp); destruct Hl as [<- | [<- | []]]; reflexivity. }
  destruct (execute_cases venue now e opp)
    as [(g & _ & ->) | [(exc & more & Hn & _ & ->) | (Hn & _ & ->)]].
  - exists []. cbn [fst append_log orders_placed]. rewrite Hord, app_nil_r.
    split; [reflexivity | intros l []].
  - exists (legs_of opp (position_size_of e opp)).
    rewrite Hsize. cbn [fst append_log orders_placed]. rewrite Ho, Hord.
    split; [reflexivity|]. intros l Hl. rewrite (Hlegs l Hl).
    split; [apply (passed_size_positive now e opp Hn) | apply position_size_capped].
  - exists (legs_of opp (position_size_of e opp)).
    rewrite Hsize. cbn [fst append_log book_success orders_placed]. rewrite Ho, Hord.
    split; [reflexivity|]. intros l Hl. rewrite (Hlegs l Hl).
    split; [apply (passed_size_positive now e opp Hn) | apply position_size_capped].
Qed.

End ExecutorMore.

(* ===================================================================== *)
(** * More on the venue K client *)
(* ===================================================================== *)

Module KalshiMore.
Import Kalshi.

Section Fetch.
Variable fromisoformat : string -> option Z.

(** ** What holds of every parsed market *)

Section Parsed.
Variable P : Market -> Prop.
Hypothesis parsed : forall mkt et m,
  _parse_market fromisoformat mkt et = Ok (Some m) -> P m.

Lemma parse_all_forall (mkts : list RawMarket) (et : string) :
  forall acc ms,
    parse_all fromisoformat mkts et acc = Ok ms ->
    (forall m, In m acc -> P m) -> forall m, In m ms -> P m.
Proof.
  induction mkts as [|mkt rest IH]; intros acc ms Hrun Hacc; cbn in Hrun.
  - injection Hrun as <-. exact Hacc.
  - destruct (_parse_market fromisoformat mkt et) as [[m0|]|e] eqn:E;
      cbn [bind] in Hrun; [ | | discriminate].
    + apply (IH _ _ Hrun). intros m Hm. apply in_app_iff in Hm.
      destruct Hm as [Hm | [<- | []]]; [apply Hacc; exact Hm | apply (parsed _ _ _ E)].
    + apply (IH _ _ Hrun). exact Hacc.
Qed.

Lemma fetch_series_loop_forall (answers : list (Result (Response MarketsPage)))
    (st : string) (cap : nat) :
  forall acc ms,
    fetch_series_loop fromisoformat answers st cap acc = Ok ms ->
    (forall m, In m acc -> P m) -> forall m, In m ms -> P m.
Proof.
  induction answers as [|a rest IH]; intros acc ms Hrun Hacc;
    cbn [fetch_series_loop] in Hrun.
  - destruct (length acc <? cap)%nat; injection Hrun as <-; exact Hacc.
  - destruct (length acc <? cap)%nat; [|injection Hrun as <-; exact Hacc].
    destruct (data_of a) as [data|]; [|injection Hrun as <-; exact Hacc].
    destruct (parse_all fromisoformat (pg_markets data) st acc) as [ms1|e] eqn:E1;
      cbn [bind] in Hrun; [|discriminate].
    pose proof (parse_all_forall _ _ _ _ E1 Hacc) as H1.
    destruct (negb (truthy (pg_cursor data)) || is_nil (pg_markets data)).
    + injection Hrun as <-. exact H1.
    + apply (IH _ _ Hrun H1).
Qed.

Lemma all_series_forall (v : Venue) :
  forall m, In m (all_series_markets fromisoformat v) -> P m.
Proof.
  unfold all_series_markets. intros m Hm. apply in_flat_map in Hm.
  destruct Hm as (st & _ & Hm).
  destruct (_fetch_series fromisoformat (series_answers v st) st) as [ms|e] eqn:E;
    [|destruct Hm].
  unfold _fetch_series in E.
  apply (fetch_series_loop_forall _ _ _ _ _ E); [intros x [] | exact Hm].
Qed.

(** An invariant of the merge state that adding a parsed market keeps is
    kept by the whole merge. *)
Variable I : Merge -> Prop.
Hypothesis step : forall st m, P m -> I st -> I (add_unseen st m).

Lemma merge_event_markets_keeps (et : string) (cap : nat) (mkts : list RawMarket) :
  forall st st',
    merge_event_markets fromisoformat mkts et cap st = Ok st' -> I st -> I st'.
Proof.
  induction mkts as [|mkt rest IH]; intros st st' Hrun Hst; cbn in Hrun.
  - injection Hrun as <-. exact Hst.
  - destruct (_parse_market fromisoformat mkt et) as [market|e] eqn:E;
      cbn [bind] in Hrun; [|discriminate].
    assert (I match market with Some m => add_unseen st m | None => st end) as H1.
    { destruct market as [m|]; [|exact Hst].
      apply step; [apply (parsed _ _ _ E) | exact Hst]. }
    destruct (cap <=? _)%nat; [injection Hrun as <-; exact H1|].
    apply (IH _ _ Hrun H1).
Qed.

Lemma merge_events_keeps (cap : nat) (events : list RawEvent) :
  forall st st',
    merge_events fromisoformat events cap st = Ok st' -> I st -> I st'.
Proof.
  induction events as [|ev rest IH]; intros st st' Hrun Hst; cbn in Hrun.
  - injection Hrun as <-. exact Hst.
  - destruct (merge_event_markets fromisoformat (ev_markets ev) (text (ev_title ev))
                cap st) as [st1|e] eqn:E1; cbn [bind] in Hrun; [|discriminate].
    pose proof (merge_event_markets_keeps _ _ _ _ _ E1 Hst) as H1.
    destruct (cap <=? _)%nat; [injection Hrun as <-; exact H1|].
    apply (IH _ _ Hrun H1).
Qed.

Lemma series_merge_keeps (ms : list Market) :
  (forall m, In m ms -> P m) ->
  forall st, I st -> I (fold_left add_unseen ms st).
Proof.
  induction ms as [|m ms IH]; intros Hms st Hst; cbn [fold_left]; [exact Hst|].
  apply IH.
  - intros x Hx. apply Hms. right. exact Hx.
  - apply step; [apply Hms; left; reflexivity | exact Hst].
Qed.

Lemma fetch_keeps (s : Config.Settings) (v : Venue) (arg : option nat)
    (ms : list Market) :
  I (∅, []) ->
  fetch_active_markets fromisoformat s v arg = Ok ms ->
  exists seen, I (seen, ms).
Proof.
  intros H0 Hrun. unfold fetch_active_markets in Hrun.
  match type of Hrun with
  | bind (merge_events _ ?evs ?mx ?st0) _ = _ =>
      destruct (merge_events fromisoformat evs mx st0) as [[seen l]|e] eqn:E;
      cbn [bind] in Hrun; [|discriminate];
      assert (I st0) as Hst0
        by (apply series_merge_keeps; [apply all_series_forall | exact H0])
  end.
  injection Hrun as <-. exists seen.
  apply (merge_events_keeps _ _ _ _ E Hst0).
Qed.

End Parsed.

Lemma add_unseen_merged (st : Merge) (m : Market) :
  Cases.merged_ok st -> Cases.merged_ok (add_unseen st m).
Proof.
  intros [Hnd Hseen]. unfold add_unseen.
  destruct (decide (id m ∈ st.1)) as [Hin | Hout]; [split; assumption|].
  unfold Cases.merged_ok. cbn [fst snd]. split.
  - rewrite map_app. apply NoDup_app_disjoint; [exact Hnd | | ].
    + constructor; [intros [] | constructor].
    + intros x Hx [<- | []]. apply Hout.
      apply in_map_iff in Hx. destruct Hx as (m' & <- & Hm'). apply Hseen. exact Hm'.
  - intros x Hx. apply in_app_iff in Hx. destruct Hx as [Hx | [<- | []]].
    + apply elem_of_union. right. apply Hseen. exact Hx.
    + apply elem_of_union. left. apply elem_of_singleton. reflexivity.
Qed.

(** X10.  The list [fetch_active_markets] returns holds no market id
    twice, whatever the venue sends in the two sweeps. *)
Theorem fetched_ids_are_distinct (s : Config.Settings) (v : Venue)
    (arg : option nat) (ms : list Market) :
  fetch_active_markets fromisoformat s v arg = Ok ms ->
  List.NoDup (map id ms).
Proof.
  intros Hrun.
  destruct (fetch_keeps (fun _ => True) (fun _ _ _ _ => Logic.I) Cases.merged_ok
              (fun st m _ H => add_unseen_merged st m H) s v arg ms)
    as [seen [Hnd _]]; [|exact Hrun|exact Hnd].
  split; [constructor | intros m []].
Qed.

Lemma parsed_market_ok (mkt : RawMarket) (et : string) (m : Market) :
  _parse_market fromisoformat mkt et = Ok (Some m) -> Cases.kalshi_market_ok m.
Proof.
  unfold _parse_market.
  destruct (truthy (r_ticker mkt)) eqn:Et; [|discriminate].
  destruct (truthy (r_title mkt)) eqn:En; [|discriminate].
  cbn [negb orb].
  destruct (parse_prices mkt) as [[y n]|e]; cbn [bind]; [|discriminate].
  destruct (float_or_0 (r_volume mkt)); cbn [bind]; [|discriminate].
  intros [= <-]. unfold Cases.kalshi_market_ok. cbn.
  repeat split.
  - destruct (r_ticker mkt) as [t|]; [|discriminate]. cbn in *.
    intros ->. discriminate.
  - destruct (r_title mkt) as [t|]; [|discriminate]. cbn in *.
    intros ->. discriminate.
Qed.

(** X11.  Every market [fetch_active_markets] returns is a Kalshi market
    with exactly one outcome, a non-empty title, and a non-empty id that
    is also its ticker. *)
Theorem fetched_markets_are_well_formed (s : Config.Settings) (v : Venue)
    (arg : option nat) (ms : list Market) :
  fetch_active_markets fromisoformat s v arg = Ok ms ->
  forall m, In m ms -> Cases.kalshi_market_ok m.
Proof.
  intros Hrun.
  destruct (fetch_keeps Cases.kalshi_market_ok parsed_market_ok
              (fun st => forall m, In m st.2 -> Cases.kalshi_market_ok m)) with
    (s := s) (v := v) (arg := arg) (ms := ms) as [seen H]; [| |exact Hrun|exact H].
  - intros st m Hm Hst x Hx. unfold add_unseen in Hx.
    destruct (decide (id m ∈ st.1)); [apply Hst; exact Hx|].
    cbn in Hx. apply in_app_iff in Hx.
    destruct Hx as [Hx | [<- | []]]; [apply Hst; exact Hx | exact Hm].
  - intros m [].
Qed.

End Fetch.

Lemma fetched_ids_are_distinct_witness :
  exists ms, fetch_active_markets Scenario.no_dates Config.settings
                                  Cases.venue_twice None = Ok ms
             /\ map id ms = ["KX-2"; "KX-1"]%string
             /\ List.NoDup (map id ms).
Proof.
  destruct (fetch_active_markets Scenario.no_dates Config.settings
                                 Cases.venue_twice None) as [ms|e] eqn:E;
    [|vm_compute in E; discriminate].
  exists ms. split; [reflexivity|]. split.
  - vm_compute in E. injection E as <-. reflexivity.
  - apply (fetched_ids_are_distinct Scenario.no_dates Config.settings
             Cases.venue_twice None ms E).
Defined.

Lemma fetched_markets_are_well_formed_witness :
  exists ms, fetch_active_markets Scenario.no_dates Config.settings
                                  Cases.venue_twice None = Ok ms
             /\ ms <> []
             /\ forall m, In m ms -> Cases.kalshi_market_ok m.
Proof.
  destruct (fetch_active_markets Scenario.no_dates Config.settings
                                 Cases.venue_twice None) as [ms|e] eqn:E;
    [|vm_compute in E; discriminate].
  exists ms. split; [reflexivity|]. split.
  - vm_compute in E. injection E as <-. discriminate.
  - apply (fetched_markets_are_well_formed Scenario.no_dates Config.settings
             Cases.venue_twice None ms E).
Defined.

End KalshiMore.

(* ===================================================================== *)
(** * Caps of the two sweeps *)
(* ===================================================================== *)

Module KalshiLimits.
Import Kalshi.

Lemma append_events_bound (evs : list RawEvent) (max_events : nat) :
  forall events,
    (length events < max_events)%nat ->
    (length (append_events evs events max_events) <= max_events)%nat.
Proof.
  induction evs as [|ev rest IH]; intros events Hlt; cbn [append_events]; [lia|].
  destruct (max_events <=? length (events ++ [ev]))%nat eqn:E.
  - rewrite length_app. cbn. lia.
  - apply Nat.leb_gt in E. apply IH. exact E.
Qed.

Lemma fetch_events_loop_bound (answers : list (Result (Response EventsPage)))
    (max_events : nat) :
  forall pages events,
    (length events <= max_events)%nat ->
    (length (fetch_events_loop answers max_events pages events) <= max_events)%nat.
Proof.
  induction answers as [|a rest IH]; intros pages events Hle;
    cbn [fetch_events_loop].
  - destruct (_ && _); exact Hle.
  - destruct (length events <? max_events)%nat eqn:Elt; cbn [andb]; [|exact Hle].
    apply Nat.ltb_lt in Elt.
    destruct (pages <? 30)%nat; [|exact Hle].
    destruct (data_of a) as [data|]; [|exact Hle].
    pose proof (append_events_bound (pg_events data) max_events events Elt) as Hb.
    destruct (negb (truthy (pg_events_cursor data)) || is_nil (pg_events data));
      [exact Hb|].
    apply IH. exact Hb.
Qed.

(** X12.  [_fetch_events] never returns more than [max_events] events,
    however many the venue sends per page. *)
Theorem fetch_events_is_capped (answers : list (Result (Response EventsPage)))
    (max_events : nat) :
  (length (_fetch_events answers max_events) <= max_events)%nat.
Proof.
  unfold _fetch_events. apply fetch_events_loop_bound. cbn. lia.
Qed.

Section Cap.
Variable fromisoformat : string -> option Z.

Lemma add_unseen_grows_by_one (st : Merge) (m : Market) :
  (length (add_unseen st m).2 <= S (length st.2))%nat.
Proof.
  unfold add_unseen. destruct (decide (id m ∈ st.1)); cbn; [lia|].
  rewrite length_app. cbn. lia.
Qed.

Lemma merge_event_markets_bound (et : string) (cap : nat) (mkts : list RawMarket) :
  forall st st',
    merge_event_markets fromisoformat mkts et cap st = Ok st' ->
    (length st'.2 <= Nat.max cap (S (length st.2)))%nat.
Proof.
  induction mkts as [|mkt rest IH]; intros st st' Hrun; cbn in Hrun.
  - injection Hrun as <-. lia.
  - destruct (_parse_market fromisoformat mkt et) as [market|e];
      cbn [bind] in Hrun; [|discriminate].
    set (st1 := match market with
                | Some m => add_unseen st m
                | None => st
                end) in *.
    assert (length st1.2 <= S (length st.2))%nat as H1.
    { subst st1. destruct market; [apply add_unseen_grows_by_one | lia]. }
    destruct (cap <=? length st1.2)%nat eqn:E.
    + injection Hrun as <-. lia.
    + apply Nat.leb_gt in E. specialize (IH _ _ Hrun). lia.
Qed.

Lemma merge_events_bound (cap : nat) (events : list RawEvent) :
  forall st st',
    merge_events fromisoformat events cap st = Ok st' ->
    (length st'.2 <= Nat.max cap (S (length st.2)))%nat.
Proof.
  induction events as [|ev rest IH]; intros st st' Hrun; cbn in Hrun.
  - injection Hrun as <-. lia.
  - destruct (merge_event_markets fromisoformat (ev_markets ev) (text (ev_title ev))
                cap st) as [st1|e] eqn:E1; cbn [bind] in Hrun; [|discriminate].
    pose proof (merge_event_markets_bound _ _ _ _ _ E1) as H1.
    destruct (cap <=? length st1.2)%nat eqn:E.
    + injection Hrun as <-. exact H1.
    + apply Nat.leb_gt in E. specialize (IH _ _ Hrun). lia.
Qed.

Lemma fold_add_unseen_length (ms : list Market) :
  forall st, (length (fold_left add_unseen ms st).2 <= length st.2 + length ms)%nat.
Proof.
  induction ms as [|m ms IH]; intros st; cbn [fold_left length]; [lia|].
  specialize (IH (add_unseen st m)).
  pose proof (add_unseen_grows_by_one st m). lia.
Qed.

(** X13.  The cap [max_markets] binds the events sweep only, and is
    looked at after a market is added: the returned list is never longer
    than the larger of the cap and one more than the number of markets of
    the series sweep. *)
Theorem kalshi_fetch_cap (s : Config.Settings) (v : Venue)
    (max_markets : nat) (ms : list Market) :
  fetch_active_markets fromisoformat s v (Some max_markets) = Ok ms ->
  (length ms
   <= Nat.max max_markets (S (length (all_series_markets fromisoformat v))))%nat.
Proof.
  unfold fetch_active_markets. intros Hrun.
  match type of Hrun with
  | bind (merge_events _ ?evs ?mx ?st0) _ = _ =>
      destruct (merge_events fromisoformat evs mx st0) as [st|e] eqn:E;
      cbn [bind] in Hrun; [|discriminate];
      pose proof (merge_events_bound _ _ _ _ E) as Hb
  end.
  injection Hrun as <-.
  pose proof (fold_add_unseen_length (all_series_markets fromisoformat v) (∅, []))
    as Hs.
  cbn [snd length] in Hs. lia.
Qed.

End Cap.

Lemma kalshi_fetch_cap_witness :
  exists ms, fetch_active_markets Scenario.no_dates Config.settings
                                  Cases.venue_twice (Some 1%nat) = Ok ms
             /\ (length ms <= 1)%nat.
Proof.
  destruct (fetch_active_markets Scenario.no_dates Config.settings
                                 Cases.venue_twice (Some 1%nat)) as [ms|e] eqn:E;
    [|vm_compute in E; discriminate].
  exists ms. split; [reflexivity|].
  pose proof (kalshi_fetch_cap Scenario.no_dates Config.settings
                Cases.venue_twice 1 ms E) as H.
  assert (length (all_series_markets Scenario.no_dates Cases.venue_twice) = 0%nat)
    as H0 by (vm_compute; reflexivity).
  rewrite H0 in H. exact H.
Defined.

End KalshiLimits.

Module PolymarketLimits.
Import Polymarket.

Section Cap.
Variable fromisoformat : string -> option Z.

Lemma append_markets_capped (ev : RawEvent) (cap : nat) (mkts : list RawMarket) :
  forall acc ms,
    append_markets fromisoformat ev mkts cap acc = Ok ms ->
    (length acc < cap)%nat -> (length ms <= cap)%nat.
Proof.
  induction mkts as [|mkt rest IH]; intros acc ms Hrun Hlt; cbn in Hrun.
  - injection Hrun as <-. lia.
  - destruct (market_of fromisoformat ev mkt) as [m|e]; cbn [bind] in Hrun;
      [|discriminate].
    destruct (cap <=? length (acc ++ [m]))%nat eqn:E.
    + injection Hrun as <-. rewrite length_app. cbn. lia.
    + apply Nat.leb_gt in E. apply (IH _ _ Hrun E).
Qed.

Lemma append_events_capped (cap : nat) (events : list RawEvent) :
  forall acc ms,
    append_events fromisoformat events cap acc = Ok ms ->
    (length acc < cap)%nat -> (length ms <= cap)%nat.
Proof.
  induction events as [|ev rest IH]; intros acc ms Hrun Hlt; cbn in Hrun.
  - injection Hrun as <-. lia.
  - destruct (append_markets fromisoformat ev (ev_markets ev) cap acc)
      as [ms1|e] eqn:E1; cbn [bind] in Hrun; [|discriminate].
    pose proof (append_markets_capped _ _ _ _ _ E1 Hlt) as H1.
    destruct (cap <=? length ms1)%nat eqn:E.
    + injection Hrun as <-. exact H1.
    + apply Nat.leb_gt in E. apply (IH _ _ Hrun E).
Qed.

Lemma fetch_loop_bound (answers : list (Result (Response (list RawEvent))))
    (cap : nat) :
  forall acc ms,
    fetch_loop fromisoformat answers cap acc = Ok ms ->
    (length acc <= cap)%nat -> (length ms <= cap)%nat.
Proof.
  induction answers as [|a rest IH]; intros acc ms Hrun Hle; cbn [fetch_loop] in Hrun.
  - destruct (length acc <? cap)%nat; injection Hrun as <-; exact Hle.
  - destruct (length acc <? cap)%nat eqn:Elt; [|injection Hrun as <-; exact Hle].
    apply Nat.ltb_lt in Elt.
    destruct (events_of a) as [[|ev evs]|]; try (injection Hrun as <-; exact Hle).
    destruct (append_events fromisoformat (ev :: evs) cap acc) as [ms1|e] eqn:E1;
      cbn [bind] in Hrun; [|discriminate].
    pose proof (append_events_capped _ _ _ _ E1 Elt) as H1.
    destruct (length (ev :: evs) <? limit)%nat.
    + injection Hrun as <-. exact H1.
    + apply (IH _ _ Hrun H1).
Qed.

(** X14.  The list [fetch_active_markets] returns never has more than
    [max_markets] markets, and is empty for a cap of 0. *)
Theorem polymarket_fetch_cap (s : Config.Settings)
    (answers : list (Result (Response (list RawEvent))))
    (max_markets : nat) (ms : list Market) :
  fetch_active_markets fromisoformat s answers (Some max_markets) = Ok ms ->
  (length ms <= max_markets)%nat.
Proof.
  unfold fetch_active_markets. intros Hrun.
  apply (fetch_loop_bound _ _ _ _ Hrun). cbn. lia.
Qed.

End Cap.

Lemma polymarket_fetch_cap_witness :
  exists ms, fetch_active_markets Scenario.no_dates Config.settings
               [Ok (mkResponse 200
                      (Some [Scenario.event_p [Scenario.priceless_p;
                                               Scenario.fractions_p]]))]
               (Some 1%nat) = Ok ms
             /\ (length ms <= 1)%nat.
Proof.
  destruct (fetch_active_markets Scenario.no_dates Config.settings
              [Ok (mkResponse 200
                     (Some [Scenario.event_p [Scenario.priceless_p;
                                              Scenario.fractions_p]]))]
              (Some 1%nat)) as [ms|e] eqn:E; [|vm_compute in E; discriminate].
  exists ms. split; [reflexivity|].
  apply (polymarket_fetch_cap Scenario.no_dates Config.settings _ 1 ms E).
Defined.

End PolymarketLimits.

(* ===================================================================== *)
(** * Order book enrichment on both venues *)
(* ===================================================================== *)

Module EnrichmentFacts.

(** ** Venue K *)

Lemma derive_asks_idle (o : Outcome) :
  yes_bid o <= 0 -> no_bid o <= 0 -> KalshiBook.derive_asks o = o.
Proof.
  intros Hy Hn. unfold KalshiBook.derive_asks.
  cases_Qltb 0 (no_bid o); [lra|].
  cases_Qltb 0 (yes_bid o); [lra|]. reflexivity.
Qed.

Lemma kalshi_empty_book (outs : list Outcome) :
  (forall o, In o outs -> yes_bid o <= 0 /\ no_bid o <= 0) ->
  KalshiBook.enrich_outcomes KalshiBook.no_book outs = (outs, None).
Proof.
  induction outs as [|o rest IH]; intros Hall; cbn [KalshiBook.enrich_outcomes];
    [reflexivity|].
  unfold KalshiBook.enrich_outcome. cbn.
  destruct (Hall o (or_introl eq_refl)) as [Hy Hn].
  rewrite (derive_asks_idle o Hy Hn).
  rewrite IH; [reflexivity|]. intros x Hx. apply Hall. right. exact Hx.
Qed.

(** X15.  When the order book request fails, after the retries or
    otherwise, enrichment raises nothing and returns a market whose bids
    were unset exactly as it was. *)
Theorem failed_book_fetch_changes_nothing
    (server : nat -> Result (Response KalshiBook.Orderbook)) (m : Market) (e : Exn) :
  Kalshi.outcome (Kalshi._get_with_retry server) = Raise e ->
  (forall o, In o (outcomes m) -> yes_bid o <= 0 /\ no_bid o <= 0) ->
  KalshiBook.enrich_outcomes_with_orderbook server m = (m, None).
Proof.
  intros Hfail Hall. unfold KalshiBook.enrich_outcomes_with_orderbook.
  unfold KalshiBook.fetch_orderbook. rewrite Hfail.
  rewrite (kalshi_empty_book _ Hall). destruct m. reflexivity.
Qed.

Lemma failed_book_fetch_changes_nothing_witness :
  KalshiBook.enrich_outcomes_with_orderbook Cases.always_throttled Cases.market_k
  = (Cases.market_k, None).
Proof.
  apply (failed_book_fetch_changes_nothing Cases.always_throttled Cases.market_k
           (HTTPStatusError 429)).
  - reflexivity.
  - intros o [<- | []]. split; vm_compute; discriminate.
Defined.

(** X16.  From a book whose best YES bid and best NO bid are priced above
    0 and up to 100, an outcome gets the two bids, in dollars, and the two
    depths of those levels; each ask is one minus the bid of the other
    side, rounded to four places, and lies between 0 and 1. *)
Theorem kalshi_quotes_from_book (book : KalshiBook.Orderbook) (o : Outcome)
    (p sz q sq : Q) (ry rn : list KalshiBook.Entry) :
  KalshiBook.yes book = KalshiBook.Level (Num p) (Num sz) :: ry ->
  KalshiBook.no book = KalshiBook.Level (Num q) (Num sq) :: rn ->
  0 < p <= 100 -> 0 < q <= 100 ->
  exists o',
    KalshiBook.enrich_outcome book o = (o', None)
    /\ yes_bid o' = (if Qltb 1 p then p / 100 else p) /\ yes_depth o' = sz
    /\ no_bid o' = (if Qltb 1 q then q / 100 else q) /\ no_depth o' = sq
    /\ yes_ask o' = round_dp 4 (1 - no_bid o')
    /\ no_ask o' = round_dp 4 (1 - yes_bid o')
    /\ 0 <= yes_ask o' <= 1 /\ 0 <= no_ask o' <= 1.
Proof.
  intros Hyes Hno Hp Hq.
  unfold KalshiBook.enrich_outcome, KalshiBook.apply_side.
  rewrite Hyes, Hno. cbn [KalshiBook.price_val KalshiBook.size_val
                          KalshiBook.price_raw float_of bind
                          Polymarket.assign Polymarket.and_then].
  set (pb := if Qltb 1 p then p / 100 else p).
  set (qb := if Qltb 1 q then q / 100 else q).
  assert (0 < pb <= 1) as Hpb.
  { subst pb. cases_Qltb 1 p; unfold Qdiv; change (/ 100) with (1 # 100); lra. }
  assert (0 < qb <= 1) as Hqb.
  { subst qb. cases_Qltb 1 q; unfold Qdiv; change (/ 100) with (1 # 100); lra. }
  eexists. split; [reflexivity|].
  unfold KalshiBook.derive_asks.
  cbn [no_bid yes_bid KalshiBook.set_no_depth KalshiBook.set_no_bid
       KalshiBook.set_yes_depth KalshiBook.set_yes_bid].
  destruct Hpb as [Hpb0 Hpb1]. destruct Hqb as [Hqb0 Hqb1].
  pose proof Hpb0 as Ep. apply Qltb_lt in Ep.
  pose proof Hqb0 as Eq. apply Qltb_lt in Eq.
  rewrite Eq. cbn [yes_bid]. rewrite Ep.
  cbn [yes_bid yes_depth no_bid no_depth yes_ask no_ask].
  repeat (split; [reflexivity|]).
  split; apply round_dp4_unit; lra.
Qed.

Lemma kalshi_quotes_from_book_witness :
  exists o',
    KalshiBook.enrich_outcome Cases.book_k
      (new_outcome "Will X happen?" (45 # 100) (55 # 100) "KX-1") = (o', None)
    /\ yes_bid o' == 45 # 100 /\ no_bid o' == 53 # 100
    /\ yes_ask o' == 47 # 100 /\ no_ask o' == 55 # 100.
Proof.
  destruct (kalshi_quotes_from_book Cases.book_k
              (new_outcome "Will X happen?" (45 # 100) (55 # 100) "KX-1")
              45 40 53 25 [] [])
    as (o' & Hrun & Hyb & _ & Hnb & _ & Hya & Hna & _);
    try reflexivity; try (split; [reflexivity | vm_compute; discriminate]).
  exists o'. split; [exact Hrun|].
  rewrite Hya, Hna, Hnb, Hyb. repeat split; DetectorFacts.Qeval.
Defined.

(** ** Both venues: what enrichment leaves alone *)

Lemma assign_identity (o : Outcome) (v : Result Q) (set : Outcome -> Q -> Outcome) :
  (forall x q, Cases.identity (set x q) = Cases.identity x) ->
  Cases.identity (Polymarket.assign o v set).1 = Cases.identity o.
Proof.
  intros Hset. unfold Polymarket.assign. destruct v; cbn; [apply Hset | reflexivity].
Qed.

Lemma and_then_identity (u : Polymarket.Update) (k : Outcome -> Polymarket.Update)
    (o : Outcome) :
  Cases.identity u.1 = Cases.identity o ->
  (forall x, Cases.identity (k x).1 = Cases.identity x) ->
  Cases.identity (Polymarket.and_then u k).1 = Cases.identity o.
Proof.
  intros Hu Hk. unfold Polymarket.and_then. destruct u as [x [e|]]; cbn in *.
  - exact Hu.
  - rewrite Hk. exact Hu.
Qed.

Lemma polymarket_outcome_identity (book : Polymarket.Book) (o : Outcome) :
  Cases.identity (Polymarket.enrich_outcome book o).1 = Cases.identity o.
Proof.
  unfold Polymarket.enrich_outcome.
  apply and_then_identity.
  - unfold Polymarket.apply_asks. destruct (Polymarket.asks book) as [|a rest];
      [reflexivity|].
    destruct (Polymarket.best_level _ _ _ _) as [best|e]; [|reflexivity].
    apply and_then_identity; [apply assign_identity; reflexivity|].
    intros x. apply assign_identity. reflexivity.
  - intros x. apply and_then_identity.
    + unfold Polymarket.apply_bids. destruct (Polymarket.bids book) as [|b rest];
        [reflexivity|].
      destruct (Polymarket.best_level _ _ _ _) as [best|e]; [|reflexivity].
      apply assign_identity. reflexivity.
    + intros y. reflexivity.
Qed.

Lemma kalshi_outcome_identity (book : KalshiBook.Orderbook) (o : Outcome) :
  Cases.identity (KalshiBook.enrich_outcome book o).1 = Cases.identity o.
Proof.
  unfold KalshiBook.enrich_outcome.
  assert (forall side sb sd x,
             (forall y q, Cases.identity (sb y q) = Cases.identity y) ->
             (forall y q, Cases.identity (sd y q) = Cases.identity y) ->
             Cases.identity (KalshiBook.apply_side side sb sd x).1
             = Cases.identity x) as Hside.
  { intros side sb sd x Hsb Hsd. unfold KalshiBook.apply_side.
    destruct side as [|best rest]; [reflexivity|].
    apply and_then_identity; [apply assign_identity; exact Hsb|].
    intros y. apply assign_identity. exact Hsd. }
  apply and_then_identity; [apply Hside; reflexivity|].
  intros x. apply and_then_identity; [apply Hside; reflexivity|].
  intros y. unfold KalshiBook.derive_asks.
  destruct (Qltb 0 (no_bid y)); cbn [yes_bid];
    destruct (Qltb 0 (yes_bid y)); reflexivity.
Qed.

Lemma polymarket_outcomes_identity (outs : list Outcome) :
  forall books,
    map Cases.identity (Polymarket.enrich_outcomes books outs).1
    = map Cases.identity outs.
Proof.
  induction outs as [|o rest IH]; intros books; cbn [Polymarket.enrich_outcomes];
    [reflexivity|].
  destruct (negb (truthy (Some (token_id o)))).
  - specialize (IH books).
    destruct (Polymarket.enrich_outcomes books rest) as [rest' r].
    cbn in *. rewrite IH. reflexivity.
  - pose proof (polymarket_outcome_identity
                  (match books with b :: _ => b | [] => Polymarket.empty_book end) o)
      as Ho.
    destruct (Polymarket.enrich_outcome _ o) as [o' [e|]]; cbn in Ho |- *.
    + rewrite Ho. reflexivity.
    + specialize (IH (tl books)).
      destruct (Polymarket.enrich_outcomes (tl books) rest) as [rest' r].
      cbn in *. rewrite Ho, IH. reflexivity.
Qed.

Lemma kalshi_outcomes_identity (book : KalshiBook.Orderbook) (outs : list Outcome) :
  map Cases.identity (KalshiBook.enrich_outcomes book outs).1
  = map Cases.identity outs.
Proof.
  induction outs as [|o rest IH]; cbn [KalshiBook.enrich_outcomes]; [reflexivity|].
  pose proof (kalshi_outcome_identity book o) as Ho.
  destruct (KalshiBook.enrich_outcome book o) as [o' [e|]]; cbn in Ho |- *.
  - rewrite Ho. reflexivity.
  - destruct (KalshiBook.enrich_outcomes book rest) as [rest' r].
    cbn in *. rewrite Ho, IH. reflexivity.
Qed.

(** X17.  On either venue, and whether it returns or raises, enrichment
    leaves every outcome its name, its two mid prices and its token id,
    keeps the outcomes in number and order, and changes nothing else of
    the market. *)
Theorem enrichment_keeps_identity :
  (forall books m,
      let m' := (Polymarket.enrich_outcomes_with_orderbook books m).1 in
      map Cases.identity (outcomes m') = map Cases.identity (outcomes m)
      /\ Polymarket.with_outcomes m' (outcomes m) = m)
  /\ (forall server m,
        let m' := (KalshiBook.enrich_outcomes_with_orderbook server m).1 in
        map Cases.identity (outcomes m') = map Cases.identity (outcomes m)
        /\ Polymarket.with_outcomes m' (outcomes m) = m).
Proof.
  split.
  - intros books m. cbv zeta. unfold Polymarket.enrich_outcomes_with_orderbook.
    pose proof (polymarket_outcomes_identity (outcomes m) books) as H.
    destruct (Polymarket.enrich_outcomes books (outcomes m)) as [outs r].
    cbn in *. split; [exact H | destruct m; reflexivity].
  - intros server m. cbv zeta. unfold KalshiBook.enrich_outcomes_with_orderbook.
    pose proof (kalshi_outcomes_identity (KalshiBook.fetch_orderbook server)
                  (outcomes m)) as H.
    destruct (KalshiBook.enrich_outcomes _ (outcomes m)) as [outs r].
    cbn in *. split; [exact H | destruct m; reflexivity].
Qed.

(** ** Venue P: the best ask and the best bid *)

(** [max(bids, key=price)] returns one of the bids, and none is dearer. *)
Lemma best_from_max (rest : list Polymarket.Level) :
  forall best bk b,
    float_get (Polymarket.lv_price best) 0 = Ok bk ->
    Polymarket.best_from (fun k best => Qltb best k) 0 best bk rest = Ok b ->
    In b (best :: rest)
    /\ exists kb, float_get (Polymarket.lv_price b) 0 = Ok kb /\ bk <= kb
                  /\ forall l, In l rest ->
                       exists k, float_get (Polymarket.lv_price l) 0 = Ok k /\ k <= kb.
Proof.
  induction rest as [|l0 rest IH]; intros best bk b Hbk Hrun; cbn in Hrun.
  - injection Hrun as <-. split; [left; reflexivity|].
    exists bk. split; [exact Hbk|]. split; [lra | intros l []].
  - destruct (float_get (Polymarket.lv_price l0) 0) as [k0|e] eqn:Ek;
      cbn [bind] in Hrun; [|discriminate].
    cases_Qltb bk k0.
    + destruct (IH l0 k0 b Ek Hrun) as (Hin & kb & Hkb & Hle & Hall).
      split; [destruct Hin as [<- | Hin]; cbn; auto|].
      exists kb. split; [exact Hkb|]. split; [lra|].
      intros l [<- | Hl]; [exists k0; auto | apply Hall; exact Hl].
    + destruct (IH best bk b Hbk Hrun) as (Hin & kb & Hkb & Hle & Hall).
      split; [destruct Hin as [<- | Hin]; cbn; auto|].
      exists kb. split; [exact Hkb|]. split; [exact Hle|].
      intros l [<- | Hl]; [exists k0; split; [exact Ek | lra] | apply Hall; exact Hl].
Qed.

Lemma best_bid_max (a : Polymarket.Level) (rest : list Polymarket.Level)
    (b : Polymarket.Level) :
  Polymarket.best_level (fun k best => Qltb best k) 0 a rest = Ok b ->
  In b (a :: rest)
  /\ exists kb, float_get (Polymarket.lv_price b) 0 = Ok kb
                /\ forall l, In l (a :: rest) ->
                     exists k, float_get (Polymarket.lv_price l) 0 = Ok k /\ k <= kb.
Proof.
  unfold Polymarket.best_level.
  destruct (float_get (Polymarket.lv_price a) 0) as [ka|e] eqn:Ea; cbn [bind];
    [|discriminate].
  intros Hrun.
  destruct (best_from_max rest a ka b Ea Hrun) as (Hin & kb & Hkb & Hle & Hall).
  split; [exact Hin|]. exists kb. split; [exact Hkb|].
  intros l [<- | Hl]; [exists ka; auto | apply Hall; exact Hl].
Qed.

Lemma apply_asks_best (book : Polymarket.Book) (o o1 : Outcome) :
  Polymarket.apply_asks book o = (o1, None) ->
  yes_bid o1 = yes_bid o
  /\ forall a rest, Polymarket.asks book = a :: rest ->
       exists best, Polymarket.best_level Qltb 999 a rest = Ok best
                    /\ float_get (Polymarket.lv_price best) 0 = Ok (yes_ask o1).
Proof.
  unfold Polymarket.apply_asks. destruct (Polymarket.asks book) as [|a rest].
  - intros [= <-]. split; [reflexivity | discriminate].
  - destruct (Polymarket.best_level Qltb 999 a rest) as [best|e] eqn:Eb;
      [|discriminate].
    unfold Polymarket.assign, Polymarket.and_then.
    destruct (float_get (Polymarket.lv_price best) 0) as [pa|e] eqn:Ep; [|discriminate].
    destruct (float_get (Polymarket.lv_size best) 0) as [sz|e]; [|discriminate].
    intros [= <-]. cbn. split; [reflexivity|].
    intros a' rest' [= <- <-]. exists best. split; [exact Eb | exact Ep].
Qed.

Lemma apply_bids_best (book : Polymarket.Book) (o1 o2 : Outcome) :
  Polymarket.apply_bids book o1 = (o2, None) ->
  yes_ask o2 = yes_ask o1
  /\ forall b rest, Polymarket.bids book = b :: rest ->
       exists best,
         Polymarket.best_level (fun k best => Qltb best k) 0 b rest = Ok best
         /\ float_get (Polymarket.lv_price best) 0 = Ok (yes_bid o2).
Proof.
  unfold Polymarket.apply_bids. destruct (Polymarket.bids book) as [|b rest].
  - intros [= <-]. split; [reflexivity | discriminate].
  - destruct (Polymarket.best_level _ 0 b rest) as [best|e] eqn:Eb; [|discriminate].
    unfold Polymarket.assign.
    destruct (float_get (Polymarket.lv_price best) 0) as [pb|e] eqn:Ep; [|discriminate].
    intros [= <-]. cbn. split; [reflexivity|].
    intros b' rest' [= <- <-]. exists best. split; [exact Eb | exact Ep].
Qed.

(** X18.  When the loop body completes on a book whose levels all carry a
    numeric price: with asks in the book, the stored YES ask is the price
    of one of them and no ask is cheaper; with bids in the book, the
    stored YES bid is the price of one of them and no bid is dearer; the
    NO ask and NO bid are one minus the YES bid and the YES ask, rounded
    to four places, or 0 when that quote is 0. *)
Theorem polymarket_best_quotes (book : Polymarket.Book) (o o' : Outcome) :
  Polymarket.enrich_outcome book o = (o', None) ->
  Cases.priced book ->
  (Polymarket.asks book <> [] ->
   (exists l, In l (Polymarket.asks book) /\ Polymarket.lv_price l = Num (yes_ask o'))
   /\ forall l q, In l (Polymarket.asks book) -> Polymarket.lv_price l = Num q ->
                  yes_ask o' <= q)
  /\ (Polymarket.bids book <> [] ->
      (exists l, In l (Polymarket.bids book) /\ Polymarket.lv_price l = Num (yes_bid o'))
      /\ forall l q, In l (Polymarket.bids book) -> Polymarket.lv_price l = Num q ->
                     q <= yes_bid o')
  /\ no_ask o' = (if Qeq_bool (yes_bid o') 0 then 0 else round_dp 4 (1 - yes_bid o'))
  /\ no_bid o' = (if Qeq_bool (yes_ask o') 0 then 0 else round_dp 4 (1 - yes_ask o')).
Proof.
  unfold Polymarket.enrich_outcome, Polymarket.and_then.
  destruct (Polymarket.apply_asks book o) as [o1 [e|]] eqn:Ea; [discriminate|].
  destruct (Polymarket.apply_bids book o1) as [o2 [e|]] eqn:Eb; [discriminate|].
  intros [= <-] Hpriced.
  apply apply_asks_best in Ea. destruct Ea as (_ & Hasks).
  apply apply_bids_best in Eb. destruct Eb as (Hkeep & Hbids).
  cbn [yes_ask yes_bid no_ask no_bid Polymarket.derive_no_side].
  split; [|split; [|split; reflexivity]].
  - destruct (Polymarket.asks book) as [|a rest] eqn:Ebook; [intros []; reflexivity|].
    intros _. destruct (Hasks a rest eq_refl) as (best & Hbest & Hprice).
    destruct (PolymarketFacts.best_ask_min a rest best Hbest) as (Hin & kb & Hkb & Hall).
    destruct (Hpriced best) as [qb Hqb].
    { apply in_or_app. left. rewrite Ebook. exact Hin. }
    rewrite Hqb in Hprice, Hkb. cbn in Hprice, Hkb.
    injection Hprice as Hprice. injection Hkb as Hkb.
    rewrite Hkeep, <- Hprice. split.
    + exists best. split; [exact Hin | exact Hqb].
    + intros l q Hl Hq. destruct (Hall l Hl) as (k & Hk & Hle).
      rewrite Hq in Hk. cbn in Hk. injection Hk as <-. rewrite Hkb. exact Hle.
  - destruct (Polymarket.bids book) as [|b rest] eqn:Ebook; [intros []; reflexivity|].
    intros _. destruct (Hbids b rest eq_refl) as (best & Hbest & Hprice).
    destruct (best_bid_max b rest best Hbest) as (Hin & kb & Hkb & Hall).
    destruct (Hpriced best) as [qb Hqb].
    { apply in_or_app. right. rewrite Ebook. exact Hin. }
    rewrite Hqb in Hprice, Hkb. cbn in Hprice, Hkb.
    injection Hprice as Hprice. injection Hkb as Hkb.
    rewrite <- Hprice. split.
    + exists best. split; [exact Hin | exact Hqb].
    + intros l q Hl Hq. destruct (Hall l Hl) as (k & Hk & Hle).
      rewrite Hq in Hk. cbn in Hk. injection Hk as <-. rewrite Hkb. exact Hle.
Qed.

Lemma polymarket_best_quotes_witness :
  exists o',
    Polymarket.enrich_outcome Scenario.book_p
      (new_outcome "Yes" (52 # 100) (48 # 100) "tok-yes") = (o', None)
    /\ forall l q, In l (Polymarket.asks Scenario.book_p) ->
                   Polymarket.lv_price l = Num q -> yes_ask o' <= q.
Proof.
  destruct (Polymarket.enrich_outcome Scenario.book_p
              (new_outcome "Yes" (52 # 100) (48 # 100) "tok-yes"))
    as [o' [e|]] eqn:E; [vm_compute in E; discriminate|].
  exists o'. split; [reflexivity|].
  assert (Cases.priced Scenario.book_p) as Hpriced.
  { intros l Hl. cbn in Hl.
    destruct Hl as [<- | [<- | [<- | []]]]; eexists; reflexivity. }
  destruct (polymarket_best_quotes Scenario.book_p _ o' E Hpriced) as (Hasks & _).
  apply Hasks. discriminate.
Defined.

End EnrichmentFacts.

(* ===================================================================== *)
(** * Venue P: outcomes of a market object *)
(* ===================================================================== *)

Module PolymarketMore.
Import Polymarket.

Lemma parse_outcome_fields (mkt : RawMarket) (i : nat) (nm : string) (o : Outcome) :
  parse_outcome mkt i nm = Ok o ->
  name o = nm
  /\ token_id o = nth i (r_clobTokenIds mkt) EmptyString
  /\ yes_ask o = 0 /\ no_ask o = 0 /\ yes_bid o = 0 /\ no_bid o = 0
  /\ yes_depth o = 0 /\ no_depth o = 0.
Proof.
  unfold parse_outcome.
  destruct (match nth_error (r_outcomePrices mkt) i with
            | Some v => float_of v
            | None => Ok 0
            end) as [price|e]; cbn [bind]; [|discriminate].
  intros [= <-]. cbn. repeat split.
  revert i. induction (r_clobTokenIds mkt) as [|t ts IH]; intros [|i]; cbn; auto.
Qed.

Lemma parse_outcomes_from_names (mkt : RawMarket) (names : list string) :
  forall i acc outs,
    parse_outcomes_from mkt i names acc = Ok outs ->
    map name outs = map name acc ++ names.
Proof.
  induction names as [|nm rest IH]; intros i acc outs Hrun; cbn in Hrun.
  - injection Hrun as <-. rewrite app_nil_r. reflexivity.
  - destruct (parse_outcome mkt i nm) as [o0|e] eqn:E0; cbn [bind] in Hrun;
      [|discriminate].
    rewrite (IH _ _ _ Hrun), map_app. cbn.
    apply parse_outcome_fields in E0. destruct E0 as [-> _].
    rewrite <- app_assoc. reflexivity.
Qed.

Lemma parse_outcomes_from_returns (mkt : RawMarket) (names : list string) :
  forall i acc,
    (exists outs, parse_outcomes_from mkt i names acc = Ok outs)
    <-> forall j v, (j < length names)%nat ->
                    nth_error (r_outcomePrices mkt) (i + j) = Some v ->
                    exists q, v = Num q.
Proof.
  induction names as [|nm rest IH]; intros i acc; cbn [parse_outcomes_from length].
  - split; [intros _ j v Hj; lia | intros _; eexists; reflexivity].
  - unfold parse_outcome at 1.
    destruct (nth_error (r_outcomePrices mkt) i) as [v0|] eqn:E0.
    + destruct v0 as [|q0|]; cbn [float_of bind].
      * split; [intros [outs H]; discriminate|].
        intros H. destruct (H 0%nat Absent) as [q Hq]; [lia | | discriminate].
        rewrite Nat.add_0_r. exact E0.
      * rewrite IH. split; intros H j v Hj Hv.
        -- destruct j as [|j].
           ++ rewrite Nat.add_0_r, E0 in Hv. injection Hv as <-. eauto.
           ++ apply (H j v); [lia|].
              replace (S i + j)%nat with (i + S j)%nat by lia. exact Hv.
        -- apply (H (S j) v); [lia|].
           replace (i + S j)%nat with (S i + j)%nat by lia. exact Hv.
      * split; [intros [outs H]; discriminate|].
        intros H. destruct (H 0%nat NotANumber) as [q Hq]; [lia | | discriminate].
        rewrite Nat.add_0_r. exact E0.
    + cbn [bind]. rewrite IH. split; intros H j v Hj Hv.
      * destruct j as [|j].
        -- rewrite Nat.add_0_r, E0 in Hv. discriminate.
        -- apply (H j v); [lia|].
           replace (S i + j)%nat with (i + S j)%nat by lia. exact Hv.
      * apply (H (S j) v); [lia|].
        replace (i + S j)%nat with (S i + j)%nat by lia. exact Hv.
Qed.

(** X19.  [_parse_outcomes] returns when each of the first
    [len(outcome_names)] entries of [outcomePrices] is a number, a name
    past the end of the prices being no obstacle.  It returns one outcome
    per outcome name, named after it and in the same order; the outcome at
    position j has the j-th CLOB token id, or the empty token id when
    there are fewer token ids than names, and no ask, bid or depth yet. *)
Theorem parsed_outcomes_follow_names (mkt : RawMarket) :
  (forall j v, (j < length (r_outcomes mkt))%nat ->
               nth_error (r_outcomePrices mkt) j = Some v -> exists q, v = Num q) ->
  exists outs,
    _parse_outcomes mkt = Ok outs
    /\ map name outs = r_outcomes mkt
    /\ forall j o, nth_error outs j = Some o ->
         token_id o = nth j (r_clobTokenIds mkt) EmptyString
         /\ yes_ask o = 0 /\ no_ask o = 0 /\ yes_bid o = 0 /\ no_bid o = 0
         /\ yes_depth o = 0 /\ no_depth o = 0.
Proof.
  intros Hnum.
  destruct (proj2 (parse_outcomes_from_returns mkt (r_outcomes mkt) 0%nat []) Hnum)
    as [outs Hrun].
  exists outs. split; [exact Hrun|]. split.
  - apply (parse_outcomes_from_names _ _ _ _ _ Hrun).
  - destruct (PolymarketFacts.parse_outcomes_from_spec _ _ _ _ _ Hrun)
      as (news & -> & _ & Hall).
    intros j o Hj. cbn in Hj. destruct (Hall j o Hj) as (nm & _ & Hp).
    cbn in Hp. apply parse_outcome_fields in Hp. tauto.
Qed.

Lemma parsed_outcomes_follow_names_witness :
  exists outs, _parse_outcomes Scenario.fractions_p = Ok outs
               /\ map name outs = r_outcomes Scenario.fractions_p.
Proof.
  destruct (parsed_outcomes_follow_names Scenario.fractions_p)
    as (outs & Hrun & Hnames & _).
  - intros j v Hj Hv. cbn in Hj, Hv.
    repeat (destruct j as [|j]; [injection Hv as <-; eexists; reflexivity|]);
      cbn in Hj; lia.
  - exists outs. split; [exact Hrun | exact Hnames].
Defined.

End PolymarketMore.

(* ===================================================================== *)
(** * The matcher: where pairs come from *)
(* ===================================================================== *)

Module MatcherMore.
Import Matcher.

Section Origin.
Variable token_sort_ratio : string -> string -> Q.

(** [extractOne]: the choice returned is the one at the returned index,
    the score is its ratio, and the score reaches the cutoff. *)
Lemma extract_from_sound (query : string) (cutoff : Q) (choices : list string) :
  forall pre result ch s i,
    (forall ch0 s0 i0, result = Some (ch0, s0, i0) ->
       nth_error (pre ++ choices) i0 = Some ch0
       /\ s0 = token_sort_ratio query ch0 /\ cutoff <= s0) ->
    extract_from token_sort_ratio query choices (length pre) cutoff result
    = Some (ch, s, i) ->
    nth_error (pre ++ choices) i = Some ch
    /\ s = token_sort_ratio query ch /\ cutoff <= s.
Proof.
  induction choices as [|c rest IH]; intros pre result ch s i Hres Hrun;
    cbn [extract_from] in Hrun.
  - apply Hres. exact Hrun.
  - replace (pre ++ c :: rest) with ((pre ++ [c]) ++ rest)
      by (rewrite <- app_assoc; reflexivity).
    replace (S (length pre)) with (length (pre ++ [c])) in Hrun
      by (rewrite length_app; cbn; lia).
    apply (IH _ _ _ _ _) in Hrun; [exact Hrun|].
    intros ch0 s0 i0 Hsome.
    rewrite <- app_assoc. cbn [app].
    destruct (Qleb cutoff (token_sort_ratio query c)) eqn:Ecut; cbn [andb] in Hsome.
    + destruct (match result with
                | Some (_, s1, _) => Qltb s1 (token_sort_ratio query c)
                | None => true
                end).
      * injection Hsome as <- <- <-.
        rewrite nth_error_app2 by lia. rewrite Nat.sub_diag. cbn.
        repeat split. apply Qleb_le. exact Ecut.
      * apply Hres. exact Hsome.
    + apply Hres. exact Hsome.
Qed.

Lemma extractOne_sound (query : string) (choices : list string) (cutoff : Q)
    (ch : string) (s : Q) (i : nat) :
  extractOne token_sort_ratio query choices cutoff = Some (ch, s, i) ->
  nth_error choices i = Some ch /\ s = token_sort_ratio query ch /\ cutoff <= s.
Proof.
  unfold extractOne. intros Hrun.
  apply (extract_from_sound query cutoff choices [] None ch s i); [|exact Hrun].
  intros ch0 s0 i0 Hsome. discriminate.
Qed.

Lemma poly_by_id_in (pms : list Market) (t : string) (pm : Market) :
  poly_by_id pms !! t = Some pm -> In pm pms.
Proof.
  unfold poly_by_id.
  assert (forall (d : gmap string Market) (t : string) pm,
             fold_left (fun d pm => <[ id pm := pm ]> d) pms d !! t = Some pm ->
             In pm pms \/ d !! t = Some pm) as Hloop.
  { induction pms as [|p pms IH]; intros d t0 pm0 H; cbn [fold_left] in H; [auto|].
    destruct (IH _ _ _ H) as [Hin | Hd]; [left; right; exact Hin|].
    destruct (decide (id p = t0)) as [<- | Hne].
    - rewrite lookup_insert_eq in Hd. injection Hd as <-. left. left. reflexivity.
    - rewrite lookup_insert_ne in Hd by exact Hne. auto. }
  intros H. destruct (Hloop ∅ t pm H) as [Hin | Hd]; [exact Hin|].
  rewrite lookup_empty in Hd. discriminate.
Qed.

Variable mt : MarketMatcher.
Variables kalshi_markets polymarket_markets : list Market.

Let Override := Cases.by_override mt kalshi_markets polymarket_markets.
Let Cached := Cases.by_cache mt kalshi_markets.
Let Fuzzy := Cases.by_fuzzy token_sort_ratio mt kalshi_markets polymarket_markets.

(** The override loop: every pair it builds is an override pair, and the
    cache holds what it held plus such pairs. *)
Lemma override_loop_origin (kms : list Market) :
  forall st,
    (forall km, In km kms -> In km kalshi_markets) ->
    (forall m, In m (override_matches st) -> Override m) ->
    (forall (k : string) m, ov_cache st !! k = Some m ->
                            _cache mt !! k = Some m \/ Override m) ->
    let st' := fold_left (override_step (_manual_overrides mt)
                                        (poly_by_id polymarket_markets)) kms st in
    (forall m, In m (override_matches st') -> Override m)
    /\ (forall (k : string) m, ov_cache st' !! k = Some m ->
                               _cache mt !! k = Some m \/ Override m).
Proof.
  induction kms as [|km kms IH]; intros st Hsub Hm Hc; cbn [fold_left]; [auto|].
  assert (forall pm, _manual_overrides mt !! id km = Some (id pm) ->
                     poly_by_id polymarket_markets !! id pm = Some pm ->
                     Override (_build_match km pm 100)) as Hnew.
  { intros pm Ht Hp. exists km, pm.
    split; [apply Hsub; left; reflexivity|].
    split; [apply (poly_by_id_in _ _ _ Hp)|]. split; [exact Ht | reflexivity]. }
  apply IH; [intros x Hx; apply Hsub; right; exact Hx | |];
    destruct (MatcherFacts.override_step_cases (_manual_overrides mt)
                (poly_by_id polymarket_markets) st km)
      as [-> | (target & pm & Ht & Hp & ->)]; try assumption.
  - cbn [override_matches]. intros m Hin. apply in_app_or in Hin.
    destruct Hin as [Hin | [<- | []]]; [apply Hm; exact Hin|].
    pose proof (MatcherFacts.poly_by_id_keyed _ _ _ Hp) as <-.
    apply Hnew; assumption.
  - cbn [ov_cache]. intros k m Hk.
    destruct (decide (id km = k)) as [<- | Hne].
    + rewrite lookup_insert_eq in Hk. injection Hk as <-. right.
      pose proof (MatcherFacts.poly_by_id_keyed _ _ _ Hp) as <-.
      apply Hnew; assumption.
    + rewrite lookup_insert_ne in Hk by exact Hne. apply Hc. exact Hk.
Qed.

(** The fuzzy loop: every candidate is an override pair, a cache entry or
    a fresh fuzzy match. *)
Lemma fuzzy_step_origin ovk poly_list st km :
  In km kalshi_markets ->
  (forall pm, In pm poly_list -> In pm polymarket_markets) ->
  (forall (k : string) m, fz_cache st !! k = Some m ->
                          _cache mt !! k = Some m \/ Override m \/ Fuzzy m) ->
  (forall e, In e (best_matches st) -> Override e.2.2 \/ Cached e.2.2 \/ Fuzzy e.2.2) ->
  let st' := fuzzy_step token_sort_ratio mt ovk poly_list
               (map (fun pm => _normalize (title pm)) poly_list) st km in
  (forall (k : string) m, fz_cache st' !! k = Some m ->
                          _cache mt !! k = Some m \/ Override m \/ Fuzzy m)
  /\ (forall e, In e (best_matches st') ->
                Override e.2.2 \/ Cached e.2.2 \/ Fuzzy e.2.2).
Proof.
  intros Hkm Hsub Hc Hb. cbv zeta. unfold fuzzy_step.
  destruct (decide (id km ∈ ovk)); [auto|].
  destruct (decide (id km ∈ _excluded mt)) as [|Hex]; [auto|].
  destruct (fz_cache st !! id km) as [cached|] eqn:Ec.
  - cbn. split; [exact Hc|]. intros e He.
    apply MatcherFacts.keep_best_in in He.
    destruct He as [-> | He]; [|apply Hb; exact He]. cbn.
    destruct (Hc _ _ Ec) as [H | [H | H]]; [|auto|auto].
    right. left. exists km. auto.
  - destruct (extractOne _ _ _ _) as [[[choice score] idx]|] eqn:Ex; [|cbn; auto].
    destruct (nth_error poly_list idx) as [pm|] eqn:Epm; [|cbn; auto].
    apply extractOne_sound in Ex. destruct Ex as (Hch & Hs & Hcut).
    rewrite List.nth_error_map, Epm in Hch. cbn in Hch. injection Hch as <-.
    assert (Fuzzy (_build_match km pm score)) as Hnew.
    { exists km, pm. split; [exact Hkm|].
      split; [apply Hsub; apply (nth_error_In _ _ Epm)|].
      split; [exact Hex|]. rewrite <- Hs. split; [exact Hcut | reflexivity]. }
    destruct (improves _ _ _); cbn; [|auto]. split.
    + intros k m Hk. destruct (decide (id km = k)) as [<- | Hne].
      * rewrite lookup_insert_eq in Hk. injection Hk as <-. auto.
      * rewrite lookup_insert_ne in Hk by exact Hne. apply Hc. exact Hk.
    + intros e He. apply MatcherFacts.alist_set_in in He.
      destruct He as [-> | He]; [cbn; auto | apply Hb; exact He].
Qed.

Lemma fuzzy_loop_origin ovk poly_list (kms : list Market) :
  forall st,
    (forall km, In km kms -> In km kalshi_markets) ->
    (forall pm, In pm poly_list -> In pm polymarket_markets) ->
    (forall (k : string) m, fz_cache st !! k = Some m ->
                            _cache mt !! k = Some m \/ Override m \/ Fuzzy m) ->
    (forall e, In e (best_matches st) ->
               Override e.2.2 \/ Cached e.2.2 \/ Fuzzy e.2.2) ->
    let st' := fold_left (fuzzy_step token_sort_ratio mt ovk poly_list
                            (map (fun pm => _normalize (title pm)) poly_list))
                         kms st in
    (forall (k : string) m, fz_cache st' !! k = Some m ->
                            _cache mt !! k = Some m \/ Override m \/ Fuzzy m)
    /\ (forall e, In e (best_matches st') ->
                  Override e.2.2 \/ Cached e.2.2 \/ Fuzzy e.2.2).
Proof.
  induction kms as [|km kms IH]; intros st Hsub Hpl Hc Hb; cbn [fold_left]; [auto|].
  destruct (fuzzy_step_origin ovk poly_list st km) as [Hc' Hb']; try assumption.
  { apply Hsub. left. reflexivity. }
  apply IH; try assumption. intros x Hx. apply Hsub. right. exact Hx.
Qed.

(** Every pair [match] returns is an override pair, a cache entry of a
    listed Kalshi market that is not excluded, or a fresh fuzzy match. *)
Lemma matched_origin (m : MatchedMarket) :
  In m (matched (match_ token_sort_ratio mt kalshi_markets polymarket_markets)) ->
  Cases.origin token_sort_ratio mt kalshi_markets polymarket_markets m.
Proof.
  unfold match_, Cases.origin.
  destruct (is_nil kalshi_markets || is_nil polymarket_markets); [intros []|].
  destruct (override_loop_origin kalshi_markets (mkOverrides [] (_cache mt) ∅ ∅))
    as [Hom Hoc]; [auto | intros x [] | cbn; auto |].
  set (ov := fold_left _ kalshi_markets (mkOverrides [] (_cache mt) ∅ ∅)) in *.
  match goal with
  | |- context [is_nil ?titles] => destruct (is_nil titles)
  end.
  - cbn [matched]. intros Hin. left. apply Hom. exact Hin.
  - cbn [matched]. rewrite in_sort_desc. intros Hin. apply in_app_or in Hin.
    destruct Hin as [Hin | Hin]; [left; apply Hom; exact Hin|].
    apply in_map_iff in Hin. destruct Hin as (e & <- & He).
    revert e He.
    apply (MatcherFacts.poly_best_forall
             (fun x => Override x.2 \/ Cached x.2 \/ Fuzzy x.2)).
    apply (MatcherFacts.kalshi_best_forall
             (fun x => Override x.2 \/ Cached x.2 \/ Fuzzy x.2)).
    match goal with
    | |- context [fold_left (fuzzy_step _ _ ?ovk ?pl _) _ ?st0] =>
        destruct (fuzzy_loop_origin ovk pl kalshi_markets st0) as [_ Hfb];
          [auto | | | intros e [] | exact Hfb]
    end.
    + intros pm Hpm. apply filter_In in Hpm. tauto.
    + cbn [fz_cache]. intros k m0 Hk. destruct (Hoc _ _ Hk); auto.
Qed.

End Origin.

(** X20.  On a matcher whose cache is empty and on listed titles that are
    ASCII text, every pair [match] returns joins a listed Kalshi market
    and a listed Polymarket market, with their first outcomes.  It is
    either the pair a manual override names, at score 100, or a pair whose
    score is the token sort ratio of the two normalized titles and reaches
    the threshold, the Kalshi market not being excluded. *)
Theorem fresh_scan_pairs (token_sort_ratio : string -> string -> Q)
    (mt : MarketMatcher) (kalshi_markets polymarket_markets : list Market)
    (m : MatchedMarket) :
  Forall (fun km => Cases.ascii_text (title km)) kalshi_markets ->
  Forall (fun pm => Cases.ascii_text (title pm)) polymarket_markets ->
  _cache mt = ∅ ->
  In m (matched (match_ token_sort_ratio mt kalshi_markets polymarket_markets)) ->
  In (kalshi_market m) kalshi_markets
  /\ In (polymarket_market m) polymarket_markets
  /\ kalshi_outcome m = head (outcomes (kalshi_market m))
  /\ polymarket_outcome m = head (outcomes (polymarket_market m))
  /\ ((similarity_score m = 100
       /\ _manual_overrides mt !! id (kalshi_market m)
          = Some (id (polymarket_market m)))
      \/ (similarity_score m
          = token_sort_ratio (_normalize (title (kalshi_market m)))
                             (_normalize (title (polymarket_market m)))
          /\ threshold mt <= similarity_score m
          /\ id (kalshi_market m) ∉ _excluded mt)).
Proof.
  intros _ _ Hempty Hin. apply matched_origin in Hin.
  destruct Hin as [(km & pm & Hk & Hp & Ho & ->)
                  | [(km & _ & _ & Hc) | (km & pm & Hk & Hp & He & Ht & ->)]].
  - cbn. repeat split; auto.
  - rewrite Hempty, lookup_empty in Hc. discriminate.
  - cbn. repeat split; auto.
Qed.

Lemma fresh_scan_pairs_witness :
  In Scenario.k1 [Scenario.k1] /\ In Scenario.p9 [Scenario.p9; Scenario.p5].
Proof.
  destruct (fresh_scan_pairs Scenario.exact_ratio Scenario.overriding
              [Scenario.k1] [Scenario.p9; Scenario.p5]
              (_build_match Scenario.k1 Scenario.p9 100))
    as (Hk & Hp & _).
  - constructor; [vm_compute; repeat split; lia | constructor].
  - constructor; [vm_compute; repeat split; lia|].
    constructor; [vm_compute; repeat split; lia | constructor].
  - reflexivity.
  - vm_compute. left. reflexivity.
  - split; [exact Hk | exact Hp].
Defined.

(** X21.  With a cache whose entries are filed under their own Kalshi id,
    a returned pair for an excluded Kalshi market can only be the pair its
    manual override names, at score 100: exclusion stops the cache and the
    fuzzy search, not the overrides. *)
Theorem excluded_market_only_by_override (token_sort_ratio : string -> string -> Q)
    (mt : MarketMatcher) (kalshi_markets polymarket_markets : list Market)
    (m : MatchedMarket) :
  Inv.cache_keyed (_cache mt) ->
  In m (matched (match_ token_sort_ratio mt kalshi_markets polymarket_markets)) ->
  id (kalshi_market m) ∈ _excluded mt ->
  similarity_score m = 100
  /\ _manual_overrides mt !! id (kalshi_market m) = Some (id (polymarket_market m))
  /\ In (polymarket_market m) polymarket_markets.
Proof.
  intros Hkeyed Hin Hex. apply matched_origin in Hin.
  destruct Hin as [(km & pm & Hk & Hp & Ho & ->)
                  | [(km & _ & He & Hc) | (km & pm & Hk & Hp & He & Ht & ->)]].
  - cbn. auto.
  - exfalso. apply He. rewrite <- (Hkeyed _ _ Hc). exact Hex.
  - exfalso. apply He. exact Hex.
Qed.

Lemma excluded_market_only_by_override_witness :
  similarity_score (_build_match Scenario.k2 Scenario.p9 100) = 100
  /\ _manual_overrides Cases.excluding !! "K2"%string = Some "P9"%string.
Proof.
  destruct (excluded_market_only_by_override Scenario.exact_ratio Cases.excluding
              [Scenario.k1; Scenario.k2] [Scenario.p9; Scenario.p5]
              (_build_match Scenario.k2 Scenario.p9 100))
    as (Hs & Ho & _).
  - intros k m Hk. unfold Cases.excluding in Hk. cbn [_cache] in Hk.
    rewrite lookup_empty in Hk. discriminate.
  - vm_compute. left. reflexivity.
  - vm_compute. reflexivity.
  - split; [exact Hs | exact Ho].
Defined.

Lemma matched_kalshi_ids_are_listed (token_sort_ratio : string -> string -> Q)
    (mt : MarketMatcher) (kalshi_markets polymarket_markets : list Market)
    (m : MatchedMarket) :
  Inv.cache_keyed (_cache mt) ->
  In m (matched (match_ token_sort_ratio mt kalshi_markets polymarket_markets)) ->
  In (id (kalshi_market m)) (map id kalshi_markets).
Proof.
  intros Hkeyed Hin. apply matched_origin in Hin.
  destruct Hin as [(km & pm & Hk & Hp & Ho & ->)
                  | [(km & Hk & He & Hc) | (km & pm & Hk & Hp & He & Ht & ->)]].
  - cbn. apply in_map. exact Hk.
  - rewrite (Hkeyed _ _ Hc). apply in_map. exact Hk.
  - cbn. apply in_map. exact Hk.
Qed.

Ltac distinct_ids :=
  repeat (apply List.NoDup_cons; [cbn; intuition discriminate|]);
  apply List.NoDup_nil.

(** ** Order of the result *)

Lemma constant_key_descending {A} (key : A -> Q) (c : Q) (l : list A) :
  (forall a, In a l -> key a = c) -> Cases.descending key l.
Proof.
  unfold Cases.descending. induction l as [|a l IH]; intros Hc; constructor.
  - apply IH. intros x Hx. apply Hc. right. exact Hx.
  - apply List.Forall_forall. intros x Hx.
    rewrite (Hc a (or_introl eq_refl)), (Hc x (or_intror Hx)). lra.
Qed.

(** X22.  The pairs [match] returns are in descending order of similarity
    score, also when it returns the override pairs alone. *)
Theorem pairs_by_descending_similarity (token_sort_ratio : string -> string -> Q)
    (mt : MarketMatcher) (kalshi_markets polymarket_markets : list Market) :
  Cases.descending similarity_score
    (matched (match_ token_sort_ratio mt kalshi_markets polymarket_markets)).
Proof.
  unfold match_.
  destruct (is_nil kalshi_markets || is_nil polymarket_markets); [constructor|].
  destruct (override_loop_origin mt kalshi_markets polymarket_markets
              kalshi_markets (mkOverrides [] (_cache mt) ∅ ∅))
    as [Hom _]; [auto | intros x [] | cbn; auto |].
  match goal with
  | |- context [is_nil ?titles] => destruct (is_nil titles)
  end.
  - cbn [matched]. apply (constant_key_descending _ 100).
    intros m Hm. destruct (Hom m Hm) as (km & pm & _ & _ & _ & ->). reflexivity.
  - cbn [matched]. apply DetectorMore.sort_desc_descending.
Qed.

(** ** Overrides *)

Lemma override_step_mono overrides by_id (st : Overrides) (km : Market) :
  (forall m, In m (override_matches st) ->
             In m (override_matches (override_step overrides by_id st km)))
  /\ (forall k : string, k ∈ overridden_kalshi st ->
                         k ∈ overridden_kalshi (override_step overrides by_id st km)).
Proof.
  destruct (MatcherFacts.override_step_cases overrides by_id st km)
    as [-> | (target & pm & _ & _ & ->)]; [auto|].
  cbn. split.
  - intros m Hm. apply in_or_app. left. exact Hm.
  - intros k Hk. apply elem_of_union. right. exact Hk.
Qed.

Lemma override_loop_mono overrides by_id (kms : list Market) :
  forall st,
    (forall m, In m (override_matches st) ->
               In m (override_matches (fold_left (override_step overrides by_id) kms st)))
    /\ (forall k : string, k ∈ overridden_kalshi st ->
          k ∈ overridden_kalshi (fold_left (override_step overrides by_id) kms st)).
Proof.
  induction kms as [|km kms IH]; intros st; cbn [fold_left]; [auto|].
  destruct (override_step_mono overrides by_id st km) as [Hm Hk].
  destruct (IH (override_step overrides by_id st km)) as [Hm' Hk'].
  split; auto.
Qed.

Lemma override_loop_takes overrides by_id (kms : list Market) (km pm : Market)
    (t : string) :
  In km kms -> overrides !! id km = Some t -> by_id !! t = Some pm ->
  forall st,
    let st' := fold_left (override_step overrides by_id) kms st in
    In (_build_match km pm 100) (override_matches st')
    /\ id km ∈ overridden_kalshi st'.
Proof.
  intros Hin Ho Hp. induction kms as [|k0 kms IH]; [destruct Hin|].
  intros st. cbn [fold_left]. destruct Hin as [-> | Hin]; [|apply IH; exact Hin].
  destruct (override_loop_mono overrides by_id kms
              (override_step overrides by_id st km)) as [Hm Hk].
  cbv zeta. split; [apply Hm | apply Hk]; unfold override_step; rewrite Ho, Hp; cbn.
  - apply in_or_app. right. left. reflexivity.
  - apply elem_of_union. left. apply elem_of_singleton. reflexivity.
Qed.

Lemma poly_by_id_lookup (pms : list Market) (pm : Market) :
  List.NoDup (map id pms) -> In pm pms -> poly_by_id pms !! id pm = Some pm.
Proof.
  unfold poly_by_id.
  assert (forall (l : list Market) (d : gmap string Market) (k : string),
             ~ In k (map id l) ->
             fold_left (fun d pm => <[ id pm := pm ]> d) l d !! k = d !! k) as Hskip.
  { induction l as [|p l IH]; intros d k Hk; cbn [fold_left]; [reflexivity|].
    rewrite IH by (intros H; apply Hk; right; exact H).
    apply lookup_insert_ne. intros Heq. apply Hk. left. exact Heq. }
  assert (forall (d : gmap string Market),
             List.NoDup (map id pms) -> In pm pms ->
             fold_left (fun d pm => <[ id pm := pm ]> d) pms d !! id pm = Some pm)
    as Hloop.
  { induction pms as [|p pms IH]; intros d Hnd Hin; [destruct Hin|].
    cbn [fold_left]. cbn in Hnd. inversion Hnd as [|x l Hnot Hnd']; subst.
    destruct Hin as [-> | Hin]; [|apply IH; assumption].
    rewrite Hskip by exact Hnot. apply lookup_insert_eq. }
  apply Hloop.
Qed.

Lemma fuzzy_loop_extracted (token_sort_ratio : string -> string -> Q)
    mt ovk poly_list poly_titles (kms : list Market) :
  forall st,
    (forall x, In x (extracted st) -> x ∉ ovk) ->
    forall x,
      In x (extracted (fold_left
                         (fuzzy_step token_sort_ratio mt ovk poly_list poly_titles)
                         kms st)) ->
      x ∉ ovk.
Proof.
  induction kms as [|km kms IH]; intros st Hst; cbn [fold_left]; [exact Hst|].
  apply IH. unfold fuzzy_step.
  destruct (decide (id km ∈ ovk)) as [|Hov]; [exact Hst|].
  destruct (decide (id km ∈ _excluded mt)); [exact Hst|].
  destruct (fz_cache st !! id km); [exact Hst|].
  assert (forall x, In x (extracted st ++ [id km]) -> x ∉ ovk) as Hnew.
  { intros x Hx. apply in_app_or in Hx.
    destruct Hx as [Hx | [<- | []]]; [apply Hst; exact Hx | exact Hov]. }
  destruct (extractOne _ _ _ _) as [[[choice score] idx]|]; [|exact Hnew].
  destruct (nth_error poly_list idx); [|exact Hnew].
  destruct (improves _ _ _); exact Hnew.
Qed.

(** X23.  When a listed Kalshi market has a manual override naming the id
    of a listed Polymarket market, and the listed Polymarket ids are
    distinct, [match] returns the pair of the two at score 100 and never
    runs the fuzzy search for that Kalshi market. *)
Theorem override_is_honoured (token_sort_ratio : string -> string -> Q)
    (mt : MarketMatcher) (kalshi_markets polymarket_markets : list Market)
    (km pm : Market) :
  In km kalshi_markets -> In pm polymarket_markets ->
  List.NoDup (map id polymarket_markets) ->
  _manual_overrides mt !! id km = Some (id pm) ->
  let run := match_ token_sort_ratio mt kalshi_markets polymarket_markets in
  In (_build_match km pm 100) (matched run)
  /\ ~ In (id km) (extraction_log run).
Proof.
  intros Hkm Hpm Hnd Ho. cbv zeta. unfold match_.
  destruct kalshi_markets as [|k0 kms] eqn:Ek; [destruct Hkm|].
  destruct polymarket_markets as [|p0 pms] eqn:Ep; [destruct Hpm|].
  cbn [is_nil orb]. rewrite <- Ek, <- Ep in *.
  destruct (override_loop_takes (_manual_overrides mt)
              (poly_by_id polymarket_markets) kalshi_markets km pm (id pm)
              Hkm Ho (poly_by_id_lookup _ _ Hnd Hpm)
              (mkOverrides [] (_cache mt) ∅ ∅)) as [Hin Hov].
  set (ov := fold_left _ kalshi_markets (mkOverrides [] (_cache mt) ∅ ∅)) in *.
  match goal with
  | |- context [is_nil ?titles] => destruct (is_nil titles)
  end.
  - cbn. split; [exact Hin | intros []].
  - cbn [matched extraction_log]. split.
    + apply in_sort_desc. apply in_or_app. left. exact Hin.
    + intros Hx. revert Hov.
      eapply fuzzy_loop_extracted; [|exact Hx]. intros x [].
Qed.

Lemma override_is_honoured_witness :
  In (_build_match Scenario.k2 Scenario.p9 100)
     (matched (match_ Scenario.exact_ratio Scenario.overriding
                 [Scenario.k1; Scenario.k2] [Scenario.p9; Scenario.p5])).
Proof.
  destruct (override_is_honoured Scenario.exact_ratio Scenario.overriding
              [Scenario.k1; Scenario.k2] [Scenario.p9; Scenario.p5]
              Scenario.k2 Scenario.p9) as [Hin _].
  - right. left. reflexivity.
  - left. reflexivity.
  - distinct_ids.
  - reflexivity.
  - exact Hin.
Defined.

(** ** Scan after scan *)

(** X24.  Starting from a cache whose entries are filed under their own
    Kalshi id (the empty cache is one), in every scan whose listed Kalshi
    ids are distinct the returned pairs are for listed Kalshi markets and
    no Kalshi id is in two of them, however many scans ran before on the
    same matcher. *)
Theorem kalshi_ids_distinct_in_every_scan (token_sort_ratio : string -> string -> Q)
    (scans : list (list Market * list Market)) :
  forall mt,
    Inv.cache_keyed (_cache mt) ->
    Forall (fun sc => List.NoDup (map id sc.1)) scans ->
    Forall2 (fun sc pairs =>
               List.NoDup (Scenario.kalshi_ids pairs)
               /\ forall m, In m pairs -> In (id (kalshi_market m)) (map id sc.1))
            scans (Cases.rescan token_sort_ratio mt scans).
Proof.
  induction scans as [|[kms pms] scans IH]; intros mt Hkeyed Hall;
    cbn [Cases.rescan]; [constructor|].
  inversion Hall as [|x l Hnd Hrest]; subst. cbn in Hnd.
  destruct (MatcherFacts.kalshi_ids_unique token_sort_ratio mt kms pms Hnd Hkeyed)
    as [Hids Hkeyed'].
  constructor; [|apply IH; assumption].
  split; [exact Hids|]. intros m Hm.
  apply (matched_kalshi_ids_are_listed token_sort_ratio mt kms pms m Hkeyed Hm).
Qed.

Lemma kalshi_ids_distinct_in_every_scan_witness :
  Forall2 (fun sc pairs =>
             List.NoDup (Scenario.kalshi_ids pairs)
             /\ forall m, In m pairs -> In (id (kalshi_market m)) (map id sc.1))
          [([Scenario.k1], [Scenario.p9; Scenario.p5]);
           ([Scenario.k1; Scenario.k2], [Scenario.p9; Scenario.p5])]
          (Cases.rescan Scenario.exact_ratio Scenario.overriding
             [([Scenario.k1], [Scenario.p9; Scenario.p5]);
              ([Scenario.k1; Scenario.k2], [Scenario.p9; Scenario.p5])]).
Proof.
  apply (kalshi_ids_distinct_in_every_scan Scenario.exact_ratio).
  - intros k m Hk. unfold Scenario.overriding in Hk. cbn [_cache] in Hk.
    rewrite lookup_empty in Hk. discriminate.
  - constructor; [cbn; distinct_ids|].
    constructor; [cbn; distinct_ids | constructor].
Defined.

End MatcherMore.

(* ===================================================================== *)
(** * The scanner *)
(* ===================================================================== *)

Module ScannerFacts.
Import Scanner.

(** ** The error ring *)

Lemma last_n_length {A} (n : nat) (l : list A) : (length (last_n n l) <= n)%nat.
Proof. unfold last_n. rewrite length_skipn. lia. Qed.

Lemma last_n_short {A} (n : nat) (l : list A) :
  (length l <= n)%nat -> last_n n l = l.
Proof.
  intros H. unfold last_n. replace (length l - n)%nat with 0%nat by lia. reflexivity.
Qed.

Lemma last_n_app_long {A} (n : nat) (a b : list A) :
  (n <= length b)%nat -> last_n n (a ++ b) = last_n n b.
Proof.
  intros H. unfold last_n. rewrite length_app, skipn_app.
  rewrite skipn_all2 by lia. cbn [app]. f_equal. lia.
Qed.

Lemma last_n_last_n_app {A} (n : nat) (l r : list A) :
  last_n n (last_n n l ++ r) = last_n n (l ++ r).
Proof.
  destruct (Nat.le_gt_cases (length l) n) as [Hshort | Hlong].
  - rewrite (last_n_short n l Hshort). reflexivity.
  - unfold last_n at 2.
    rewrite <- (firstn_skipn (length l - n) l) at 3.
    rewrite <- app_assoc. symmetry. apply last_n_app_long.
    rewrite length_app, length_skipn. lia.
Qed.

Lemma run_loop_errors (ticks : list (Tick * bool)) :
  forall backoff tr,
    (length (errors tr) <= 20)%nat ->
    errors (run_loop ticks backoff tr)
    = last_n 20 (errors tr ++ Cases.messages ticks).
Proof.
  induction ticks as [|[[|exc] stopped] rest IH]; intros backoff tr Hlen;
    cbn [run_loop Cases.messages app].
  - rewrite app_nil_r, last_n_short by exact Hlen. reflexivity.
  - destruct stopped.
    + cbn. rewrite app_nil_r, last_n_short by exact Hlen. reflexivity.
    + rewrite IH by exact Hlen. reflexivity.
  - destruct stopped.
    + cbn. reflexivity.
    + rewrite IH by (cbn; apply last_n_length). cbn [errors].
      rewrite last_n_last_n_app, <- app_assoc. reflexivity.
Qed.

(** X25.  Started with at most 20 recorded errors, the loop leaves in
    [stats.errors] the 20 most recent of the errors recorded before and
    the messages of the scans that failed since, oldest first: never more
    than 20. *)
Theorem errors_are_the_last_twenty (ticks : list (Tick * bool))
    (errors0 : list string) :
  (length errors0 <= 20)%nat ->
  errors (_run_loop ticks errors0) = last_n 20 (errors0 ++ Cases.messages ticks)
  /\ (length (errors (_run_loop ticks errors0)) <= 20)%nat.
Proof.
  intros Hlen. unfold _run_loop.
  rewrite run_loop_errors by exact Hlen. cbn [errors].
  split; [reflexivity | apply last_n_length].
Qed.

Lemma errors_are_the_last_twenty_witness :
  errors (_run_loop [(Failed "timeout", false); (Scanned, false);
                     (Failed "refused", true)] ["Scan error: old"%string])
  = ["Scan error: old"; "Scan error: timeout"; "Scan error: refused"]%string.
Proof.
  destruct (errors_are_the_last_twenty
              [(Failed "timeout", false); (Scanned, false); (Failed "refused", true)]
              ["Scan error: old"%string]) as [H _].
  - cbn. lia.
  - rewrite H. reflexivity.
Defined.

(** ** The back-off *)

Lemma run_loop_slept_bounds (ticks : list (Tick * bool)) :
  forall backoff tr,
    1 <= backoff <= 60 ->
    Forall (fun b => 1 <= b <= 60) (slept tr) ->
    Forall (fun b => 1 <= b <= 60) (slept (run_loop ticks backoff tr)).
Proof.
  induction ticks as [|[[|exc] stopped] rest IH]; intros backoff tr Hb Htr;
    cbn [run_loop]; [exact Htr | |].
  - destruct stopped; [exact Htr|]. apply IH; [lra | exact Htr].
  - assert (Forall (fun b => 1 <= b <= 60) (slept tr ++ [backoff])) as Hnew.
    { apply Forall_app. split; [exact Htr|]. constructor; [exact Hb | constructor]. }
    destruct stopped; [exact Hnew|].
    apply IH; [|exact Hnew].
    unfold py_min, max_backoff. cases_Qltb 60 (backoff * 2); lra.
Qed.

Lemma cap_step (i : nat) :
  py_min (py_min (inject_Z (2 ^ Z.of_nat i)) 60 * 2) max_backoff
  == py_min (inject_Z (2 ^ Z.of_nat (S i))) 60.
Proof.
  assert (inject_Z (2 ^ Z.of_nat (S i)) == inject_Z (2 ^ Z.of_nat i) * 2) as Hpow.
  { rewrite Nat2Z.inj_succ, Z.pow_succ_r by lia.
    rewrite inject_Z_mult. change (inject_Z 2) with 2. ring. }
  assert (0 < inject_Z (2 ^ Z.of_nat i)) as Hpos.
  { change 0 with (inject_Z 0). rewrite <- Zlt_Qlt. apply Z.pow_pos_nonneg; lia. }
  unfold py_min, max_backoff.
  cases_Qltb 60 (inject_Z (2 ^ Z.of_nat i)).
  - cases_Qltb 60 (60 * 2); [|lra].
    cases_Qltb 60 (inject_Z (2 ^ Z.of_nat (S i))); [reflexivity | lra].
  - cases_Qltb 60 (inject_Z (2 ^ Z.of_nat i) * 2);
      cases_Qltb 60 (inject_Z (2 ^ Z.of_nat (S i))); lra.
Qed.

Lemma Forall2_Qeq_refl (l : list Q) : Forall2 Qeq l l.
Proof. induction l; constructor; [reflexivity | assumption]. Qed.

Lemma run_loop_failures (excs : list string) :
  forall i backoff tr pre,
    backoff == py_min (inject_Z (2 ^ Z.of_nat i)) 60 ->
    Forall2 Qeq (slept tr) pre ->
    Forall2 Qeq (slept (run_loop (Cases.failures excs) backoff tr))
            (pre ++ map (fun j => py_min (inject_Z (2 ^ Z.of_nat j)) 60)
                        (seq i (length excs))).
Proof.
  induction excs as [|exc excs IH]; intros i backoff tr pre Hb Hpre;
    cbn [Cases.failures map run_loop length seq].
  - rewrite app_nil_r. exact Hpre.
  - fold (Cases.failures excs).
    specialize (IH (S i) (py_min (backoff * 2) max_backoff)
                   (mkTrace (last_n 20 (errors tr ++ [("Scan error: " ++ exc)%string]))
                            (slept tr ++ [backoff]) (waits tr))
                   (pre ++ [py_min (inject_Z (2 ^ Z.of_nat i)) 60])).
    rewrite <- app_assoc in IH. cbn [app] in IH. apply IH.
    + rewrite <- cap_step. clear IH.
      set (c := py_min (inject_Z (2 ^ Z.of_nat i)) 60) in *. clearbody c.
      unfold py_min, max_backoff.
      cases_Qltb 60 (backoff * 2); cases_Qltb 60 (c * 2); lra.
    + cbn [slept]. apply Forall2_app; [exact Hpre|].
      constructor; [exact Hb | constructor].
Qed.

(** X26.  Every back-off the loop sleeps after a failed scan is between 1
    and 60 seconds.  Scans that fail one after the other are followed by
    back-offs of 1, 2, 4, ... seconds, capped at 60: from the start of the
    loop, and again from 1 after any scan that returned. *)
Theorem backoff_doubles_from_one :
  (forall ticks errors0,
      Forall (fun b => 1 <= b <= 60) (slept (_run_loop ticks errors0)))
  /\ (forall excs errors0,
        Forall2 Qeq (slept (_run_loop (Cases.failures excs) errors0))
                (Cases.capped_doubling (length excs)))
  /\ (forall excs backoff tr,
        Forall2 Qeq (slept (run_loop ((Scanned, false) :: Cases.failures excs)
                                     backoff tr))
                (slept tr ++ Cases.capped_doubling (length excs))).
Proof.
  split; [|split].
  - intros ticks errors0. unfold _run_loop.
    apply run_loop_slept_bounds; [lra | constructor].
  - intros excs errors0. unfold _run_loop.
    apply (run_loop_failures excs 0%nat 1 (mkTrace errors0 [] 0) []);
      [reflexivity | constructor].
  - intros excs backoff tr. cbn [run_loop].
    apply (run_loop_failures excs 0%nat 1
             (mkTrace (errors tr) (slept tr) (S (waits tr))) (slept tr));
      [reflexivity | apply Forall2_Qeq_refl].
Qed.

(** ** Subscribers *)

Lemma remove_first_filter (x : nat) (l : list nat) :
  List.NoDup l -> remove_first x l = List.filter (fun y => negb (Nat.eqb x y)) l.
Proof.
  induction l as [|y r IH]; intros Hnd; cbn; [reflexivity|].
  inversion Hnd as [|y' r' Hnot Hnd']; subst.
  destruct (Nat.eqb x y) eqn:E; cbn.
  - apply Nat.eqb_eq in E. subst y. symmetry.
    apply List.forallb_filter_id. apply List.forallb_forall.
    intros z Hz. apply negb_true_iff, Nat.eqb_neq. intros ->. contradiction.
  - rewrite IH by exact Hnd'. reflexivity.
Qed.

Lemma remove_all_filter (dead : list nat) :
  forall l, List.NoDup l ->
    fold_left (fun l cb => remove_first cb l) dead l
    = List.filter (fun y => negb (existsb (Nat.eqb y) dead)) l.
Proof.
  induction dead as [|d dead IH]; intros l Hnd; cbn [fold_left existsb].
  - symmetry. apply List.forallb_filter_id. apply List.forallb_forall. auto.
  - rewrite IH by (rewrite remove_first_filter by exact Hnd;
                   apply List.NoDup_filter; exact Hnd).
    rewrite remove_first_filter by exact Hnd.
    clear. induction l as [|y l IHl]; cbn; [reflexivity|].
    rewrite (Nat.eqb_sym y d).
    destruct (Nat.eqb d y); cbn; [exact IHl|].
    destruct (existsb (Nat.eqb y) dead); cbn; [exact IHl | f_equal; exact IHl].
Qed.

(** X27.  With each callback registered once, [_broadcast] calls every
    registered callback, in order of registration, and afterwards exactly
    the callbacks that did not raise are still registered, in their
    order. *)
Theorem broadcast_drops_the_callbacks_that_raise (raises : nat -> bool)
    (subs : list nat) :
  List.NoDup subs ->
  _broadcast raises subs
  = (subs, List.filter (fun cb => negb (raises cb)) subs).
Proof.
  intros Hnd. unfold _broadcast. destruct subs as [|cb0 rest] eqn:E; [reflexivity|].
  rewrite <- E in *. f_equal.
  rewrite remove_all_filter by exact Hnd.
  apply List.filter_ext_in. intros y Hy. f_equal.
  destruct (raises y) eqn:Er.
  - apply existsb_exists. exists y. split; [|apply Nat.eqb_refl].
    apply filter_In. auto.
  - destruct (existsb (Nat.eqb y) (List.filter raises subs)) eqn:Ex; [|reflexivity].
    apply existsb_exists in Ex. destruct Ex as (z & Hz & Hyz).
    apply Nat.eqb_eq in Hyz. subst z. apply filter_In in Hz.
    destruct Hz as [_ Hz]. congruence.
Qed.

Lemma broadcast_drops_the_callbacks_that_raise_witness :
  _broadcast (fun cb => Nat.eqb cb 2) [1; 2; 3]%nat = ([1; 2; 3]%nat, [1; 3]%nat).
Proof.
  apply (broadcast_drops_the_callbacks_that_raise (fun cb => Nat.eqb cb 2)
           [1; 2; 3]%nat).
  repeat (apply List.NoDup_cons; [cbn; intuition discriminate|]).
  apply List.NoDup_nil.
Defined.

(** ** Live settings *)

Lemma update_settings_matcher scan_interval min_profit_cents (t : Q) auto_execute
    max_position_usd (lv : Live) :
  matcher (update_settings scan_interval min_profit_cents (Some t) auto_execute
                           max_position_usd lv)
  = Matcher.mkMatcher t ∅ (Matcher._excluded (matcher lv))
                      (Matcher._manual_overrides (matcher lv)).
Proof.
  destruct scan_interval, min_profit_cents, auto_execute, max_position_usd;
    reflexivity.
Qed.

(** X28.  After [update_settings] with a match threshold, whatever else it
    sets, the matcher has the new threshold, an empty cache and its
    exclusions and overrides as before; so every pair of the next scan is
    an override pair at score 100 or scores at least the new threshold: no
    pair cached under the old threshold survives. *)
Theorem threshold_update_applies_to_next_scan
    (token_sort_ratio : string -> string -> Q)
    scan_interval min_profit_cents (t : Q) auto_execute max_position_usd
    (lv : Live) (kalshi_markets polymarket_markets : list Market) :
  let mt := matcher (update_settings scan_interval min_profit_cents (Some t)
                                     auto_execute max_position_usd lv) in
  Matcher.threshold mt = t
  /\ Matcher._cache mt = ∅
  /\ Matcher._excluded mt = Matcher._excluded (matcher lv)
  /\ Matcher._manual_overrides mt = Matcher._manual_overrides (matcher lv)
  /\ forall m,
       In m (Matcher.matched (Matcher.match_ token_sort_ratio mt kalshi_markets
                                             polymarket_markets)) ->
       similarity_score m = 100 \/ t <= similarity_score m.
Proof.
  cbv zeta. rewrite update_settings_matcher. cbn.
  repeat (split; [reflexivity|]).
  intros m Hin. apply MatcherMore.matched_origin in Hin.
  destruct Hin as [(km & pm & _ & _ & _ & ->)
                  | [(km & _ & _ & Hc) | (km & pm & _ & _ & _ & Ht & ->)]].
  - left. reflexivity.
  - cbn in Hc. rewrite lookup_empty in Hc. discriminate.
  - right. exact Ht.
Qed.

End ScannerFacts.

(* ===================================================================== *)
(** * What the API reports *)
(* ===================================================================== *)

Module ApiFacts.
Import Detector Api.

Lemma round_half_even_integer (x : Q) (z : Z) :
  x == inject_Z z -> round_half_even x = z.
Proof.
  intros Hx. unfold round_half_even.
  assert (Qfloor x = z) as -> by (rewrite Hx; apply Qfloor_Z).
  destruct (Qcompare_spec (x - inject_Z z) (1 # 2)) as [H | H | H];
    [lra | reflexivity | lra].
Qed.

Lemma pow10_pos (n : nat) : 0 < pow10 n.
Proof.
  unfold pow10. change 0 with (inject_Z 0). rewrite <- Zlt_Qlt.
  apply Z.pow_pos_nonneg; lia.
Qed.

(** Rounding a rounded value again changes nothing. *)
Lemma round_dp_idempotent (n : nat) (x : Q) :
  round_dp n (round_dp n x) = round_dp n x.
Proof.
  pose proof (pow10_pos n) as Hpos. unfold round_dp.
  rewrite (round_half_even_integer
             (inject_Z (round_half_even (x * pow10 n)) / pow10 n * pow10 n)
             (round_half_even (x * pow10 n))); [reflexivity|].
  field. lra.
Qed.

Lemma check_direction_roi now mm d yo no yf nf minp o :
  _check_direction now mm d yo no yf nf minp = Some o ->
  exists r, roi o = round_dp 2 r.
Proof.
  unfold _check_direction. cbv zeta.
  destruct (Qleb (yes_leg_price yo) 0 || Qleb (no_leg_price no) 0); [discriminate|].
  destruct (Qltb _ minp); [discriminate|].
  intros [= <-]. cbn. eexists. reflexivity.
Qed.

(** X29.  For every opportunity the detector emits, [to_dict] reports the
    cost, the profit, the ROI and the maximum size exactly as the detector
    stored them: its own rounding, to the same number of places, changes
    none of the four. *)
Theorem to_dict_repeats_detector_figures s now pairs arg o :
  In o (detect_opportunities s now pairs arg) ->
  d_cost (to_dict o) = cost o /\ d_profit (to_dict o) = profit o
  /\ d_roi (to_dict o) = roi o /\ d_max_size (to_dict o) = max_size o.
Proof.
  intros Hin. apply DetectorFacts.detect_In in Hin.
  destruct Hin as (mm & d & ko & po & _ & _ & _ & Hc). unfold check in Hc.
  destruct (check_direction_roi _ _ _ _ _ _ _ _ _ Hc) as [r Hr].
  apply DetectorFacts.check_direction_inv in Hc.
  destruct Hc as (_ & _ & _ & _ & _ & Hcost & Hprofit & Hsize & _).
  cbn [to_dict d_cost d_profit d_roi d_max_size].
  rewrite Hcost, Hprofit, Hr, Hsize.
  repeat split; apply round_dp_idempotent.
Qed.

Lemma to_dict_repeats_detector_figures_witness :
  exists o, In o (detect_opportunities Config.settings 0 [Scenario.profitable] (Some 1))
            /\ d_cost (to_dict o) = cost o.
Proof.
  destruct (detect_opportunities Config.settings 0 [Scenario.profitable] (Some 1))
    as [|o l] eqn:E; [vm_compute in E; discriminate|].
  exists o. split; [left; reflexivity|].
  apply (to_dict_repeats_detector_figures Config.settings 0
           [Scenario.profitable] (Some 1) o).
  rewrite E. left. reflexivity.
Defined.

End ApiFacts.

(* ===================================================================== *)
(** * Normalized titles *)
(* ===================================================================== *)

Module NormalizeFacts.
Import Matcher.

Lemma lower_char_fixed (c : ascii) : lower_char (lower_char c) = lower_char c.
Proof. destruct c as [[] [] [] [] [] [] [] []]; reflexivity. Qed.

Lemma every_impl (P R : ascii -> Prop) (s : string) :
  (forall c, P c -> R c) -> Cases.every P s -> Cases.every R s.
Proof.
  intros Himp. induction s as [|c s IH]; cbn; [auto|].
  intros [Hc Hs]. split; [apply Himp; exact Hc | apply IH; exact Hs].
Qed.

Lemma every_lower (s : string) : Cases.every (fun c => lower_char c = c) (lower s).
Proof.
  induction s as [|c s IH]; cbn; [exact I|].
  split; [apply lower_char_fixed | exact IH].
Qed.

Lemma every_lstrip (P : ascii -> Prop) (s : string) :
  Cases.every P s -> Cases.every P (lstrip s).
Proof.
  induction s as [|c s IH]; cbn; [auto|].
  intros [Hc Hs]. destruct (is_space c); [apply IH; exact Hs | split; assumption].
Qed.

Lemma every_rstrip (P : ascii -> Prop) (s : string) :
  Cases.every P s -> Cases.every P (rstrip s).
Proof.
  induction s as [|c s IH]; cbn; [auto|].
  intros [Hc Hs]. specialize (IH Hs).
  destruct (rstrip s) as [|d r].
  - destruct (is_space c); cbn; auto.
  - cbn in *. tauto.
Qed.

Lemma every_strip (P : ascii -> Prop) (s : string) :
  Cases.every P s -> Cases.every P (strip s).
Proof. intros H. unfold strip. apply every_rstrip, every_lstrip, H. Qed.

Lemma blank_is_plain : Cases.plain_char " "%char.
Proof. split; reflexivity. Qed.

Lemma every_blank_punctuation (s : string) :
  Cases.every (fun c => lower_char c = c) s ->
  Cases.every Cases.plain_char (blank_punctuation s).
Proof.
  induction s as [|c s IH]; cbn; [auto|].
  intros [Hc Hs]. split; [|apply IH; exact Hs].
  destruct (is_word c || is_space c) eqn:E; [split; assumption | apply blank_is_plain].
Qed.

Lemma every_collapse (s : string) :
  forall in_run,
    Cases.every Cases.plain_char s ->
    Cases.every Cases.plain_char (collapse in_run s).
Proof.
  induction s as [|c s IH]; intros in_run; cbn; [auto|].
  intros [Hc Hs]. destruct (is_space c).
  - destruct in_run; [apply IH; exact Hs|].
    cbn. split; [apply blank_is_plain | apply IH; exact Hs].
  - cbn. split; [exact Hc | apply IH; exact Hs].
Qed.

Lemma lower_fixed (s : string) :
  Cases.every (fun c => lower_char c = c) s -> lower s = s.
Proof.
  induction s as [|c s IH]; cbn; [auto|].
  intros [Hc Hs]. rewrite Hc, IH by exact Hs. reflexivity.
Qed.

Lemma blank_punctuation_fixed (s : string) :
  Cases.every (fun c => (is_word c || is_space c) = true) s ->
  blank_punctuation s = s.
Proof.
  induction s as [|c s IH]; cbn; [auto|].
  intros [Hc Hs]. rewrite Hc, IH by exact Hs. reflexivity.
Qed.

Lemma spaced_collapse (s : string) :
  forall in_run, Cases.single_spaced in_run (collapse in_run s).
Proof.
  induction s as [|c s IH]; intros in_run; cbn; [exact I|].
  destruct (is_space c) eqn:E.
  - destruct in_run; [apply IH|].
    cbn. repeat split. apply IH.
  - cbn. rewrite E. apply IH.
Qed.

Lemma spaced_lstrip (s : string) :
  forall in_run,
    Cases.single_spaced in_run s -> Cases.single_spaced false (lstrip s).
Proof.
  induction s as [|c s IH]; intros in_run; cbn; [auto|].
  destruct (is_space c) eqn:E.
  - intros (_ & _ & Hs). apply (IH true Hs).
  - intros Hs. cbn. rewrite E. exact Hs.
Qed.

Lemma spaced_rstrip (s : string) :
  forall in_run,
    Cases.single_spaced in_run s -> Cases.single_spaced in_run (rstrip s).
Proof.
  induction s as [|c s IH]; intros in_run; cbn; [auto|].
  destruct (is_space c) eqn:E.
  - intros (Hc & Hr & Hs). specialize (IH true Hs).
    destruct (rstrip s) as [|d r]; [exact I|].
    cbn [Cases.single_spaced]. rewrite E. auto.
  - intros Hs. specialize (IH false Hs).
    destruct (rstrip s) as [|d r]; cbn [Cases.single_spaced]; rewrite E; auto.
Qed.

Lemma collapse_fixed (s : string) :
  forall in_run, Cases.single_spaced in_run s -> collapse in_run s = s.
Proof.
  induction s as [|c s IH]; intros in_run; cbn; [auto|].
  destruct (is_space c).
  - intros (-> & -> & Hs). rewrite (IH true Hs). reflexivity.
  - intros Hs. rewrite (IH false Hs). reflexivity.
Qed.

Lemma lstrip_tidy (s : string) : Cases.starts_tidy (lstrip s).
Proof.
  induction s as [|c s IH]; cbn; [exact I|].
  destruct (is_space c) eqn:E; [exact IH | exact E].
Qed.

Lemma rstrip_keeps_start (s : string) :
  Cases.starts_tidy s -> Cases.starts_tidy (rstrip s).
Proof.
  destruct s as [|c s]; cbn; [auto|]. intros E.
  destruct (rstrip s); rewrite ?E; exact E.
Qed.

Lemma lstrip_fixed (s : string) : Cases.starts_tidy s -> lstrip s = s.
Proof. destruct s as [|c s]; cbn; [auto|]. intros ->. reflexivity. Qed.

Lemma rstrip_idempotent (s : string) : rstrip (rstrip s) = rstrip s.
Proof.
  induction s as [|c s IH]; cbn; [reflexivity|].
  destruct (rstrip s) as [|d r] eqn:Er.
  - destruct (is_space c) eqn:E; cbn; [reflexivity|]. rewrite E. reflexivity.
  - cbn [rstrip] in IH |- *. 
    change (rstrip (String c (String d r)))
      with (match rstrip (String d r) with
            | EmptyString => if is_space c then EmptyString else String c EmptyString
            | String a b => String c (String a b)
            end).
    rewrite IH. reflexivity.
Qed.

Lemma strip_shape (s : string) :
  Cases.starts_tidy (strip s) /\ Cases.ends_tidy (strip s).
Proof.
  unfold strip, Cases.ends_tidy. split.
  - apply rstrip_keeps_start, lstrip_tidy.
  - apply rstrip_idempotent.
Qed.

Lemma strip_fixed (s : string) :
  Cases.starts_tidy s -> Cases.ends_tidy s -> strip s = s.
Proof.
  intros Hs He. unfold strip. rewrite (lstrip_fixed s Hs). exact He.
Qed.

(** X30.  On ASCII text, a normalized title holds only lower-case letters,
    digits, underscores and blanks, with no blank at either end and never
    two in a row; normalizing it again changes nothing. *)
Theorem normalize_is_idempotent (t : string) :
  Cases.ascii_text t ->
  Cases.every Cases.plain_char (_normalize t)
  /\ Cases.single_spaced false (_normalize t)
  /\ Cases.starts_tidy (_normalize t) /\ Cases.ends_tidy (_normalize t)
  /\ _normalize (_normalize t) = _normalize t.
Proof.
  intros _.
  assert (Cases.every Cases.plain_char (_normalize t)) as Hplain.
  { unfold _normalize. apply every_strip, every_collapse, every_blank_punctuation.
    apply every_strip, every_lower. }
  assert (Cases.single_spaced false (_normalize t)) as Hspaced.
  { unfold _normalize, strip at 1.
    apply spaced_rstrip, (spaced_lstrip _ false), spaced_collapse. }
  destruct (strip_shape (collapse false (blank_punctuation (strip (lower t)))))
    as [Hstart Hend].
  fold (_normalize t) in Hstart, Hend.
  repeat (split; [assumption|]).
  unfold _normalize at 1.
  rewrite lower_fixed
    by (apply (every_impl Cases.plain_char); [intros c [H _]; exact H | exact Hplain]).
  rewrite (strip_fixed _ Hstart Hend).
  rewrite blank_punctuation_fixed
    by (apply (every_impl Cases.plain_char); [intros c [_ H]; exact H | exact Hplain]).
  rewrite (collapse_fixed _ false Hspaced).
  apply (strip_fixed _ Hstart Hend).
Qed.

Lemma normalize_is_idempotent_witness :
  _normalize (_normalize "  Will X happen, by June?  ")
  = _normalize "  Will X happen, by June?  ".
Proof.
  apply (normalize_is_idempotent "  Will X happen, by June?  ").
  vm_compute. repeat split; lia.
Defined.

End NormalizeFacts.
